(** * Complaint resolution matching engine

    A shallow embedding of [backend/app/simple_solution.py] and of the
    nearest-site lookup of [backend/app/location.py], with the properties
    of the matching engine stated and settled against it.

    Text.  A Python [str] is a sequence of code points.  The embedding
    keeps the code points U+0000..U+00FF: a text is a [list ascii] and the
    eight-bit character [c] stands for the code point of the same number.
    Every operation of the program maps such texts to such texts
    ([str.lower] of a Latin-1 letter is a Latin-1 letter, the replacement
    texts are ASCII), so the fragment is closed. *)

From Stdlib Require Import Ascii String.
From Stdlib Require Import List Bool Arith NArith ZArith QArith Qround Qabs Lia
  Permutation Sorted.
Import Datatypes ListNotations.
Close Scope Q_scope.

Set Implicit Arguments.

(** ** Texts *)

Definition str := list ascii.

(** A literal of the program. *)
Definition txt (s : string) : str := list_ascii_of_string s.

Definition code (c : ascii) : N := N_of_ascii c.

Definition in_range (lo hi : N) (c : ascii) : bool :=
  (lo <=? code c)%N && (code c <=? hi)%N.

Definition str_eq_dec : forall a b : str, {a = b} + {a <> b} :=
  list_eq_dec ascii_dec.

Definition str_eqb (a b : str) : bool :=
  if str_eq_dec a b then true else false.

Module Char.

(** [str.isspace], which is also the class [\s] of [re] on [str]
    patterns: TAB..CR, FS..US, space, NEL and the no-break space. *)
Definition is_space (c : ascii) : bool :=
  in_range 9 13 c || in_range 28 32 c
  || (code c =? 133)%N || (code c =? 160)%N.

(** [\d] on a [str] pattern: the decimal digits (Nd); below U+0100
    these are 0..9. *)
Definition is_digit (c : ascii) : bool := in_range 48 57 c.

(** [[A-Z]]. *)
Definition is_upper_az (c : ascii) : bool := in_range 65 90 c.

(** [[A-Z ]]. *)
Definition is_upper_az_or_blank (c : ascii) : bool :=
  is_upper_az c || (code c =? 32)%N.

(** [\w] on a [str] pattern: [c.isalnum() or c == '_']. *)
Definition is_word (c : ascii) : bool :=
  in_range 48 57 c || in_range 65 90 c || (code c =? 95)%N
  || in_range 97 122 c
  || (code c =? 170)%N || in_range 178 179 c || (code c =? 181)%N
  || in_range 185 186 c || in_range 188 190 c
  || in_range 192 214 c || in_range 216 246 c || in_range 248 255 c.

Definition is_char (x : ascii) (c : ascii) : bool := (code c =? code x)%N.

(** [str.lower] on one code point: A..Z and the upper-case letters of
    U+00C0..U+00DE (all but the multiplication sign U+00D7) move up by
    32. *)
Definition lower (c : ascii) : ascii :=
  if in_range 65 90 c
     || (in_range 192 222 c && negb (code c =? 215)%N)
  then ascii_of_N (code c + 32) else c.

End Char.

(** ** String methods *)

Definition lower (s : str) : str := map Char.lower s.

Fixpoint lstrip (s : str) : str :=
  match s with
  | c :: s' => if Char.is_space c then lstrip s' else s
  | [] => []
  end.

Definition rstrip (s : str) : str := rev (lstrip (rev s)).

(** [s.strip()] *)
Definition strip (s : str) : str := rstrip (lstrip s).

(** [s.split()]: the maximal runs of characters that are not white
    space.  [cur] holds the run being read, last character first. *)
Fixpoint split_acc (cur : str) (s : str) : list str :=
  match s with
  | [] => match cur with [] => [] | _ => [rev cur] end
  | c :: s' =>
      if Char.is_space c
      then match cur with
           | [] => split_acc [] s'
           | _ => rev cur :: split_acc [] s'
           end
      else split_acc (c :: cur) s'
  end.

Definition split (s : str) : list str := split_acc [] s.

(** [sep.join(parts)] *)
Fixpoint join (sep : str) (parts : list str) : str :=
  match parts with
  | [] => []
  | [p] => p
  | p :: rest => p ++ sep ++ join sep rest
  end.

(** [s.replace(old, '')] for a one-character [old]. *)
Definition remove_char (x : ascii) (s : str) : str :=
  filter (fun c => negb (Char.is_char x c)) s.

(** Truth value of a [str]: the empty text is false. *)
Definition truthy (s : str) : bool :=
  match s with [] => false | _ => true end.

(** ** Regular expressions

    The patterns of the program are sequences of character classes, each
    taken once, zero or more times ([*]) or one or more times ([+]), and
    of the assertions [\b] and [^].  [re] matches by backtracking, the
    quantifiers being greedy; [match_here] returns the length of the
    match [re] finds at the current position, where [prev] is the
    character before that position ([None] at the start of the text). *)

Module Re.

Inductive atom : Type :=
| One (cls : ascii -> bool)
| Star (cls : ascii -> bool)
| Plus (cls : ascii -> bool)
| WordB
| Bol.

Definition regex := list atom.

Definition word_before (prev : option ascii) : bool :=
  match prev with Some c => Char.is_word c | None => false end.

Definition word_after (s : str) : bool :=
  match s with c :: _ => Char.is_word c | [] => false end.

(** [\b]: exactly one side of the position is a word character. *)
Definition at_boundary (prev : option ascii) (s : str) : bool :=
  xorb (word_before prev) (word_after s).

(** A greedy repetition of [cls] followed by the continuation [k]:
    the longest run is tried first, then shorter ones. *)
Fixpoint greedy (cls : ascii -> bool)
    (k : option ascii -> str -> option nat)
    (prev : option ascii) (s : str) : option nat :=
  match s with
  | c :: s' =>
      if cls c
      then match greedy cls k (Some c) s' with
           | Some n => Some (S n)
           | None => k prev s
           end
      else k prev s
  | [] => k prev s
  end.

Fixpoint match_here (r : regex) (prev : option ascii) (s : str)
    : option nat :=
  match r with
  | [] => Some 0
  | One cls :: r' =>
      match s with
      | c :: s' =>
          if cls c then option_map S (match_here r' (Some c) s')
          else None
      | [] => None
      end
  | Star cls :: r' => greedy cls (match_here r') prev s
  | Plus cls :: r' =>
      match s with
      | c :: s' =>
          if cls c
          then option_map S (greedy cls (match_here r') (Some c) s')
          else None
      | [] => None
      end
  | WordB :: r' =>
      if at_boundary prev s then match_here r' prev s else None
  | Bol :: r' =>
      match prev with
      | None => match_here r' prev s
      | Some _ => None
      end
  end.

(** [re.sub(r, repl, s)]: the text is read from the left; where the
    pattern matches, the match is replaced and reading goes on after
    it ([skip] counts the characters of the match still to pass).  No
    pattern of the program matches the empty text, and a match of
    length zero is not taken. *)
Fixpoint sub_from (r : regex) (repl : str) (prev : option ascii)
    (skip : nat) (s : str) : str :=
  match s with
  | [] => []
  | c :: s' =>
      match skip with
      | S k => sub_from r repl (Some c) k s'
      | O =>
          match match_here r prev s with
          | Some (S n) => repl ++ sub_from r repl (Some c) n s'
          | _ => c :: sub_from r repl (Some c) 0 s'
          end
      end
  end.

Definition sub (r : regex) (repl : str) (s : str) : str :=
  sub_from r repl None 0 s.

(** [re.split(r, s)] for a pattern without groups: the pieces between
    the matches.  [cur] is the piece being read, last character
    first. *)
Fixpoint split_from (r : regex) (prev : option ascii) (skip : nat)
    (cur : str) (s : str) : list str :=
  match s with
  | [] => [rev cur]
  | c :: s' =>
      match skip with
      | S k => split_from r (Some c) k cur s'
      | O =>
          match match_here r prev s with
          | Some (S n) => rev cur :: split_from r (Some c) n [] s'
          | _ => split_from r (Some c) 0 (c :: cur) s'
          end
      end
  end.

Definition split (r : regex) (s : str) : list str :=
  split_from r None 0 [] s.

End Re.


(** ** The patterns of [simple_solution.py] *)

Definition dot : ascii := "."%char.
Definition comma : ascii := ","%char.
Definition percent : ascii := "%"%char.
Definition newline : ascii := ascii_of_N 10.
Definition colon : ascii := ":"%char.
Definition bar : ascii := "|"%char.

(** [\b[A-Z]+\d+[A-Z]*\b] *)
Definition re_site_code : Re.regex :=
  [Re.WordB; Re.Plus Char.is_upper_az; Re.Plus Char.is_digit;
   Re.Star Char.is_upper_az; Re.WordB].

(** [\b\d+\.\d+\b] *)
Definition re_decimal : Re.regex :=
  [Re.WordB; Re.Plus Char.is_digit; Re.One (Char.is_char dot); Re.Plus Char.is_digit; Re.WordB].

(** [\b\d+\b] *)
Definition re_integer : Re.regex := [Re.WordB; Re.Plus Char.is_digit; Re.WordB].

(** [\b\d+dBm\b] *)
Definition re_dbm : Re.regex :=
  [Re.WordB; Re.Plus Char.is_digit; Re.One (Char.is_char "d"); Re.One (Char.is_char "B");
   Re.One (Char.is_char "m"); Re.WordB].

(** [\b\d+%\b] *)
Definition re_percent : Re.regex :=
  [Re.WordB; Re.Plus Char.is_digit; Re.One (Char.is_char percent); Re.WordB].

(** [\s+] *)
Definition re_spaces : Re.regex := [Re.Plus Char.is_space].

(** [,\s*,] *)
Definition re_comma_comma : Re.regex :=
  [Re.One (Char.is_char comma); Re.Star Char.is_space; Re.One (Char.is_char comma)].

(** [\s,] *)
Definition re_space_comma : Re.regex :=
  [Re.One Char.is_space; Re.One (Char.is_char comma)].

(** [\n\s*\d+\.] *)
Definition re_numbered_item : Re.regex :=
  [Re.One (Char.is_char newline); Re.Star Char.is_space; Re.Plus Char.is_digit;
   Re.One (Char.is_char dot)].

(** [\n\s*\n] *)
Definition re_blank_line : Re.regex :=
  [Re.One (Char.is_char newline); Re.Star Char.is_space; Re.One (Char.is_char newline)].

(** [^\s*[A-Z ]+:\s*] *)
Definition re_heading : Re.regex :=
  [Re.Bol; Re.Star Char.is_space; Re.Plus Char.is_upper_az_or_blank;
   Re.One (Char.is_char colon); Re.Star Char.is_space].

(** ** Helper functions of [simple_solution.py] *)

Definition remove_specific_locations (text : str) : str :=
  if negb (truthy text) || negb (truthy (strip text)) then text
  else
    let text := Re.sub re_site_code (txt "the area") text in
    let text := Re.sub re_decimal [] text in
    let text := Re.sub re_integer [] text in
    let text := Re.sub re_dbm (txt "current signal level") text in
    let text := Re.sub re_percent [] text in
    let text := Re.sub re_spaces (txt " ") text in
    let text := Re.sub re_comma_comma (txt ",") text in
    let text := Re.sub re_space_comma (txt ",") text in
    strip text.

(** ** [hashlib.md5] (RFC 1321) on 32-bit words held in [N] *)

Module MD5.
Local Open Scope N_scope.

Definition mask32 : N := 0xffffffff.
Definition add32 (a b : N) : N := N.land (a + b) mask32.
Definition not32 (a : N) : N := N.lxor a mask32.
Definition rotl32 (x c : N) : N :=
  N.land (N.lor (N.shiftl x c) (N.shiftr x (32 - c))) mask32.

Definition shifts : list N :=
  [7; 12; 17; 22; 7; 12; 17; 22; 7; 12; 17; 22; 7; 12; 17; 22;
   5; 9; 14; 20; 5; 9; 14; 20; 5; 9; 14; 20; 5; 9; 14; 20;
   4; 11; 16; 23; 4; 11; 16; 23; 4; 11; 16; 23; 4; 11; 16; 23;
   6; 10; 15; 21; 6; 10; 15; 21; 6; 10; 15; 21; 6; 10; 15; 21].

Definition sines : list N :=
  [0xd76aa478; 0xe8c7b756; 0x242070db; 0xc1bdceee;
   0xf57c0faf; 0x4787c62a; 0xa8304613; 0xfd469501;
   0x698098d8; 0x8b44f7af; 0xffff5bb1; 0x895cd7be;
   0x6b901122; 0xfd987193; 0xa679438e; 0x49b40821;
   0xf61e2562; 0xc040b340; 0x265e5a51; 0xe9b6c7aa;
   0xd62f105d; 0x02441453; 0xd8a1e681; 0xe7d3fbc8;
   0x21e1cde6; 0xc33707d6; 0xf4d50d87; 0x455a14ed;
   0xa9e3e905; 0xfcefa3f8; 0x676f02d9; 0x8d2a4c8a;
   0xfffa3942; 0x8771f681; 0x6d9d6122; 0xfde5380c;
   0xa4beea44; 0x4bdecfa9; 0xf6bb4b60; 0xbebfbc70;
   0x289b7ec6; 0xeaa127fa; 0xd4ef3085; 0x04881d05;
   0xd9d4d039; 0xe6db99e5; 0x1fa27cf8; 0xc4ac5665;
   0xf4292244; 0x432aff97; 0xab9423a7; 0xfc93a039;
   0x655b59c3; 0x8f0ccc92; 0xffeff47d; 0x85845dd1;
   0x6fa87e4f; 0xfe2ce6e0; 0xa3014314; 0x4e0811a1;
   0xf7537e82; 0xbd3af235; 0x2ad7d2bb; 0xeb86d391].

(** Little-endian bytes of a number, [n] of them. *)
Fixpoint le_bytes (n : nat) (x : N) : list N :=
  match n with
  | O => []
  | S n' => N.land x 0xff :: le_bytes n' (N.shiftr x 8)
  end.

Fixpoint le_word (bytes : list N) : N :=
  match bytes with
  | [] => 0
  | b :: rest => b + 256 * le_word rest
  end.

Definition pad (m : list N) : list N :=
  let len := N.of_nat (length m) in
  let zeros := N.to_nat ((119 - len mod 64) mod 64) in
  m ++ [0x80] ++ repeat 0 zeros ++ le_bytes 8 (8 * len).

(** The message as 32-bit words. *)
Fixpoint words (fuel : nat) (bytes : list N) : list N :=
  match fuel, bytes with
  | S f, _ :: _ => le_word (firstn 4 bytes) :: words f (skipn 4 bytes)
  | _, _ => []
  end.

Definition state : Type := N * N * N * N.

Definition step (M : list N) (st : state) (i : nat) : state :=
  let '(A, B, C, D) := st in
  let i' := N.of_nat i in
  let '(F, g) :=
    if i' <? 16 then (N.lor (N.land B C) (N.land (not32 B) D), i')
    else if i' <? 32
    then (N.lor (N.land D B) (N.land (not32 D) C), (5 * i' + 1) mod 16)
    else if i' <? 48
    then (N.lxor B (N.lxor C D), (3 * i' + 5) mod 16)
    else (N.lxor C (N.lor B (not32 D)), (7 * i') mod 16) in
  let F := add32 (add32 (add32 F A) (nth i sines 0))
                 (nth (N.to_nat g) M 0) in
  (D, add32 B (rotl32 F (nth i shifts 0)), B, C).

Definition block (st : state) (M : list N) : state :=
  let '(a0, b0, c0, d0) := st in
  let '(A, B, C, D) := fold_left (step M) (seq 0 64) st in
  (add32 a0 A, add32 b0 B, add32 c0 C, add32 d0 D).

Fixpoint blocks (fuel : nat) (st : state) (ws : list N) : state :=
  match fuel, ws with
  | S f, _ :: _ => blocks f (block st (firstn 16 ws)) (skipn 16 ws)
  | _, _ => st
  end.

Definition init : state :=
  (0x67452301, 0xefcdab89, 0x98badcfe, 0x10325476).

Definition digest (m : list N) : list N :=
  let bytes := pad m in
  let ws := words (length bytes) bytes in
  let '(a, b, c, d) := blocks (length ws) init ws in
  le_bytes 4 a ++ le_bytes 4 b ++ le_bytes 4 c ++ le_bytes 4 d.

Definition hex_digit (n : N) : ascii :=
  if n <? 10 then ascii_of_N (48 + n) else ascii_of_N (87 + n).

Definition hex (bytes : list N) : str :=
  flat_map (fun b => [hex_digit (b / 16); hex_digit (b mod 16)]) bytes.

(** [s.encode()]: UTF-8 of the code points below U+0100. *)
Definition encode (s : str) : list N :=
  flat_map (fun c =>
    let n := code c in
    if n <? 128 then [n] else [192 + n / 64; 128 + n mod 64]) s.

(** [hashlib.md5(s.encode()).hexdigest()] *)
Definition hexdigest (s : str) : str := hex (digest (encode s)).

End MD5.

(** ** Numbers, values and tables

    Floating-point arithmetic is kept abstract: the operations of Python's
    [float] the program uses are the fields of [PyFloat], and every general
    statement below holds whatever they compute. *)

Inductive exn : Type :=
| ValueError
| TypeError
| KeyError
| AttributeError
| OverflowError.

Inductive result (A : Type) : Type :=
| Ok (a : A)
| Raise (e : exn).
Arguments Ok {A} a.
Arguments Raise {A} e.

Definition bind {A B : Type} (m : result A) (k : A -> result B)
    : result B :=
  match m with
  | Ok a => k a
  | Raise e => Raise e
  end.

Notation "x <- m ;; k" := (bind m (fun x => k))
  (at level 61, m at next level, right associativity).

Class PyFloat : Type := {
  float : Type;
  (** [float(s)] on a [str]; [None] is [ValueError] *)
  float_of_str : str -> option float;
  (** [float(n)] on an [int] *)
  float_of_int : Z -> float;
  (** the literal [m]e[e], as in [0.001] *)
  float_lit : Z -> Z -> float;
  (** [float('inf')] *)
  float_inf : float;
  (** [str(x)] and the [{x}] of an f-string *)
  float_str : float -> str;
  (** [x != x] *)
  float_isnan : float -> bool;
  (** [bool(x)] *)
  float_truthy : float -> bool;
  (** [abs(x)] *)
  float_abs : float -> float;
  (** [x < y] *)
  float_ltb : float -> float -> bool;
  (** [round(x, n)] *)
  float_round : float -> Z -> float;
  float_add : float -> float -> float;
  float_sub : float -> float -> float;
  (** [x ** y]; [None] is [OverflowError] *)
  float_pow : float -> float -> option float
}.

Section Engine.

Context {FP : PyFloat}.

(** [x > y] *)
Definition float_gtb (x y : float) : bool := float_ltb y x.

(** A value held by a condition dictionary: the request model gives the
    text fields the type [str | None] and the coordinates [float | None]. *)
Inductive pyval : Type :=
| VNone
| VStr (s : str)
| VFloat (x : float).

(** A dictionary keeps its entries in insertion order; its keys are
    distinct. *)
Definition dict (V : Type) : Type := list (str * V).

Fixpoint dict_get {V : Type} (d : dict V) (key : str) : option V :=
  match d with
  | [] => None
  | (k, v) :: d' => if str_eqb k key then Some v else dict_get d' key
  end.

Definition dict_has {V : Type} (d : dict V) (key : str) : bool :=
  match dict_get d key with Some _ => true | None => false end.

(** [d[key] = v] *)
Fixpoint dict_set {V : Type} (d : dict V) (key : str) (v : V) : dict V :=
  match d with
  | [] => [(key, v)]
  | (k, w) :: d' =>
      if str_eqb k key then (k, v) :: d' else (k, w) :: dict_set d' key v
  end.

(** [conditions.get(key)] *)
Definition get_value (d : dict pyval) (key : str) : pyval :=
  match dict_get d key with Some v => v | None => VNone end.

(** [str(value)] *)
Definition str_of_value (v : pyval) : str :=
  match v with
  | VNone => txt "None"
  | VStr s => s
  | VFloat x => float_str x
  end.

(** One cell of a table read from a spreadsheet: a text, a float (a
    missing cell is NaN) or an integer. *)
Inductive cell : Type :=
| CStr (s : str)
| CFloat (x : float)
| CInt (n : Z).

(** Decimal digits of a non-negative number, most significant first. *)
Fixpoint digits_of (fuel : nat) (n : N) (acc : str) : str :=
  match fuel with
  | O => acc
  | S f =>
      let acc' := ascii_of_N (48 + n mod 10) :: acc in
      if (n <? 10)%N then acc' else digits_of f (n / 10)%N acc'
  end.

(** [str(n)] on an [int] *)
Definition str_of_int (n : Z) : str :=
  let d := digits_of (S (N.to_nat (N.log2 (Z.abs_N n)))) (Z.abs_N n) [] in
  if (n <? 0)%Z then "-"%char :: d else d.

(** [str(cell)] *)
Definition str_of_cell (c : cell) : str :=
  match c with
  | CStr s => s
  | CFloat x => float_str x
  | CInt n => str_of_int n
  end.

(** [float(cell)], [None] being [ValueError] *)
Definition float_of_cell (c : cell) : option float :=
  match c with
  | CStr s => float_of_str s
  | CFloat x => Some x
  | CInt n => Some (float_of_int n)
  end.

(** [pd.notna(cell)] *)
Definition notna (c : cell) : bool :=
  match c with
  | CFloat x => negb (float_isnan x)
  | _ => true
  end.

(** A row as [iterrows] yields it, and as [row.to_dict()] copies it. *)
Definition row : Type := dict cell.

(** A [DataFrame]: column labels and rows of cells. *)
Record DataFrame : Type := {
  columns : list str;
  records : list (list cell)
}.

(** [df.empty]: some axis has length zero. *)
Definition df_empty (df : DataFrame) : bool :=
  match columns df, records df with
  | [], _ | _, [] => true
  | _, _ => false
  end.

(** The rows of [df.iterrows()], in order. *)
Definition iterrows (df : DataFrame) : list row :=
  map (fun r => combine (columns df) r) (records df).

(** [pd.DataFrame()] *)
Definition empty_frame : DataFrame := {| columns := []; records := [] |}.

(** [row.get(col, default)] *)
Definition row_get (r : row) (col : str) (default : cell) : cell :=
  match dict_get r col with Some c => c | None => default end.

(** [x in xs] on a list of texts *)
Definition mem (x : str) (xs : list str) : bool :=
  existsb (str_eqb x) xs.

(** ** Sorting

    [sorted] and [list.sort] are stable; the stable sorted arrangement of
    a list is unique, and insertion from the right builds it. *)

Section Sort.
Variable A : Type.
(** [before x y]: [x] may stay in front of [y]. *)
Variable before : A -> A -> bool.

Fixpoint insert (x : A) (l : list A) : list A :=
  match l with
  | [] => [x]
  | y :: l' => if before x y then x :: l else y :: insert x l'
  end.

Definition stable_sort (l : list A) : list A :=
  fold_right insert [] l.
End Sort.

(** [a <= b] on texts: lexicographic by code point. *)
Fixpoint str_leb (a b : str) : bool :=
  match a, b with
  | [], _ => true
  | _ :: _, [] => false
  | x :: a', y :: b' =>
      if (code x <? code y)%N then true
      else if (code y <? code x)%N then false
      else str_leb a' b'
  end.

(** [sorted(xs)] on texts *)
Definition sorted (xs : list str) : list str := stable_sort str_leb xs.

(** [xs[:n]] *)
Definition slice_to {A : Type} (n : Z) (xs : list A) : list A :=
  if (0 <=? n)%Z then firstn (Z.to_nat n) xs
  else firstn (length xs - Z.to_nat (- n)) xs.

(** [a in b] on texts *)
Fixpoint is_prefix (a b : str) : bool :=
  match a, b with
  | [], _ => true
  | x :: a', y :: b' => (code x =? code y)%N && is_prefix a' b'
  | _ :: _, [] => false
  end.

Fixpoint is_substring (a b : str) : bool :=
  is_prefix a b ||
  match b with
  | [] => false
  | _ :: b' => is_substring a b'
  end.

(** [enumerate(xs, i)] rendered by [render]: the items numbered from [i]. *)
Fixpoint enumerate_from {A B : Type} (render : Z -> A -> B) (i : Z)
    (xs : list A) : list B :=
  match xs with
  | [] => []
  | x :: xs' => render i x :: enumerate_from render (i + 1)%Z xs'
  end.

(** [[para.strip() for para in raw if para.strip()]] *)
Definition stripped_paragraphs (raw : list str) : list str :=
  map strip (filter (fun para => truthy (strip para)) raw).

Definition format_solution_paragraphs (solution_text solution_type : str)
    : str :=
  if negb (truthy solution_text) || negb (truthy (strip solution_text))
  then txt "No solution generated."
  else
    let cleaned_text := remove_specific_locations (strip solution_text) in
    let raw_paragraphs :=
      stripped_paragraphs (Re.split re_numbered_item cleaned_text) in
    let paragraphs :=
      if (2 <=? length raw_paragraphs)%nat
      then
        enumerate_from (fun i paragraph =>
            let clean_para := remove_specific_locations paragraph in
            let clean_para := Re.sub re_heading [] clean_para in
            str_of_int i ++ txt ". " ++ strip clean_para)
          1%Z (slice_to 4 raw_paragraphs)
      else
        let raw_paragraphs :=
          stripped_paragraphs (Re.split re_blank_line cleaned_text) in
        enumerate_from (fun i paragraph =>
            let clean_para := remove_specific_locations paragraph in
            str_of_int i ++ txt ". " ++ clean_para)
          1%Z (slice_to 4 raw_paragraphs) in
    let paragraphs :=
      match paragraphs with
      | [] => [txt "1. Please contact technical support for detailed analysis and assistance with this issue."]
      | _ => paragraphs
      end in
    join [newline; newline] paragraphs
    ++ [newline; newline] ++ txt "[Solution type: " ++ solution_type
    ++ txt "]".

(** ** The handler *)

Record SimpleComplaintHandler : Type := {
  complaint_data : option DataFrame;
  location_data : option DataFrame
}.

(** [df is None or df.empty] *)
Definition no_data (df : option DataFrame) : bool :=
  match df with
  | None => true
  | Some df => df_empty df
  end.

Definition rows_of (df : option DataFrame) : list row :=
  match df with
  | None => []
  | Some df => iterrows df
  end.

(** *** Signature and exact match *)

Definition all_conditions : list str :=
  [txt "device_type_settings_vpn_apn"; txt "signal_strength";
   txt "quality_of_signal"; txt "site_kpi_alarm";
   txt "past_data_analysis"; txt "indoor_outdoor_coverage_issue";
   txt "location"; txt "longitude"; txt "latitude"].

Definition sentinels : list str :=
  [txt ""; txt "n/a"; txt "none"; txt "null"; txt "undefined"].

(** [isinstance(value, (int, float))], with [float(value)] *)
Definition as_number (value : pyval) : option float :=
  match value with
  | VFloat x => Some x
  | _ => None
  end.

(** What the entry [key] adds to [condition_values], if anything. *)
Definition condition_value (key : str) (value : pyval) : option str :=
  match value with
  | VNone => None
  | _ =>
      if mem (lower (strip (str_of_value value))) sentinels then None
      else
        match
          (if mem key [txt "longitude"; txt "latitude"]
           then as_number value else None)
        with
        | Some x =>
            if float_gtb (float_abs x) (float_lit 1 (-3))
            then Some (key ++ [colon] ++ float_str (float_round x 6))
            else None
        | None =>
            Some (key ++ [colon] ++ strip (lower (str_of_value value)))
        end
  end.

Fixpoint condition_values (keys : list str) (conditions : dict pyval)
    : list str :=
  match keys with
  | [] => []
  | key :: keys' =>
      match condition_value key (get_value conditions key) with
      | Some entry => entry :: condition_values keys' conditions
      | None => condition_values keys' conditions
      end
  end.

(** The text that is hashed: [f"{normalized_complaint}|{condition_str}"]. *)
Definition signature_input (complaint_text : str)
    (conditions : option (dict pyval)) : str :=
  let normalized_complaint :=
    remove_specific_locations (strip (lower complaint_text)) in
  let condition_str :=
    match conditions with
    | None | Some [] => []
    | Some conditions =>
        join [bar] (sorted (condition_values all_conditions conditions))
    end in
  normalized_complaint ++ [bar] ++ condition_str.

Definition create_complaint_signature (complaint_text : str)
    (conditions : option (dict pyval)) : str :=
  MD5.hexdigest (signature_input complaint_text conditions).

Definition condition_columns : list (str * str) :=
  [(txt "Device type/settings/VPN/APN", txt "device_type_settings_vpn_apn");
   (txt "Signal Strength", txt "signal_strength");
   (txt "Qulity of Signal", txt "quality_of_signal");
   (txt "Site KPI/Alarm", txt "site_kpi_alarm");
   (txt "Past Data analysis", txt "past_data_analysis");
   (txt "Indoor/Outdoor coverage issue", txt "indoor_outdoor_coverage_issue")].

Definition coordinate_columns : list (str * str) :=
  [(txt "Lon", txt "longitude"); (txt "Lat", txt "latitude")].

(** The first loop over a historical row: the text conditions. *)
Fixpoint hist_text_conditions (cols : list (str * str)) (r : row)
    (hist_conditions : dict pyval) : dict pyval :=
  match cols with
  | [] => hist_conditions
  | (col, key) :: cols' =>
      let hist_conditions :=
        match dict_get r col with
        | Some val =>
            if notna val && truthy (strip (str_of_cell val))
            then dict_set hist_conditions key (VStr (str_of_cell val))
            else hist_conditions
        | None => hist_conditions
        end in
      hist_text_conditions cols' r hist_conditions
  end.

(** The second loop: the coordinates; a cell that [float] rejects is
    passed over by the [except] clause. *)
Fixpoint hist_coord_conditions (cols : list (str * str)) (r : row)
    (hist_conditions : dict pyval) : dict pyval :=
  match cols with
  | [] => hist_conditions
  | (coord_col, coord_key) :: cols' =>
      let hist_conditions :=
        match dict_get r coord_col with
        | Some coord_val =>
            if notna coord_val
            then
              match float_of_cell coord_val with
              | Some fval =>
                  if float_gtb (float_abs fval) (float_lit 1 (-3))
                  then dict_set hist_conditions coord_key (VFloat fval)
                  else hist_conditions
              | None => hist_conditions
              end
            else hist_conditions
        | None => hist_conditions
        end in
      hist_coord_conditions cols' r hist_conditions
  end.

Definition hist_conditions_of (r : row) : dict pyval :=
  hist_coord_conditions coordinate_columns r
    (hist_text_conditions condition_columns r []).

Definition hist_issue_desc_of (r : row) : str :=
  remove_specific_locations
    (str_of_cell (row_get r (txt "Issue Description") (CStr []))).

Definition hist_signature_of (r : row) : str :=
  create_complaint_signature (hist_issue_desc_of r)
    (Some (hist_conditions_of r)).

Fixpoint scan_exact (current_signature : str) (rows : list row)
    : option str :=
  match rows with
  | [] => None
  | r :: rows' =>
      if str_eqb current_signature (hist_signature_of r)
      then
        let exact_solution :=
          str_of_cell (row_get r (txt "Solution")
                         (CStr (txt "No solution found"))) in
        Some (format_solution_paragraphs exact_solution (txt "exact_match"))
      else scan_exact current_signature rows'
  end.

Definition find_exact_match (self : SimpleComplaintHandler)
    (complaint_text : str) (conditions : option (dict pyval))
    : option str :=
  if no_data (complaint_data self) then None
  else
    let current_signature :=
      create_complaint_signature complaint_text conditions in
    scan_exact current_signature (rows_of (complaint_data self)).

(** *** Location context *)

(** The dictionary [get_location_context] returns. *)
Record context : Type := {
  coverage_quality : str;
  signal_distribution : str
}.

(** The context built from a matched location record; [float] raises
    [ValueError] on a text it cannot read. *)
Definition context_of (r : row) : result context :=
  let field :=
    str_of_cell (row_get r (txt "RSRP >-105dBm (%)") (CStr (txt "0"))) in
  match float_of_str (remove_char percent field) with
  | None => Raise ValueError
  | Some x =>
      Ok {| coverage_quality :=
              if float_gtb x (float_of_int 70) then txt "Good"
              else txt "Poor";
            signal_distribution :=
              txt "Good coverage, Fair coverage, Poor coverage based on area signal quality" |}
  end.

(** The body of the [try] of the coordinate loop; [None] when it raises
    (a cell [float] rejects, a coordinate that is not a number, an
    overflow) and the row is passed over. *)
Definition row_distance (longitude latitude : pyval) (r : row)
    : option float :=
  match float_of_cell (row_get r (txt "Lon") (CInt 0)) with
  | None => None
  | Some row_lon =>
      match float_of_cell (row_get r (txt "Lat") (CInt 0)) with
      | None => None
      | Some row_lat =>
          match longitude, latitude with
          | VFloat lon, VFloat lat =>
              match float_pow (float_sub lon row_lon) (float_of_int 2) with
              | None => None
              | Some dx2 =>
                  match
                    float_pow (float_sub lat row_lat) (float_of_int 2)
                  with
                  | None => None
                  | Some dy2 =>
                      float_pow (float_add dx2 dy2) (float_lit 5 (-1))
                  end
              end
          | _, _ => None
          end
      end
  end.

(** One turn of the coordinate loop on [(min_distance, closest_location)]. *)
Definition closest_step (longitude latitude : pyval)
    (st : float * option row) (r : row) : float * option row :=
  match row_distance longitude latitude r with
  | Some distance =>
      if float_ltb distance (fst st)
         && float_ltb distance (float_lit 1 (-2))
      then (distance, Some r)
      else st
  | None => st
  end.

Definition closest_location (longitude latitude : pyval)
    (rows : list row) : option row :=
  snd (fold_left (closest_step longitude latitude) rows (float_inf, None)).

(** The name loop: the first site whose name contains, or is contained
    in, the location name. *)
Fixpoint scan_names (location_name : str) (rows : list row)
    : result (option context) :=
  match rows with
  | [] => Ok None
  | r :: rows' =>
      let site_name :=
        lower (str_of_cell (row_get r (txt "Site Name") (CStr []))) in
      if is_substring (lower location_name) site_name
         || is_substring site_name (lower location_name)
      then c <- context_of r ;; Ok (Some c)
      else scan_names location_name rows'
  end.

Definition get_location_context (self : SimpleComplaintHandler)
    (complaint_details : dict pyval) : result (option context) :=
  if no_data (location_data self) then Ok None
  else
    let rows := rows_of (location_data self) in
    let longitude := get_value complaint_details (txt "longitude") in
    let latitude := get_value complaint_details (txt "latitude") in
    let location_name := get_value complaint_details (txt "location") in
    location_context <-
      match longitude, latitude with
      | VNone, _ | _, VNone => Ok None
      | _, _ =>
          match closest_location longitude latitude rows with
          | Some ((_ :: _) as closest) =>
              c <- context_of closest ;; Ok (Some c)
          | _ => Ok None
          end
      end ;;
    match location_context with
    | Some c => Ok (Some c)
    | None =>
        match location_name with
        | VNone => Ok None
        | VStr name =>
            if truthy name then scan_names name rows else Ok None
        | VFloat x =>
            if float_truthy x then Raise AttributeError else Ok None
        end
    end.

(** *** Similar complaints

    The score is a quotient of two set sizes.  It is kept as the exact
    rational: binary64 division is monotone and sends distinct quotients of
    naturals below 2^26 to distinct floats, and [i/u > 0.1] holds of the
    float exactly when [10 * i > u] (for [u] below 2^52), so comparing the
    rationals is comparing the floats. *)

(** [set(words)]: each word once *)
Definition set_of (words : list str) : list str :=
  nodup str_eq_dec words.

(** [a & b] *)
Definition intersection (a b : list str) : list str :=
  filter (fun w => mem w b) a.

(** [a | b] *)
Definition union (a b : list str) : list str :=
  a ++ filter (fun w => negb (mem w a)) b.

(** [len(a & b) / len(a | b) if len(a | b) > 0 else 0] *)
Definition jaccard (a b : list str) : Q :=
  let n_intersection := length (intersection a b) in
  let n_union := length (union a b) in
  if (0 <? n_union)%nat
  then Qmake (Z.of_nat n_intersection) (Pos.of_nat n_union)
  else 0%Q.

Definition complaint_words_of (complaint_text : str) : list str :=
  set_of (split (remove_specific_locations (lower complaint_text))).

Definition issue_words_of (r : row) : list str :=
  let issue_desc :=
    remove_specific_locations
      (str_of_cell (row_get r (txt "Issue Description") (CStr []))) in
  set_of (split (lower issue_desc)).

(** The score of a historical row against the incoming complaint. *)
Definition similarity (complaint_text : str) (r : row) : Q :=
  jaccard (complaint_words_of complaint_text) (issue_words_of r).

Definition Qgtb (x y : Q) : bool := negb (Qle_bool x y).

(** [row_data[col] = remove_specific_locations(str(row_data[col]))] when
    the column is there. *)
Definition clean_column (col : str) (row_data : row) : row :=
  match dict_get row_data col with
  | Some c =>
      dict_set row_data col (CStr (remove_specific_locations (str_of_cell c)))
  | None => row_data
  end.

(** An item of [similarities]. *)
Record scored : Type := {
  item_similarity : Q;
  item_data : row
}.

Definition score_row (complaint_text : str) (r : row) : scored :=
  {| item_similarity := similarity complaint_text r;
     item_data :=
       clean_column (txt "Issue Description")
         (clean_column (txt "Solution") r) |}.

(** [similarities] after the loop. *)
Definition similarities_of (complaint_text : str) (rows : list row)
    : list scored :=
  map (score_row complaint_text)
    (filter (fun r => Qgtb (similarity complaint_text r) (1 # 10)) rows).

(** [similarities.sort(key=..., reverse=True)] *)
Definition sort_by_similarity (items : list scored) : list scored :=
  stable_sort
    (fun x y => Qle_bool (item_similarity y) (item_similarity x)) items.

(** [similarities[:top_n]] after the sort. *)
Definition ranked (self : SimpleComplaintHandler) (complaint_text : str)
    (top_n : Z) : list scored :=
  if no_data (complaint_data self) then []
  else
    slice_to top_n
      (sort_by_similarity
         (similarities_of complaint_text (rows_of (complaint_data self)))).

Definition find_similar_complaints (self : SimpleComplaintHandler)
    (complaint_text : str) (top_n : Z) : list row :=
  map item_data (ranked self complaint_text top_n).

(** *** Choosing the strategy

    The text generation service and the prompt builders are outside the
    engine; they are taken as they come. *)

Variable call_ollama_llm : str -> str.
Variable create_complaint_solution_prompt :
  dict pyval -> list row -> context -> str.
Variable create_pattern_analysis_prompt : str -> list row -> str.
Variable create_new_complaint_prompt : dict pyval -> option context -> str.

(** [complaint_details.get('complaint', '')]; the request model makes it
    a [str]. *)
Definition complaint_text_of (complaint_details : dict pyval) : str :=
  match dict_get complaint_details (txt "complaint") with
  | Some (VStr s) => s
  | _ => []
  end.

Definition generate_solution (self : SimpleComplaintHandler)
    (complaint_details : dict pyval) : result (str * str) :=
  let complaint_text := complaint_text_of complaint_details in
  match find_exact_match self complaint_text (Some complaint_details) with
  | Some ((_ :: _) as exact_solution) =>
      Ok (exact_solution, txt "exact_match")
  | _ =>
      location_context <- get_location_context self complaint_details ;;
      let similar_complaints :=
        find_similar_complaints self complaint_text 5 in
      match similar_complaints with
      | _ :: _ =>
          match location_context with
          | Some location_context =>
              if (3 <=? length similar_complaints)%nat
              then
                let prompt :=
                  create_complaint_solution_prompt complaint_details
                    similar_complaints location_context in
                Ok (call_ollama_llm prompt, txt "comprehensive_analysis")
              else
                let prompt :=
                  create_pattern_analysis_prompt complaint_text
                    similar_complaints in
                Ok (call_ollama_llm prompt, txt "pattern_analysis")
          | None =>
              let prompt :=
                create_pattern_analysis_prompt complaint_text
                  similar_complaints in
              Ok (call_ollama_llm prompt, txt "pattern_analysis")
          end
      | [] =>
          let prompt :=
            create_new_complaint_prompt complaint_details location_context in
          Ok (call_ollama_llm prompt, txt "new_complaint")
      end
  end.

(** The request of the HTTP layer ([ComplaintRequest]). *)
Record ComplaintRequest : Type := {
  msisdn : str;
  complaint : str;
  device_type_settings_vpn_apn : option str;
  signal_strength : option str;
  quality_of_signal : option str;
  site_kpi_alarm : option str;
  past_data_analysis : option str;
  indoor_outdoor_coverage_issue : option str;
  location : option str;
  longitude : option float;
  latitude : option float
}.

Definition opt_str (v : option str) : pyval :=
  match v with Some s => VStr s | None => VNone end.

Definition opt_float (v : option float) : pyval :=
  match v with Some x => VFloat x | None => VNone end.

(** The dictionary the module-level [generate_solution] builds. *)
Definition complaint_details_of (req : ComplaintRequest) : dict pyval :=
  [(txt "msisdn", VStr (msisdn req));
   (txt "complaint", VStr (complaint req));
   (txt "device_type_settings_vpn_apn",
    opt_str (device_type_settings_vpn_apn req));
   (txt "signal_strength", opt_str (signal_strength req));
   (txt "quality_of_signal", opt_str (quality_of_signal req));
   (txt "site_kpi_alarm", opt_str (site_kpi_alarm req));
   (txt "past_data_analysis", opt_str (past_data_analysis req));
   (txt "indoor_outdoor_coverage_issue",
    opt_str (indoor_outdoor_coverage_issue req));
   (txt "location", opt_str (location req));
   (txt "longitude", opt_float (longitude req));
   (txt "latitude", opt_float (latitude req))].

End Engine.

(** ** Nearest-site lookup ([location.py]) *)

(** The functions of [math] and the float operations the lookup uses. *)
Class PyMath (FP : PyFloat) : Type := {
  math_radians : float -> float;
  math_sin : float -> float;
  math_cos : float -> float;
  math_atan2 : float -> float -> float;
  (** [math.sqrt]; [None] is [ValueError] (math domain error) *)
  math_sqrt : float -> option float;
  float_mul : float -> float -> float;
  float_div : float -> float -> float;
  (** [x <= y] *)
  float_leb : float -> float -> bool
}.

Section Location.

Context {FP : PyFloat} {FM : PyMath FP}.

Definition opt_or_raise {A : Type} (e : exn) (o : option A) : result A :=
  match o with
  | Some a => Ok a
  | None => Raise e
  end.

Definition haversine_distance (lat1 lon1 lat2 lon2 : float)
    : result float :=
  let R := float_lit 63710 (-1) in
  let lat1_rad := math_radians lat1 in
  let lon1_rad := math_radians lon1 in
  let lat2_rad := math_radians lat2 in
  let lon2_rad := math_radians lon2 in
  let dlat := float_sub lat2_rad lat1_rad in
  let dlon := float_sub lon2_rad lon1_rad in
  let two := float_of_int 2 in
  s1 <- opt_or_raise OverflowError
          (float_pow (math_sin (float_div dlat two)) two) ;;
  s2 <- opt_or_raise OverflowError
          (float_pow (math_sin (float_div dlon two)) two) ;;
  let a :=
    float_add s1
      (float_mul (float_mul (math_cos lat1_rad) (math_cos lat2_rad)) s2) in
  q1 <- opt_or_raise ValueError (math_sqrt a) ;;
  q2 <- opt_or_raise ValueError
          (math_sqrt (float_sub (float_of_int 1) a)) ;;
  let c := float_mul two (math_atan2 q1 q2) in
  Ok (float_mul R c).

(** [row[col]]; a missing label is [KeyError]. *)
Definition row_item (r : row) (col : str) : result cell :=
  opt_or_raise KeyError (dict_get r col).

(** A cell passed where [math] wants a number; a text is [TypeError]. *)
Definition number_of_cell (c : cell) : result float :=
  match c with
  | CStr _ => Raise TypeError
  | CFloat x => Ok x
  | CInt n => Ok (float_of_int n)
  end.

Record site_info : Type := {
  site_name : cell;
  rsrp_range_1 : cell;
  rsrp_range_2 : cell;
  rsrp_range_3 : cell;
  rsrp_below_115 : cell;
  distance_km : float
}.

(** The state of the loop: [min_distance], [nearest_site] and
    [nearby_sites]. *)
Definition lookup_state : Type := float * option site_info * list site_info.

Definition lookup_step (lat lon : float) (st : lookup_state) (r : row)
    : result lookup_state :=
  let '(min_distance, nearest_site, nearby_sites) := st in
  site_lat_cell <- row_item r (txt "location_corrected.lat") ;;
  site_lon_cell <- row_item r (txt "location_corrected.lon") ;;
  site_lat <- number_of_cell site_lat_cell ;;
  site_lon <- number_of_cell site_lon_cell ;;
  distance <- haversine_distance lat lon site_lat site_lon ;;
  name <- row_item r (txt "Site Name") ;;
  r1 <- row_item r (txt "RSRP Range 1 (>-105dBm) %") ;;
  r2 <- row_item r (txt "RSRP Range 2 (-105~-110dBm) %") ;;
  r3 <- row_item r (txt "RSRP Range 3 (-110~-115dBm) %") ;;
  r4 <- row_item r (txt "RSRP < -115dBm") ;;
  let info :=
    {| site_name := name; rsrp_range_1 := r1; rsrp_range_2 := r2;
       rsrp_range_3 := r3; rsrp_below_115 := r4;
       distance_km := distance |} in
  let '(min_distance, nearest_site) :=
    if float_ltb distance min_distance then (distance, Some info)
    else (min_distance, nearest_site) in
  let nearby_sites :=
    if float_leb distance (float_lit 20 (-1)) then nearby_sites ++ [info]
    else nearby_sites in
  Ok (min_distance, nearest_site, nearby_sites).

Fixpoint lookup_loop (lat lon : float) (st : lookup_state)
    (rows : list row) : result lookup_state :=
  match rows with
  | [] => Ok st
  | r :: rows' =>
      st' <- lookup_step lat lon st r ;;
      lookup_loop lat lon st' rows'
  end.

(** The two responses of the route. *)
Inductive response : Type :=
| Found (nearest_site : site_info) (nearby_sites : list site_info)
| NotFound.

Definition get_location_data (excel_data : DataFrame) (lat lon : float)
    : result response :=
  st <- lookup_loop lat lon (float_inf, None, []) (iterrows excel_data) ;;
  let '(_, nearest_site, nearby_sites) := st in
  match nearest_site with
  | Some nearest =>
      let nearby_sites :=
        match nearby_sites with
        | [] => [nearest]
        | _ => nearby_sites
        end in
      Ok (Found nearest nearby_sites)
  | None => Ok NotFound
  end.

End Location.

(** ** Exact decimal arithmetic

    An interpretation of [PyFloat] by exact rationals with the two
    infinities and NaN.  It reads and prints numbers as Python does and
    agrees with binary64 wherever binary64 does not round; it serves to
    run the engine on concrete complaints. *)

Module Decimal.

Local Open Scope Z_scope.

Inductive dec : Type :=
| Fin (q : Q)
| Inf (negative : bool)
| NaN.

Definition pow10 (e : Z) : Q :=
  if 0 <=? e then inject_Z (10 ^ e) else Qmake 1 (Z.to_pos (10 ^ (- e))).

Definition lit (m e : Z) : dec := Fin (Qred (inject_Z m * pow10 e)).

Definition digit_value (c : ascii) : Z := Z.of_N (code c) - 48.

(** The rest of a [digitpart]: digits, single underscores between them.
    Returns the value read, the number of digits and the unread rest. *)
Fixpoint digitpart_rest (acc : Z) (n : Z) (s : str) : Z * Z * str :=
  match s with
  | c :: s' =>
      if Char.is_digit c
      then digitpart_rest (10 * acc + digit_value c) (n + 1) s'
      else if Char.is_char "_" c
      then match s' with
           | c2 :: s'' =>
               if Char.is_digit c2
               then digitpart_rest (10 * acc + digit_value c2) (n + 1) s''
               else (acc, n, s)
           | [] => (acc, n, s)
           end
      else (acc, n, s)
  | [] => (acc, n, s)
  end.

Definition digitpart (s : str) : option (Z * Z * str) :=
  match s with
  | c :: s' =>
      if Char.is_digit c then Some (digitpart_rest (digit_value c) 1 s')
      else None
  | [] => None
  end.

(** An optional sign: [true] for minus. *)
Definition sign (s : str) : bool * str :=
  match s with
  | c :: s' =>
      if Char.is_char "-" c then (true, s')
      else if Char.is_char "+" c then (false, s')
      else (false, s)
  | [] => (false, s)
  end.

(** The exponent part and the end of the text. *)
Definition exponent (s : str) : option Z :=
  match s with
  | [] => Some 0
  | c :: s' =>
      if Char.is_char "e" (Char.lower c)
      then
        let '(neg, s'') := sign s' in
        match digitpart s'' with
        | Some (e, _, []) => Some (if neg then - e else e)
        | _ => None
        end
      else None
  end.

(** [number [exponent]] *)
Definition floatnumber (s : str) : option Q :=
  match digitpart s with
  | Some (m1, _, rest) =>
      match rest with
      | c :: rest' =>
          if Char.is_char dot c
          then
            match digitpart rest' with
            | Some (m2, n2, rest'') =>
                option_map
                  (fun e => inject_Z (m1 * 10 ^ n2 + m2) * pow10 (e - n2))%Q
                  (exponent rest'')
            | None =>
                option_map (fun e => inject_Z m1 * pow10 e)%Q
                  (exponent rest')
            end
          else option_map (fun e => inject_Z m1 * pow10 e)%Q (exponent rest)
      | [] => Some (inject_Z m1)
      end
  | None =>
      match s with
      | c :: rest' =>
          if Char.is_char dot c
          then
            match digitpart rest' with
            | Some (m2, n2, rest'') =>
                option_map (fun e => inject_Z m2 * pow10 (e - n2))%Q
                  (exponent rest'')
            | None => None
            end
          else None
      | [] => None
      end
  end.

(** The white space [float] strips: the ASCII blanks and the blanks above
    U+007F. *)
Definition float_space (c : ascii) : bool :=
  in_range 9 13 c || (code c =? 32)%N || (code c =? 133)%N
  || (code c =? 160)%N.

Fixpoint lstrip_float (s : str) : str :=
  match s with
  | c :: s' => if float_space c then lstrip_float s' else s
  | [] => []
  end.

Definition of_str (s : str) : option dec :=
  let s := rev (lstrip_float (rev (lstrip_float s))) in
  let '(neg, body) := sign s in
  let word := lower body in
  if str_eqb word (txt "inf") || str_eqb word (txt "infinity")
  then Some (Inf neg)
  else if str_eqb word (txt "nan") then Some NaN
  else
    option_map (fun q => Fin (Qred (if neg then - q else q))%Q)
      (floatnumber body).

(** Rounding to the nearest integer, ties to even. *)
Definition round_half_even (q : Q) : Z :=
  let f := Qfloor q in
  match Qcompare (q - inject_Z f) (1 # 2) with
  | Lt => f
  | Gt => f + 1
  | Eq => if Z.even f then f else f + 1
  end.

Definition round (x : dec) (n : Z) : dec :=
  match x with
  | Fin q =>
      Fin (Qred (inject_Z (round_half_even (q * pow10 n)) * pow10 (- n)))
  | _ => x
  end.

(** The position of the decimal point: [10^(p-1) <= q < 10^p] for a
    positive [q]. *)
Fixpoint point_up (fuel : nat) (q : Q) (p : Z) : Z :=
  match fuel with
  | O => p
  | S f => if Qle_bool 1 q then point_up f (q * (1 # 10)) (p + 1) else p
  end.

Fixpoint point_down (fuel : nat) (q : Q) (p : Z) : Z :=
  match fuel with
  | O => p
  | S f => if Qle_bool 1 (q * 10) then p else point_down f (q * 10) (p - 1)
  end.

Definition point (q : Q) : Z :=
  if Qle_bool 1 q
  then point_up (S (Z.to_nat (Z.log2 (Qnum q)))) q 0
  else point_down (S (Z.to_nat (Z.log2 (Z.pos (Qden q))))) q 0.

Fixpoint drop_zeros (rev_digits : str) : str :=
  match rev_digits with
  | c :: s' => if Char.is_char "0" c then drop_zeros s' else rev_digits
  | [] => []
  end.

Definition nat_digits (n : Z) : str :=
  digits_of (S (Z.to_nat (Z.log2 n))) (Z.to_N n) [].

(** [repr] of a positive number: seventeen significant digits at most,
    fixed notation when the point lies in [-3 .. 16]. *)
Definition repr_pos (q : Q) : str :=
  let p := point q in
  let n := round_half_even (q * pow10 (17 - p)) in
  let '(n, p) := if n =? 10 ^ 17 then (10 ^ 16, p + 1) else (n, p) in
  let ds := rev (drop_zeros (rev (nat_digits n))) in
  let len := Z.of_nat (length ds) in
  if (-4 <? p) && (p <=? 16)
  then
    if p <=? 0 then txt "0." ++ repeat "0"%char (Z.to_nat (- p)) ++ ds
    else if len <=? p
    then ds ++ repeat "0"%char (Z.to_nat (p - len)) ++ txt ".0"
    else firstn (Z.to_nat p) ds ++ [dot] ++ skipn (Z.to_nat p) ds
  else
    let e := p - 1 in
    let mantissa :=
      match ds with
      | [d] => [d]
      | d :: rest => d :: dot :: rest
      | [] => []
      end in
    let e_digits := nat_digits (Z.abs e) in
    mantissa ++ txt "e" ++ (if e <? 0 then txt "-" else txt "+")
    ++ (if Z.abs e <? 10 then "0"%char :: e_digits else e_digits).

Definition to_str (x : dec) : str :=
  match x with
  | NaN => txt "nan"
  | Inf neg => if neg then txt "-inf" else txt "inf"
  | Fin q =>
      match Qcompare q 0 with
      | Eq => txt "0.0"
      | Gt => repr_pos q
      | Lt => "-"%char :: repr_pos (- q)
      end
  end.

Definition abs (x : dec) : dec :=
  match x with
  | Fin q => Fin (Qabs q)
  | Inf _ => Inf false
  | NaN => NaN
  end.

Definition ltb (x y : dec) : bool :=
  match x, y with
  | Fin a, Fin b => negb (Qle_bool b a)
  | Fin _, Inf neg => negb neg
  | Inf neg, Fin _ => neg
  | Inf a, Inf b => a && negb b
  | _, _ => false
  end.

Definition add (x y : dec) : dec :=
  match x, y with
  | Fin a, Fin b => Fin (Qred (a + b))
  | Inf a, Inf b => if Bool.eqb a b then Inf a else NaN
  | Inf a, Fin _ | Fin _, Inf a => Inf a
  | _, _ => NaN
  end.

Definition opp (x : dec) : dec :=
  match x with
  | Fin q => Fin (- q)
  | Inf neg => Inf (negb neg)
  | NaN => NaN
  end.

(** The square root to seventeen decimal places. *)
Definition sqrt17 (q : Q) : Q :=
  Qred (Qmake (Z.sqrt (Qfloor (q * pow10 34))) (Z.to_pos (10 ^ 17))).

(** [x ** y] for the two exponents of the program, 2 and 0.5; no other
    exponent is given a meaning. *)
Definition pow (x y : dec) : option dec :=
  match x, y with
  | Fin a, Fin b =>
      if Qeq_bool b 2 then Some (Fin (Qred (a * a)))
      else if Qeq_bool b (1 # 2)
      then Some (if Qle_bool 0 a then Fin (sqrt17 a) else NaN)
      else Some NaN
  | Inf _, Fin _ => Some (Inf false)
  | _, _ => Some NaN
  end.

#[export] Instance decimal : PyFloat := {|
  float := dec;
  float_of_str := of_str;
  float_of_int := fun n => Fin (inject_Z n);
  float_lit := lit;
  float_inf := Inf false;
  float_str := to_str;
  float_isnan := fun x => match x with NaN => true | _ => false end;
  float_truthy :=
    fun x => match x with Fin q => negb (Qeq_bool q 0) | _ => true end;
  float_abs := abs;
  float_ltb := ltb;
  float_round := round;
  float_add := add;
  float_sub := fun x y => add x (opp y);
  float_pow := pow
|}.

End Decimal.

(** ** The formatter of generated text ([format_llm_solution]) *)

(** [\.\s*\.] *)
Definition re_dots : Re.regex :=
  [Re.One (Char.is_char dot); Re.Star Char.is_space;
   Re.One (Char.is_char dot)].

(** The alternatives of the heading pattern, in its order. *)
Definition headings : list str :=
  [txt "PRIMARY SOLUTION"; txt "ALTERNATIVE SOLUTION";
   txt "ADDITIONAL RECOMMENDATION"].

(** The literal [phrase] at the start of [s] under [re.IGNORECASE]: a
    character matches a letter when their lower cases agree.  This is
    the whole of the rule for the texts modelled here, of code points
    below U+0100.  Above that range [re] lets three more characters
    match a letter of the headings: U+0130 and U+0131 match [I], and
    U+017F matches [S]; a text that holds one of them is outside this
    model. *)
Fixpoint literal_here (phrase s : str) : bool :=
  match phrase, s with
  | [], _ => true
  | x :: phrase', c :: s' =>
      (code (Char.lower c) =? code (Char.lower x))%N
      && literal_here phrase' s'
  | _ :: _, [] => false
  end.

(** The length of the heading [s] begins with, the first alternative
    that matches being taken. *)
Definition heading_here (s : str) : option nat :=
  option_map (@length ascii) (find (fun phrase => literal_here phrase s) headings).

(** [re.split] by the heading pattern, whose one group puts every
    heading found into the list: the pieces stand at the even places,
    the headings at the odd ones.  [cur] is the piece being read, last
    character first; [skip] counts the characters of a heading still to
    pass. *)
Fixpoint split_headings (skip : nat) (cur : str) (s : str) : list str :=
  match s with
  | [] => [rev cur]
  | c :: s' =>
      match skip with
      | S k => split_headings k cur s'
      | O =>
          match heading_here s with
          | Some (S n) =>
              rev cur :: firstn (S n) s :: split_headings n [] s'
          | _ => split_headings 0 (c :: cur) s'
          end
      end
  end.

(** [str.upper] on one code point: a..z and the lower-case letters of
    U+00E0..U+00FE (all but the division sign U+00F7) move down by 32,
    and the sharp s becomes two letters.  The upper cases of U+00B5 and
    U+00FF lie above U+00FF, outside the texts modelled here; these two
    are left as they are.  The program takes the upper case of headings
    only, which hold letters of the ASCII alphabet and spaces. *)
Definition upper_char (c : ascii) : str :=
  if in_range 97 122 c || (in_range 224 254 c && negb (code c =? 247)%N)
  then [ascii_of_N (code c - 32)]
  else if (code c =? 223)%N then txt "SS"
  else [c].

Definition upper (s : str) : str := flat_map upper_char s.

(** One turn of the loop over the headings: the new [current_number]
    and what is appended to [formatted_parts]. *)
Definition section_of (current_number : Z) (header content : str)
    : Z * list str :=
  if is_substring (txt "PRIMARY") header
  then
    (current_number,
     [str_of_int current_number ++ txt ". Primary Solution:" ++ [newline]
      ++ content ++ [newline]])
  else if is_substring (txt "ALTERNATIVE") header
  then
    let current_number := (current_number + 1)%Z in
    (current_number,
     [str_of_int current_number ++ txt ". Alternative Solution:"
      ++ [newline] ++ content ++ [newline]])
  else if is_substring (txt "ADDITIONAL") header
  then
    let current_number := (current_number + 1)%Z in
    (current_number,
     [str_of_int current_number ++ txt ". Additional Recommendation:"
      ++ [newline] ++ content ++ [newline]])
  else (current_number, []).

(** The loop [while i < len(parts)] from [i = 1] in steps of 2, on
    [parts[1:]]: a heading and the piece after it, if there is one. *)
Fixpoint format_sections (current_number : Z) (parts : list str)
    : list str :=
  match parts with
  | [] => []
  | [header] =>
      snd (section_of current_number (upper (strip header)) [])
  | header :: content :: parts' =>
      let '(current_number, formatted) :=
        section_of current_number (upper (strip header)) (strip content) in
      formatted ++ format_sections current_number parts'
  end.

(** The text the headings are looked for in. *)
Definition llm_text (raw_text : str) : str :=
  let text := Re.sub re_dots [dot] raw_text in
  strip (Re.sub re_spaces (txt " ") text).

Definition format_llm_solution (raw_text : str) : str :=
  if negb (truthy raw_text) || negb (truthy (strip raw_text))
  then txt "No solution generated."
  else
    let parts := split_headings 0 [] (llm_text raw_text) in
    strip (join [newline] (format_sections 1 (tl parts))).

(** ** Loading the tables ([load_model]) *)

Section Loader.

Context {FP : PyFloat}.

(** What [load_model] finds at [model_path]: no file; a file that cannot
    be read as a dictionary (opening, unpickling or [get] raises); or a
    dictionary, with what [model_data.get] answers for the two tables, a
    table or [None]. *)
Inductive model_file : Type :=
| Missing
| Damaged
| Pickled (complaint_table location_table : option DataFrame).

(** [load_model]: the tables of the handler afterwards.  The message
    printed after the two assignments takes [len] of both tables, which
    raises [TypeError] on [None]; the handler of exceptions then sets
    both tables to empty frames. *)
Definition load_model (file : model_file) : SimpleComplaintHandler :=
  match file with
  | Pickled (Some complaint_table) (Some location_table) =>
      {| complaint_data := Some complaint_table;
         location_data := Some location_table |}
  | _ =>
      {| complaint_data := Some empty_frame;
         location_data := Some empty_frame |}
  end.

End Loader.

(** ** The prompts ([prompts.py]) *)

Definition dquote : ascii := ascii_of_N 34.

(** The closing instructions of the three prompts. *)
Definition solution_requirements : str :=
  txt "
SOLUTION REQUIREMENTS:
Generate solutions in this EXACT paragraph format:

1. PRIMARY SOLUTION: [Start with most relevant solution] - Provide a small paragraph (2-3 sentences) explaining why this is the most likely solution based on the complaint details and signal conditions. Include specific technical reasoning and expected outcomes.

2. ALTERNATIVE SOLUTION 1: [Second priority solution] - Write a small paragraph explaining this alternative approach, why it might work if the primary solution fails, and what specific conditions make it relevant.

3. ALTERNATIVE SOLUTION 2: [Third priority solution] - Provide a brief paragraph describing this option, including when to consider it and what technical factors support this approach.

4. ADDITIONAL RECOMMENDATION: [Final step] - Write a short paragraph suggesting verification steps, monitoring, or when to escalate to technical support.

IMPORTANT FORMATTING RULES:
- DO NOT mention specific site names, tower codes, or location identifiers
- DO NOT include numerical values like exact signal measurements or coordinates
- Use general terms like "
  ++ [dquote]
  ++ txt "your area"
  ++ [dquote]
  ++ txt ", "
  ++ [dquote]
  ++ txt "nearby coverage"
  ++ [dquote]
  ++ txt ", "
  ++ [dquote]
  ++ txt "local network"
  ++ [dquote]
  ++ txt " instead of specific locations
- Focus on technical solutions without geographic specifics
- Each solution must be a small paragraph (2-3 meaningful sentences) with clear explanation
- Connect technical reasoning to specific complaint details and conditions
- Explain why each solution is prioritized in that order
- Include practical implementation steps in the explanations
- Use clear, customer-friendly language with technical accuracy
- Focus on Sri Lankan telecom network context and common issues

Generate only the numbered solution paragraphs without additional headings or text:".

Definition pattern_format : str :=
  txt "
Generate solutions in this EXACT paragraph format:

1. PATTERN-BASED PRIMARY SOLUTION: [Most effective historical solution] - Write a small paragraph explaining why this solution has worked for similar cases, referencing general patterns from historical data and how they match the current complaint.

2. PATTERN ALTERNATIVE: [Secondary approach from cases] - Provide a paragraph describing an alternative solution that worked in related scenarios, explaining the conditions where it was successful and why it's relevant here.

3. ADAPTED SOLUTION: [Modified historical approach] - Write a brief paragraph suggesting how to adapt successful historical solutions to the current specific conditions, mentioning any adjustments needed.

4. VERIFICATION & MONITORING: [Pattern validation] - Provide a short paragraph explaining how to verify the solution effectiveness and what patterns to monitor based on historical success metrics.

IMPORTANT: Do not mention specific site names, location codes, or numerical values. Use general terms like "
  ++ [dquote]
  ++ txt "your location"
  ++ [dquote]
  ++ txt ", "
  ++ [dquote]
  ++ txt "the network area"
  ++ [dquote]
  ++ txt ", or "
  ++ [dquote]
  ++ txt "coverage zone"
  ++ [dquote]
  ++ txt ". Generate only the numbered solution paragraphs:".

Definition new_complaint_format : str :=
  txt "
Generate solutions in this EXACT paragraph format:

1. SYMPTOM-BASED PRIMARY SOLUTION: [Most likely approach] - Write a small paragraph analyzing the technical symptoms and explaining why this solution addresses the root cause most effectively. Include specific technical reasoning based on the complaint details.

2. TECHNICAL ALTERNATIVE: [Secondary technical approach] - Provide a paragraph explaining an alternative technical solution, describing different potential root causes and why this approach might be necessary.

3. COMPREHENSIVE TROUBLESHOOTING: [Third approach] - Write a brief paragraph suggesting broader troubleshooting steps, explaining when to use this approach and what additional factors it addresses.

4. ESCALATION RECOMMENDATION: [Final guidance] - Provide a short paragraph explaining when and how to escalate, including what information to provide to technical support for further analysis.

CRITICAL: Avoid mentioning any specific site names, location codes, coordinates, or numerical measurements. Use general terms like "
  ++ [dquote]
  ++ txt "your location"
  ++ [dquote]
  ++ txt ", "
  ++ [dquote]
  ++ txt "network in this area"
  ++ [dquote]
  ++ txt ", or "
  ++ [dquote]
  ++ txt "local coverage"
  ++ [dquote]
  ++ txt ". Generate only the numbered solution paragraphs:".

Section Prompts.

Context {FP : PyFloat}.

(** [complaint_details.get(key, 'N/A')] inside an f-string. *)
Definition shown (complaint_details : dict pyval) (key : str) : str :=
  match dict_get complaint_details key with
  | Some v => str_of_value v
  | None => txt "N/A"
  end.

(** [case.get(col, 'N/A')] handed to [re.sub], which raises [TypeError]
    on what is not a text. *)
Definition case_text (case : row) (col : str) : result str :=
  match dict_get case col with
  | Some (CStr s) => Ok s
  | Some _ => Raise TypeError
  | None => Ok (txt "N/A")
  end.

(** [case.get(col, 'N/A')] inside an f-string. *)
Definition case_shown (case : row) (col : str) : str :=
  match dict_get case col with
  | Some c => str_of_cell c
  | None => txt "N/A"
  end.

(** The loop over the similar cases, numbered from [i]: what it adds to
    the prompt.  [signal_label] opens the third line of a case, the one
    place where the two loops differ. *)
Fixpoint case_lines (signal_label : str) (i : Z) (cases : list row)
    : result str :=
  match cases with
  | [] => Ok []
  | case :: cases' =>
      issue_desc <- case_text case (txt "Issue Description") ;;
      solution <- case_text case (txt "Solution") ;;
      let issue_desc := Re.sub re_site_code (txt "nearby site") issue_desc in
      let solution := Re.sub re_site_code (txt "the area") solution in
      rest <- case_lines signal_label (i + 1)%Z cases' ;;
      Ok (str_of_int i ++ txt ". Issue: " ++ issue_desc ++ [newline]
          ++ txt "   Solution: " ++ solution ++ [newline]
          ++ signal_label ++ case_shown case (txt "Signal Strength")
          ++ [newline; newline] ++ rest)
  end.

Definition create_complaint_solution_prompt (complaint_details : dict pyval)
    (similar_cases : option (list row)) (location_info : option context)
    : result str :=
  let prompt :=
    txt "You are a Sri Lankan telecom expert AI assistant. Generate prioritized technical solutions for this customer complaint:

COMPLAINT DETAILS:
- Issue Description: "
    ++ shown complaint_details (txt "complaint")
    ++ txt "
- Device/Settings: "
    ++ shown complaint_details (txt "device_type_settings_vpn_apn")
    ++ txt "
- Signal Strength: "
    ++ shown complaint_details (txt "signal_strength")
    ++ txt "
- Quality of Signal: "
    ++ shown complaint_details (txt "quality_of_signal")
    ++ txt "
- Site Status: "
    ++ shown complaint_details (txt "site_kpi_alarm")
    ++ txt "
- Past Data: "
    ++ shown complaint_details (txt "past_data_analysis")
    ++ txt "
- Coverage Type: "
    ++ shown complaint_details (txt "indoor_outdoor_coverage_issue")
    ++ txt "
- General Area: "
    ++ shown complaint_details (txt "location")
    ++ txt "

" in
  prompt <-
    match similar_cases with
    | Some ((_ :: _) as similar_cases) =>
        lines <- case_lines (txt "   Signal: ") 1 (slice_to 3 similar_cases) ;;
        Ok (prompt ++ [newline] ++ txt "SIMILAR PAST CASES:" ++ [newline]
            ++ lines)
    | _ => Ok prompt
    end ;;
  let prompt :=
    match location_info with
    | Some location_info =>
        prompt ++ [newline] ++ txt "AREA NETWORK DATA:" ++ [newline]
        ++ txt "- Coverage Quality: " ++ coverage_quality location_info
        ++ [newline]
        ++ txt "- Signal Distribution: " ++ signal_distribution location_info
        ++ [newline]
    | None => prompt
    end in
  Ok (prompt ++ solution_requirements).

Definition create_pattern_analysis_prompt (complaint_text : str)
    (historical_data : list row) : result str :=
  let clean_complaint :=
    Re.sub re_site_code (txt "the area") complaint_text in
  let prompt :=
    txt "Analyze complaint patterns and generate explained solutions:

CURRENT COMPLAINT: "
    ++ clean_complaint
    ++ txt "

HISTORICAL PATTERNS:
" in
  lines <-
    case_lines (txt "   Conditions: Signal=") 1
      (slice_to 5 historical_data) ;;
  Ok (prompt ++ lines ++ pattern_format).

Definition create_new_complaint_prompt (complaint_details : dict pyval)
    (location_context : option context) : result str :=
  clean_complaint <-
    match dict_get complaint_details (txt "complaint") with
    | Some (VStr s) => Ok (Re.sub re_site_code (txt "your area") s)
    | Some _ => Raise TypeError
    | None => Ok (Re.sub re_site_code (txt "your area") (txt "N/A"))
    end ;;
  let prompt :=
    txt "You are analyzing a new telecom complaint in Sri Lanka. Generate explained technical solutions:

NEW COMPLAINT ANALYSIS:
- Issue: "
    ++ clean_complaint
    ++ txt "
- Device/Settings: "
    ++ shown complaint_details (txt "device_type_settings_vpn_apn")
    ++ txt "
- Signal Strength: "
    ++ shown complaint_details (txt "signal_strength")
    ++ txt "
- Quality of Signal: "
    ++ shown complaint_details (txt "quality_of_signal")
    ++ txt "
- Site Status: "
    ++ shown complaint_details (txt "site_kpi_alarm")
    ++ txt "
- Past Data: "
    ++ shown complaint_details (txt "past_data_analysis")
    ++ txt "
- Coverage Type: "
    ++ shown complaint_details (txt "indoor_outdoor_coverage_issue")
    ++ txt "
- General Area: "
    ++ shown complaint_details (txt "location")
    ++ txt "
" in
  let prompt :=
    match location_context with
    | Some location_context =>
        prompt ++ [newline] ++ txt "AREA CONTEXT:" ++ [newline]
        ++ txt "- Network Coverage: " ++ coverage_quality location_context
        ++ [newline]
        ++ txt "- Signal Quality: " ++ signal_distribution location_context
        ++ [newline]
    | None => prompt
    end in
  Ok (prompt ++ new_complaint_format).

End Prompts.

(** ** A coarse interpretation of [math]

    The first terms of the series of the functions of [math], over the
    exact decimals.  It is exact at the origin and serves to run the
    nearest-site lookup on a sample. *)

Module DecimalMath.

Import Decimal.

Definition mul (x y : dec) : dec :=
  match x, y with
  | Fin a, Fin b => Fin (Qred (a * b))
  | _, _ => NaN
  end.

Definition div (x y : dec) : dec :=
  match x, y with
  | Fin a, Fin b => Fin (Qred (a / b))
  | _, _ => NaN
  end.

Definition leb (x y : dec) : bool :=
  match x, y with
  | Fin a, Fin b => Qle_bool a b
  | Fin _, Inf neg => negb neg
  | Inf neg, Fin _ => neg
  | Inf a, Inf b => a || negb b
  | _, _ => false
  end.

Definition radians (x : dec) : dec := mul x (Fin (355 # 20340)).

Definition sin (x : dec) : dec :=
  match x with
  | Fin q => Fin (Qred (q - q * q * q * (1 # 6)))
  | _ => NaN
  end.

Definition cos (x : dec) : dec :=
  match x with
  | Fin q => Fin (Qred (1 - q * q * (1 # 2)))
  | _ => NaN
  end.

Definition atan2 (y x : dec) : dec :=
  match y, x with
  | Fin a, Fin b => if Qle_bool b 0 then NaN else Fin (Qred (a / b))
  | _, _ => NaN
  end.

Definition sqrt (x : dec) : option dec :=
  match x with
  | Fin q => if Qle_bool 0 q then Some (Fin (sqrt17 q)) else None
  | Inf false => Some (Inf false)
  | Inf true => None
  | NaN => Some NaN
  end.

#[export] Instance series : PyMath decimal := {|
  math_radians := radians;
  math_sin := sin;
  math_cos := cos;
  math_atan2 := atan2;
  math_sqrt := sqrt;
  float_mul := mul;
  float_div := div;
  float_leb := leb
|}.

End DecimalMath.

(** * Vocabulary of the statements *)

Section Vocabulary.

Context {FP : PyFloat}.

(** A historical record that holds an issue description and nothing else. *)
Definition issue_row (issue : str) : row :=
  [(txt "Issue Description", CStr issue)].

(** The issue description of a record, as text. *)
Definition issue_of (r : row) : str :=
  str_of_cell (row_get r (txt "Issue Description") (CStr [])).

(** The score [find_similar_complaints] gives when [a] is the incoming
    complaint text and [b] the issue description of a record. *)
Definition score (a b : str) : Q := similarity a (issue_row b).

(** The decision procedure in the words of the specification: the label
    chosen from what the three resolvers returned. *)
Definition selected_strategy (exact_solution : option str)
    (location_context : option context) (similar_complaints : list row)
    : str :=
  match exact_solution with
  | Some _ => txt "exact_match"
  | None =>
      match similar_complaints with
      | [] => txt "new_complaint"
      | _ :: _ =>
          match location_context with
          | Some _ =>
              if (3 <=? length similar_complaints)%nat
              then txt "comprehensive_analysis"
              else txt "pattern_analysis"
          | None => txt "pattern_analysis"
          end
      end
  end.

Definition strategy_labels : list str :=
  [txt "exact_match"; txt "comprehensive_analysis"; txt "pattern_analysis";
   txt "new_complaint"].

(** The rows the similarity loop reads: none when the corpus is missing
    or empty. *)
Definition corpus_rows (self : SimpleComplaintHandler) : list row :=
  if no_data (complaint_data self) then []
  else rows_of (complaint_data self).

(** The items of a given score. *)
Definition has_score (q : Q) (item : scored) : bool :=
  Qeq_bool (item_similarity item) q.

(** A text of white space only (the empty text is one). *)
Definition blank (w : str) : Prop :=
  Forall (fun c => Char.is_space c = true) w.

(** Two texts that differ only in letter case and in the white space
    around them. *)
Definition same_text (s s' : str) : Prop :=
  exists w1 u w2 w1' u' w2',
    blank w1 /\ blank w2 /\ blank w1' /\ blank w2'
    /\ s = w1 ++ u ++ w2 /\ s' = w1' ++ u' ++ w2'
    /\ lower u = lower u'.

(** Two values that are equal, or are texts that differ in that way only. *)
Inductive same_value : pyval -> pyval -> Prop :=
| same_value_text (s s' : str) :
    same_text s s' -> same_value (VStr s) (VStr s')
| same_value_refl (v : pyval) : same_value v v.

(** The same keys in the same order, with values that are the same in
    that sense. *)
Definition same_entries (c c' : dict pyval) : Prop :=
  Forall2 (fun e e' => fst e = fst e' /\ same_value (snd e) (snd e')) c c'.

(** Two condition arguments that hold the same pairs: in any order of
    insertion, the texts up to case and surrounding white space. *)
Inductive same_conditions :
    option (dict pyval) -> option (dict pyval) -> Prop :=
| same_conditions_none : same_conditions None None
| same_conditions_some (c c1 c' : dict pyval) :
    Permutation c c1 -> same_entries c1 c' ->
    same_conditions (Some c) (Some c').

(** The keys of a dictionary are distinct. *)
Definition well_formed (conditions : option (dict pyval)) : Prop :=
  match conditions with
  | None => True
  | Some c => NoDup (map fst c)
  end.

(** The text part of the hashed text, as [create_complaint_signature]
    computes it: lower-cased and trimmed first, normalized afterwards.
    This is the order of the code, which C7 finds at fault; the order of
    the specification is [spec_normalized_text]. *)
Definition normalized_text (text : str) : str :=
  remove_specific_locations (strip (lower text)).

(** The [key:value] pairs a condition argument contributes, in the order
    of the allow-list. *)
Definition canonical_conditions (conditions : option (dict pyval))
    : list str :=
  match conditions with
  | None => []
  | Some c => condition_values all_conditions c
  end.

(** The allow-list in lexicographic order. *)
Definition sorted_conditions : list str :=
  [txt "device_type_settings_vpn_apn"; txt "indoor_outdoor_coverage_issue";
   txt "latitude"; txt "location"; txt "longitude";
   txt "past_data_analysis"; txt "quality_of_signal";
   txt "signal_strength"; txt "site_kpi_alarm"].

(** [a] comes before [b] by a character both of them have. *)
Fixpoint strictly_before (a b : str) : bool :=
  match a, b with
  | x :: a', y :: b' =>
      if (code x <? code y)%N then true
      else if (code y <? code x)%N then false
      else strictly_before a' b'
  | _, _ => false
  end.

(** The pair of one key, as a list of at most one item. *)
Definition pair_of (c : dict pyval) (key : str) : list str :=
  match condition_value key (get_value c key) with
  | Some entry => [entry]
  | None => []
  end.

(** The solution text [find_exact_match] returns for a record. *)
Definition solution_of (r : row) : str :=
  format_solution_paragraphs
    (str_of_cell (row_get r (txt "Solution")
                    (CStr (txt "No solution found"))))
    (txt "exact_match").

(** MD5 tells the two texts apart if they differ. *)
Definition no_collision (a b : str) : Prop :=
  MD5.hexdigest a = MD5.hexdigest b -> a = b.

(** The text hashed for a historical record. *)
Definition hist_signature_input (r : row) : str :=
  signature_input (hist_issue_desc_of r) (Some (hist_conditions_of r)).

(** The fields of a text: its pieces between the bars. *)
Fixpoint fields (s : str) : list str :=
  match s with
  | [] => [[]]
  | c :: s' =>
      if Char.is_char bar c then [] :: fields s'
      else match fields s' with
           | f :: fs => (c :: f) :: fs
           | [] => [[c]]
           end
  end.

(** A text without the bar. *)
Definition bar_free (s : str) : Prop :=
  Forall (fun c => Char.is_char bar c = false) s.

(** A record in whose hashed text the only bars are the separators. *)
Definition record_bar_free (r : row) : Prop :=
  bar_free (normalized_text (hist_issue_desc_of r))
  /\ Forall bar_free (canonical_conditions (Some (hist_conditions_of r))).

(** [bar_free] and [record_bar_free], decided. *)
Definition bar_freeb (s : str) : bool :=
  forallb (fun c => negb (Char.is_char bar c)) s.

Definition record_bar_freeb (r : row) : bool :=
  bar_freeb (normalized_text (hist_issue_desc_of r))
  && forallb bar_freeb (canonical_conditions (Some (hist_conditions_of r))).

End Vocabulary.

(** ** Runs of word characters and separators *)

Unset Implicit Arguments.

(** The character before the position reached after reading [w]. *)
Definition last_char (prev : option ascii) (w : str) : option ascii :=
  fold_left (fun _ c => Some c) w prev.

Definition all_word (w : str) : bool := forallb Char.is_word w.

Definition no_word (w : str) : bool :=
  forallb (fun c => negb (Char.is_word c)) w.

(** A text read as separators and maximal runs of word characters, each
    run satisfying [good]. *)
Inductive runs_ok (good : str -> bool) : str -> Prop :=
| runs_nil : runs_ok good []
| runs_sep (c : ascii) (s : str) :
    Char.is_word c = false -> runs_ok good s -> runs_ok good (c :: s)
| runs_run (w s : str) :
    w <> [] -> all_word w = true -> Re.word_after s = false ->
    good w = true -> runs_ok good s -> runs_ok good (w ++ s).

(** A class of word characters only, of other characters only. *)
Definition word_class (cls : ascii -> bool) : Prop :=
  forall c, cls c = true -> Char.is_word c = true.

Definition sep_class (cls : ascii -> bool) : Prop :=
  forall c, cls c = true -> Char.is_word c = false.

(** A pattern that begins [\b x+] with [x] a class of word characters:
    it can only match where a run of word characters begins. *)
Definition anchored (r : Re.regex) : Prop :=
  exists cls r', r = Re.WordB :: Re.Plus cls :: r' /\ word_class cls.

(** Some repetition of [cls] followed by a text that passes [test]. *)
Fixpoint star_test (cls : ascii -> bool) (test : str -> bool) (x : str)
    : bool :=
  test x
  || match x with
     | c :: x' => cls c && star_test cls test x'
     | [] => false
     end.

(** The whole of a run [x] of word characters matches the pattern [r],
    which ends in [\b]. *)
Fixpoint run_test (r : Re.regex) (x : str) : bool :=
  match r with
  | [Re.WordB] => match x with [] => true | _ => false end
  | Re.One cls :: r' =>
      match x with
      | c :: x' => cls c && run_test r' x'
      | [] => false
      end
  | Re.Plus cls :: r' =>
      match x with
      | c :: x' => cls c && star_test cls (run_test r') x'
      | [] => false
      end
  | Re.Star cls :: r' => star_test cls (run_test r') x
  | _ => false
  end.

(** Classes of word characters, then [\b] and the end of the pattern. *)
Fixpoint run_pattern (r : Re.regex) : Prop :=
  match r with
  | [Re.WordB] => True
  | Re.One cls :: r' | Re.Plus cls :: r' | Re.Star cls :: r' =>
      word_class cls /\ run_pattern r'
  | _ => False
  end.

(** The pattern begins with a class taken at least once. *)
Definition consuming (r : Re.regex) : bool :=
  match r with
  | Re.One _ :: _ | Re.Plus _ :: _ => true
  | _ => false
  end.

(** Classes of separator characters only. *)
Fixpoint sep_pattern (r : Re.regex) : Prop :=
  match r with
  | [] => True
  | Re.One cls :: r' | Re.Plus cls :: r' | Re.Star cls :: r' =>
      sep_class cls /\ sep_pattern r'
  | _ => False
  end.

(** The run of word characters a text begins with, and what follows
    it. *)
Fixpoint take_word (s : str) : str :=
  match s with
  | c :: s' => if Char.is_word c then c :: take_word s' else []
  | [] => []
  end.

Fixpoint drop_word (s : str) : str :=
  match s with
  | c :: s' => if Char.is_word c then drop_word s' else s
  | [] => []
  end.

(** [r] matches at the start of a run exactly when the run passes
    [test], and then it matches the whole run. *)
Definition whole_run (r : Re.regex) (test : str -> bool) : Prop :=
  forall prev w s,
    Re.word_before prev = false -> w <> [] -> all_word w = true ->
    Re.word_after s = false ->
    Re.match_here r prev (w ++ s)
    = if test w then Some (length w) else None.

(** The bodies of the patterns that match a whole run, after their
    leading [\b]. *)
Definition site_code_body : Re.regex :=
  [Re.Plus Char.is_upper_az; Re.Plus Char.is_digit;
   Re.Star Char.is_upper_az; Re.WordB].

Definition integer_body : Re.regex := [Re.Plus Char.is_digit; Re.WordB].

Definition dbm_body : Re.regex :=
  [Re.Plus Char.is_digit; Re.One (Char.is_char "d");
   Re.One (Char.is_char "B"); Re.One (Char.is_char "m"); Re.WordB].

(** A run that is a site code, a number, a signal level. *)
Definition site_code (w : str) : bool := run_test site_code_body w.
Definition digits_only (w : str) : bool := run_test integer_body w.
Definition signal_level (w : str) : bool := run_test dbm_body w.

(** A run that none of the five patterns for location tokens touches. *)
Definition plain (w : str) : bool :=
  negb (site_code w) && negb (digits_only w) && negb (signal_level w).

(** [starts p s]: the text [s] begins with a character of the class
    [p]. *)
Definition starts (p : ascii -> bool) (s : str) : bool :=
  match s with c :: _ => p c | [] => false end.

(** No character of the class [p] is directly followed by one of the
    class [q]. *)
Fixpoint no_adjacent (p q : ascii -> bool) (s : str) : bool :=
  match s with
  | [] => true
  | c :: s' => negb (p c && starts q s') && no_adjacent p q s'
  end.

(** Every white-space character is a single space standing alone. *)
Fixpoint single_spaced (s : str) : bool :=
  match s with
  | [] => true
  | c :: s' =>
      (negb (Char.is_space c)
       || (Char.is_char " "%char c && negb (starts Char.is_space s')))
      && single_spaced s'
  end.

Definition no_space_comma : str -> bool :=
  no_adjacent Char.is_space (Char.is_char comma).

Definition no_comma_comma : str -> bool :=
  no_adjacent (Char.is_char comma) (Char.is_char comma).

(** ** Vocabulary of the further properties *)

(** The normalized text in the words of the specification: the
    location tokens replaced first, the text lower-cased and trimmed
    afterwards. *)
Definition spec_normalized_text (text : str) : str :=
  strip (lower (remove_specific_locations text)).

(** The label of an answer of [generate_solution], or its exception. *)
Definition strategy_of (answer : result (str * str)) : result str :=
  match answer with
  | Ok (_, label) => Ok label
  | Raise e => Raise e
  end.

(** No maximal run of word characters of [s] is a site code, a bare
    number or a signal level. *)
Definition token_free (s : str) : Prop :=
  forall a w b : str,
    s = a ++ w ++ b -> w <> [] -> all_word w = true ->
    Re.word_before (last_char None a) = false ->
    Re.word_after b = false ->
    site_code w = false /\ digits_only w = false /\ signal_level w = false.

(** Some heading begins somewhere in [s]. *)
Fixpoint has_heading (s : str) : bool :=
  match s with
  | [] => false
  | _ :: s' =>
      match heading_here s with
      | Some _ => true
      | None => has_heading s'
      end
  end.

(** The headings of a list of parts: its odd places. *)
Fixpoint headings_of (parts : list str) : list str :=
  match parts with
  | _ :: header :: parts' => header :: headings_of parts'
  | _ => []
  end.

(** All the code points below U+0100. *)
Definition all_chars : list ascii := map ascii_of_nat (seq 0 256).

(** The upper case of every character that matches the letter [x]
    whatever the case is [x]. *)
Definition upper_restores (x : ascii) : bool :=
  forallb
    (fun c =>
       implb (code (Char.lower c) =? code (Char.lower x))%N
             (str_eqb (upper_char c) [x]))
    all_chars.

(** A text that is one of the headings up to the case of its letters. *)
Definition is_heading (h : str) : Prop :=
  exists phrase,
    In phrase headings /\ literal_here phrase h = true
    /\ length h = length phrase.

(** Pieces and headings in turn, a piece last. *)
Inductive parts_ok : list str -> Prop :=
| parts_last (piece : str) : parts_ok [piece]
| parts_more (piece h : str) (parts : list str) :
    is_heading h -> parts_ok parts -> parts_ok (piece :: h :: parts).

Section LoaderVocabulary.

Context {FP : PyFloat}.

(** The file does not give both tables. *)
Definition incomplete (file : model_file) : bool :=
  match file with
  | Pickled (Some _) (Some _) => false
  | _ => true
  end.

End LoaderVocabulary.

(** The columns the nearest-site lookup reads with [row[...]]. *)
Definition required_columns : list str :=
  [txt "location_corrected.lat"; txt "location_corrected.lon";
   txt "Site Name"; txt "RSRP Range 1 (>-105dBm) %";
   txt "RSRP Range 2 (-105~-110dBm) %";
   txt "RSRP Range 3 (-110~-115dBm) %"; txt "RSRP < -115dBm"].

Section LookupVocabulary.

Context {FP : PyFloat} {FM : PyMath FP}.

(** What the loop of the lookup keeps true of its state. *)
Definition lookup_invariant (rows : list row) (st : lookup_state) : Prop :=
  let '(_, nearest_site, nearby_sites) := st in
  (forall s, nearest_site = Some s ->
     exists r, In r rows /\ dict_get r (txt "Site Name") = Some (site_name s))
  /\ Forall
       (fun s => float_leb (distance_km s) (float_lit 20 (-1)) = true)
       nearby_sites.

End LookupVocabulary.

Set Implicit Arguments.

(** * Sample tables and complaints *)

Module Sample.

#[local] Existing Instance Decimal.decimal.

(** A location table whose coverage figure is written with a decimal
    comma. *)
Definition location_table : DataFrame :=
  {| columns := [txt "Site Name"; txt "RSRP >-105dBm (%)"];
     records := [[CStr (txt "Kandy Town"); CStr (txt "85,5%")]] |}.

Definition corpus : DataFrame :=
  {| columns :=
       [txt "Issue Description"; txt "Solution"; txt "Signal Strength"];
     records :=
       [[CStr (txt "Call drops near KDY123");
         CStr (txt "Check the serving cell and re-tune the antenna tilt.");
         CStr (txt "Weak")];
        [CStr (txt "Slow data speed in the evening");
         CStr (txt "Add carrier capacity on the congested sector.");
         CStr (txt "Good")];
        [CStr (txt "Frequent call drops at night");
         CStr (txt "Review the handover parameters of the cluster.");
         CStr (txt "Weak")]] |}.

Definition handler : SimpleComplaintHandler :=
  {| complaint_data := Some corpus; location_data := Some location_table |}.

(** A complaint that names its town. *)
Definition request : ComplaintRequest :=
  {| msisdn := txt "0771234567";
     complaint := txt "No coverage inside the house";
     device_type_settings_vpn_apn := None;
     signal_strength := Some (txt "Weak");
     quality_of_signal := None;
     site_kpi_alarm := None;
     past_data_analysis := None;
     indoor_outdoor_coverage_issue := Some (txt "Indoor");
     location := Some (txt "Kandy");
     longitude := None;
     latitude := None |}.

(** A complaint text with a site code, and the same text with the code
    already replaced. *)
Definition with_site_code : str := txt "Call drops near KDY123".
Definition without_site_code : str := txt "call drops near the area".

Definition first_record : row :=
  combine (columns corpus)
    [CStr (txt "Call drops near KDY123");
     CStr (txt "Check the serving cell and re-tune the antenna tilt.");
     CStr (txt "Weak")].

Definition second_record : row :=
  combine (columns corpus)
    [CStr (txt "Slow data speed in the evening");
     CStr (txt "Add carrier capacity on the congested sector.");
     CStr (txt "Good")].

Definition third_record : row :=
  combine (columns corpus)
    [CStr (txt "Frequent call drops at night");
     CStr (txt "Review the handover parameters of the cluster.");
     CStr (txt "Weak")].

(** Conditions that are those of the first record, and the same with the
    value written in capitals and followed by a blank. *)
Definition weak_signal : dict pyval :=
  [(txt "signal_strength", VStr (txt "weak"))].

Definition weak_signal_in_capitals : dict pyval :=
  [(txt "signal_strength", VStr (txt "WEAK "))].

(** A corpus whose only record has a bar in its issue description, and a
    complaint that names its town. *)
Definition corpus_with_bar : DataFrame :=
  {| columns :=
       [txt "Issue Description"; txt "Solution"; txt "Signal Strength"];
     records :=
       [[CStr (txt "No signal|location:kandy");
         CStr (txt "Reset the network settings of the handset.");
         CStr (txt "Weak")]] |}.

Definition handler_with_bar : SimpleComplaintHandler :=
  {| complaint_data := Some corpus_with_bar; location_data := None |}.

Definition record_with_bar : row :=
  combine (columns corpus_with_bar)
    [CStr (txt "No signal|location:kandy");
     CStr (txt "Reset the network settings of the handset.");
     CStr (txt "Weak")].

Definition conditions_with_location : dict pyval :=
  [(txt "signal_strength", VStr (txt "Weak"));
   (txt "location", VStr (txt "Kandy"))].

(** The same conditions written twice: in two orders of insertion, and
    with other capitals and margins. *)
Definition conditions_a : dict pyval :=
  [(txt "signal_strength", VStr (txt " Weak "));
   (txt "location", VStr (txt "Kandy"));
   (txt "longitude", VFloat (Decimal.lit 806337 (-4)))].

Definition conditions_a_reordered : dict pyval :=
  [(txt "location", VStr (txt "Kandy"));
   (txt "longitude", VFloat (Decimal.lit 806337 (-4)));
   (txt "signal_strength", VStr (txt " Weak "))].

Definition conditions_b : dict pyval :=
  [(txt "location", VStr (txt "KANDY"));
   (txt "longitude", VFloat (Decimal.lit 806337 (-4)));
   (txt "signal_strength", VStr (txt "weak"))].

End Sample.

(** More sample data: a table of sites with their places, and a
    place. *)
Module Sample2.

#[local] Existing Instance Decimal.decimal.
#[local] Existing Instance DecimalMath.series.

Definition sites : DataFrame :=
  {| columns :=
       [txt "Site Name"; txt "location_corrected.lat";
        txt "location_corrected.lon"; txt "RSRP Range 1 (>-105dBm) %";
        txt "RSRP Range 2 (-105~-110dBm) %";
        txt "RSRP Range 3 (-110~-115dBm) %"; txt "RSRP < -115dBm";
        txt "Lon"; txt "Lat"; txt "RSRP >-105dBm (%)"];
     records :=
       [[CStr (txt "Kandy Town"); CInt 7; CInt 80; CInt 60; CInt 25;
         CInt 10; CInt 5; CInt 80; CInt 7; CStr (txt "85%")]] |}.

Definition kandy_town : row :=
  combine (columns sites)
    [CStr (txt "Kandy Town"); CInt 7; CInt 80; CInt 60; CInt 25;
     CInt 10; CInt 5; CInt 80; CInt 7; CStr (txt "85%")].

Definition seven : float := Decimal.Fin (7 # 1).
Definition eighty : float := Decimal.Fin (80 # 1).

(** The conditions of the first record of the sample corpus, as a
    complaint gives them. *)
Definition signal_weak : dict pyval :=
  [(txt "signal_strength", VStr (txt "Weak"))].

(** A table of sites that gives the places only. *)
Definition bare_sites : DataFrame :=
  {| columns := [txt "location_corrected.lat"; txt "location_corrected.lon"];
     records := [[CInt 7; CInt 80]] |}.

(** A coordinate half a thousandth of a degree from zero. *)
Definition near_zero : float := Decimal.Fin (1 # 2000).

Definition kandy_town_info : site_info :=
  {| site_name := CStr (txt "Kandy Town");
     rsrp_range_1 := CInt 60; rsrp_range_2 := CInt 25;
     rsrp_range_3 := CInt 10; rsrp_below_115 := CInt 5;
     distance_km := Decimal.Fin 0 |}.

End Sample2.

(** * Properties *)

(** ** Texts and characters *)

Lemma str_eqb_eq (a b : str) : str_eqb a b = true <-> a = b.
Proof.
  unfold str_eqb. destruct (str_eq_dec a b); split; congruence.
Qed.

Lemma str_eqb_refl (a : str) : str_eqb a a = true.
Proof. now apply str_eqb_eq. Qed.

Lemma str_eqb_neq (a b : str) : str_eqb a b = false <-> a <> b.
Proof.
  unfold str_eqb. destruct (str_eq_dec a b); split; congruence.
Qed.

(** Facts about single characters are settled by running over the 256
    code points. *)
Ltac by_cases_on_char c :=
  destruct c as [[] [] [] [] [] [] [] []]; try reflexivity; try discriminate.

Lemma lower_keeps_space (c : ascii) :
  Char.is_space (Char.lower c) = Char.is_space c.
Proof. by_cases_on_char c. Qed.

Lemma lower_idempotent (c : ascii) :
  Char.lower (Char.lower c) = Char.lower c.
Proof. by_cases_on_char c. Qed.

Lemma is_char_eq (x c : ascii) : Char.is_char x c = true <-> c = x.
Proof.
  unfold Char.is_char, code. rewrite N.eqb_eq. split.
  - intro H. rewrite <- (ascii_N_embedding c), <- (ascii_N_embedding x).
    now rewrite H.
  - now intros ->.
Qed.

(** ** Empty tables (C8) *)

Section EmptyTables.

Context {FP : PyFloat} {FM : PyMath FP}.

Lemma no_rows_no_data (df : option DataFrame) :
  rows_of df = [] -> no_data df = true.
Proof.
  destruct df as [df|]; [|reflexivity]. simpl.
  unfold iterrows, df_empty. intro H. apply map_eq_nil in H. rewrite H.
  now destruct (columns df).
Qed.

(** C8.  With an empty complaint corpus [find_exact_match] answers [None]
    and [find_similar_complaints] the empty list; with an empty location
    table [get_location_context] answers [None] and the nearest-site
    lookup reports not-found.  Each answer is a normal return: none of
    the four raises. *)
Theorem empty_tables_degrade_to_no_result :
  (forall (self : SimpleComplaintHandler) complaint_text conditions top_n,
      rows_of (complaint_data self) = [] ->
      find_exact_match self complaint_text conditions = None
      /\ find_similar_complaints self complaint_text top_n = [])
  /\ (forall (self : SimpleComplaintHandler) complaint_details,
      rows_of (location_data self) = [] ->
      get_location_context self complaint_details = Ok None)
  /\ (forall (excel_data : DataFrame) lat lon,
      iterrows excel_data = [] ->
      get_location_data excel_data lat lon = Ok NotFound).
Proof.
  repeat split.
  - unfold find_exact_match. now rewrite (no_rows_no_data _ H).
  - unfold find_similar_complaints, ranked.
    now rewrite (no_rows_no_data _ H).
  - intros self details H. unfold get_location_context.
    now rewrite (no_rows_no_data _ H).
  - intros excel_data lat lon H. unfold get_location_data. now rewrite H.
Qed.

End EmptyTables.

(** ** The location resolver and an unreadable percentage (C5) *)

Section UnreadablePercentage.

Context {FP : PyFloat}.

(** A record whose percentage [float] cannot read makes [context_of]
    raise. *)
Lemma context_of_unreadable (r : row) :
  float_of_str
    (remove_char percent
       (str_of_cell (row_get r (txt "RSRP >-105dBm (%)") (CStr (txt "0")))))
  = None ->
  context_of r = Raise ValueError.
Proof. unfold context_of. now intros ->. Qed.

(** In name mode the first record whose site name matches decides; when
    its percentage is unreadable the whole call raises. *)
Lemma name_match_unreadable_raises (name : str) (r : row) (rows : list row) :
  (let site_name :=
     lower (str_of_cell (row_get r (txt "Site Name") (CStr []))) in
   is_substring (lower name) site_name
   || is_substring site_name (lower name) = true) ->
  context_of r = Raise ValueError ->
  scan_names name (r :: rows) = Raise ValueError.
Proof. simpl. now intros -> ->. Qed.

End UnreadablePercentage.

(** C5, on the code.  The record of Kandy Town holds the percentage
    ["85,5%"]; with the percent sign removed [float] rejects it, and
    [get_location_context] raises [ValueError] for a complaint from Kandy
    instead of classifying the coverage as poor. *)
Theorem location_context_raises_on_unreadable_percentage :
  get_location_context Sample.handler
    (complaint_details_of Sample.request) = Raise ValueError.
Proof. vm_compute. reflexivity. Qed.

(** ** Choosing the strategy (C1) *)

Section StrategySelection.

Context {FP : PyFloat}.
Variable call_ollama_llm : str -> str.
Variable create_complaint_solution_prompt :
  dict pyval -> list row -> context -> str.
Variable create_pattern_analysis_prompt : str -> list row -> str.
Variable create_new_complaint_prompt : dict pyval -> option context -> str.

Let generate :=
  generate_solution call_ollama_llm create_complaint_solution_prompt
    create_pattern_analysis_prompt create_new_complaint_prompt.

Lemma format_solution_paragraphs_truthy (solution_text solution_type : str) :
  truthy (format_solution_paragraphs solution_text solution_type) = true.
Proof.
  unfold format_solution_paragraphs.
  destruct (negb (truthy solution_text) || _); [reflexivity|].
  match goal with |- truthy (?a ++ _) = true => destruct a end; reflexivity.
Qed.

Lemma scan_exact_truthy (signature : str) (rows : list row) (s : str) :
  scan_exact signature rows = Some s -> truthy s = true.
Proof.
  induction rows as [|r rows IH]; simpl; [discriminate|].
  destruct (str_eqb signature (hist_signature_of r)); [|exact IH].
  intros [= <-]. apply format_solution_paragraphs_truthy.
Qed.

(** What [find_exact_match] returns is never the empty text, so the test
    [if exact_solution:] is the test for a match. *)
Lemma find_exact_match_truthy (self : SimpleComplaintHandler)
    (complaint_text : str) (conditions : option (dict pyval)) (s : str) :
  find_exact_match self complaint_text conditions = Some s ->
  truthy s = true.
Proof.
  unfold find_exact_match. destruct (no_data _); [discriminate|].
  apply scan_exact_truthy.
Qed.

(** An exact match ends the call: the label is [exact_match], and neither
    the location resolver nor the similarity retriever is consulted. *)
Lemma generate_solution_exact (self : SimpleComplaintHandler)
    (complaint_details : dict pyval) (s : str) :
  find_exact_match self (complaint_text_of complaint_details)
    (Some complaint_details) = Some s ->
  generate self complaint_details = Ok (s, txt "exact_match").
Proof.
  intro H. pose proof (find_exact_match_truthy _ _ _ H) as Ht.
  unfold generate, generate_solution. rewrite H.
  destruct s; [discriminate|reflexivity].
Qed.

(** Whenever the location resolver returns, the label is the one the
    decision procedure selects, and it is one of the four. *)
Lemma generate_solution_follows_procedure (self : SimpleComplaintHandler)
    (complaint_details : dict pyval) (location_context : option context) :
  get_location_context self complaint_details = Ok location_context ->
  exists solution label,
    generate self complaint_details = Ok (solution, label)
    /\ label =
         selected_strategy
           (find_exact_match self (complaint_text_of complaint_details)
              (Some complaint_details))
           location_context
           (find_similar_complaints self
              (complaint_text_of complaint_details) 5)
    /\ In label strategy_labels.
Proof.
  intro Hloc.
  destruct (find_exact_match self (complaint_text_of complaint_details)
              (Some complaint_details)) as [s|] eqn:Hexact.
  - exists s, (txt "exact_match").
    rewrite (generate_solution_exact _ _ Hexact). simpl. auto.
  - unfold generate, generate_solution, selected_strategy.
    rewrite Hexact, Hloc. cbn [bind].
    destruct (find_similar_complaints self _ 5) as [|r similar].
    + eexists _, _. split; [reflexivity|]. simpl. auto 6.
    + destruct location_context as [c|].
      * destruct (3 <=? length (r :: similar))%nat;
          eexists _, _; (split; [reflexivity|]); simpl; auto 6.
      * eexists _, _. split; [reflexivity|]. simpl. auto 6.
Qed.

(** Without an exact match, an exception of the location resolver is an
    exception of [generate_solution]: no label is produced. *)
Lemma generate_solution_propagates (self : SimpleComplaintHandler)
    (complaint_details : dict pyval) (e : exn) :
  find_exact_match self (complaint_text_of complaint_details)
    (Some complaint_details) = None ->
  get_location_context self complaint_details = Raise e ->
  generate self complaint_details = Raise e.
Proof.
  intros Hexact Hloc. unfold generate, generate_solution.
  now rewrite Hexact, Hloc.
Qed.

End StrategySelection.

(** C1, on the code.  The complaint from Kandy has no exact match in the
    corpus, the location resolver raises on the record of Kandy Town, and
    [generate_solution] raises with it: this complaint gets none of the
    four labels. *)
Theorem generate_solution_raises_without_label :
  forall call_ollama_llm create_complaint_solution_prompt
         create_pattern_analysis_prompt create_new_complaint_prompt,
    find_exact_match Sample.handler (complaint Sample.request)
      (Some (complaint_details_of Sample.request)) = None
    /\ generate_solution call_ollama_llm create_complaint_solution_prompt
         create_pattern_analysis_prompt create_new_complaint_prompt
         Sample.handler (complaint_details_of Sample.request)
       = Raise ValueError.
Proof.
  intros llm p1 p2 p3.
  assert (Hexact : find_exact_match Sample.handler (complaint Sample.request)
            (Some (complaint_details_of Sample.request)) = None)
    by (vm_compute; reflexivity).
  split; [exact Hexact|].
  apply generate_solution_propagates; [exact Hexact|].
  apply location_context_raises_on_unreadable_percentage.
Qed.

(** ** The similarity score (C6) *)

Lemma mem_In (x : str) (xs : list str) : mem x xs = true <-> In x xs.
Proof.
  unfold mem. rewrite existsb_exists. split.
  - intros (y & Hy & Heq). apply str_eqb_eq in Heq. now subst.
  - intro H. exists x. split; [exact H|apply str_eqb_refl].
Qed.

Lemma In_intersection (a b : list str) (x : str) :
  In x (intersection a b) <-> In x a /\ In x b.
Proof.
  unfold intersection. rewrite filter_In. now rewrite mem_In.
Qed.

Lemma NoDup_intersection (a b : list str) :
  NoDup a -> NoDup (intersection a b).
Proof. apply NoDup_filter. Qed.

(** [len(a & b) == len(b & a)] *)
Lemma intersection_length_sym (a b : list str) :
  NoDup a -> NoDup b ->
  length (intersection a b) = length (intersection b a).
Proof.
  intros Ha Hb. apply Permutation_length, NoDup_Permutation.
  - now apply NoDup_intersection.
  - now apply NoDup_intersection.
  - intro x. rewrite !In_intersection. tauto.
Qed.

Lemma union_length (a b : list str) :
  length (union a b) + length (intersection b a) = length a + length b.
Proof.
  unfold union, intersection. rewrite length_app.
  pose proof (filter_length (fun w => mem w a) b). lia.
Qed.

(** [len(a | b) == len(b | a)] *)
Lemma union_length_sym (a b : list str) :
  NoDup a -> NoDup b -> length (union a b) = length (union b a).
Proof.
  intros Ha Hb.
  pose proof (union_length a b). pose proof (union_length b a).
  pose proof (intersection_length_sym Ha Hb). lia.
Qed.

(** The quotient itself is symmetric in its two sets. *)
Lemma jaccard_sym (a b : list str) :
  NoDup a -> NoDup b -> jaccard a b = jaccard b a.
Proof.
  intros Ha Hb. unfold jaccard.
  now rewrite (intersection_length_sym Ha Hb), (union_length_sym Ha Hb).
Qed.

Lemma intersection_self (a : list str) : intersection a a = a.
Proof.
  unfold intersection. apply forallb_filter_id, forallb_forall.
  intros x Hx. now apply mem_In.
Qed.

Lemma filter_none {A : Type} (f : A -> bool) (l : list A) :
  (forall x, In x l -> f x = false) -> filter f l = [].
Proof.
  induction l as [|x l IH]; [reflexivity|]. intro H. simpl.
  rewrite (H x) by now left. apply IH. intros y Hy. apply H. now right.
Qed.

Lemma union_self (a : list str) : union a a = a.
Proof.
  unfold union. rewrite filter_none; [apply app_nil_r|].
  intros x Hx. apply mem_In in Hx. now rewrite Hx.
Qed.

(** A non-empty set scores 1 against itself. *)
Lemma jaccard_self (a : list str) : a <> [] -> (jaccard a a == 1)%Q.
Proof.
  intro Hne. unfold jaccard. rewrite intersection_self, union_self.
  destruct a as [|x a]; [congruence|].
  change (0 <? length (x :: a))%nat with true. cbv beta iota.
  unfold Qeq. cbn [Qnum Qden]. simpl length. lia.
Qed.

(** The incoming text is lower-cased before the site codes are replaced,
    the record's issue description after: on the incoming side the
    pattern for site codes, which wants capitals, finds nothing. *)
Lemma words_of_the_two_roles (FP : PyFloat) :
  complaint_words_of Sample.with_site_code
  = [txt "call"; txt "drops"; txt "near"; txt "kdy123"]
  /\ issue_words_of (issue_row Sample.with_site_code)
     = [txt "call"; txt "drops"; txt "near"; txt "the"; txt "area"].
Proof. split; vm_compute; reflexivity. Qed.

(** C6, on the code.  With a complaint text that holds a site code the
    score is not symmetric in the two roles (3/6 one way, 5/5 the other),
    and the score of the text against itself is 3/6, not 1.  The defect is
    the one of C7: lower-casing before normalizing on the incoming side. *)
Theorem score_is_not_symmetric_in_roles (FP : PyFloat) :
  score Sample.with_site_code Sample.without_site_code = (3 # 6)%Q
  /\ score Sample.without_site_code Sample.with_site_code = (5 # 5)%Q
  /\ score Sample.with_site_code Sample.with_site_code = (3 # 6)%Q.
Proof. repeat split; vm_compute; reflexivity. Qed.

(** ** The text that is hashed (C7) *)

(** Without conditions the hashed text is the complaint text lower-cased
    and trimmed first, normalized afterwards, followed by the separator. *)
Lemma signature_input_without_conditions (FP : PyFloat) (text : str) :
  signature_input text None
  = remove_specific_locations (strip (lower text)) ++ [bar].
Proof. reflexivity. Qed.

(** With conditions, the sorted pairs joined by the bar follow. *)
Lemma signature_input_with_conditions (FP : PyFloat) (text : str)
    (entry : str * pyval) (conditions : dict pyval) :
  signature_input text (Some (entry :: conditions))
  = remove_specific_locations (strip (lower text)) ++ [bar]
    ++ join [bar]
         (sorted (condition_values all_conditions (entry :: conditions))).
Proof. reflexivity. Qed.

(** C7, on the code.  For a text with a site code the digest is taken
    over the text with the code still in it: lower-casing comes first and
    leaves nothing for the site-code pattern to match.  Normalizing first
    and lower-casing afterwards, as the claim has it, gives another text
    and another digest. *)
Theorem signature_lowers_before_normalizing (FP : PyFloat) :
  signature_input Sample.with_site_code None = txt "call drops near kdy123|"
  /\ strip (lower (remove_specific_locations Sample.with_site_code))
     ++ [bar] = txt "call drops near the area|"
  /\ create_complaint_signature Sample.with_site_code None
     = txt "4a46b1584e3c0dba5ecb830d22f1453b"
  /\ MD5.hexdigest (txt "call drops near the area|")
     = txt "881d81e5c746b7b72a94a777c20ee068".
Proof. repeat split; vm_compute; reflexivity. Qed.

(** ** Stable sorting *)


Section SortFacts.

Variable A : Type.
Variable before : A -> A -> bool.

Let R (x y : A) : Prop := before x y = true.

Lemma insert_Permutation (x : A) (l : list A) :
  Permutation (insert before x l) (x :: l).
Proof.
  induction l as [|y l IH]; simpl; [reflexivity|].
  destruct (before x y); [reflexivity|].
  rewrite IH. apply perm_swap.
Qed.

Lemma stable_sort_Permutation (l : list A) :
  Permutation (stable_sort before l) l.
Proof.
  induction l as [|x l IH]; simpl; [reflexivity|].
  rewrite insert_Permutation. now constructor.
Qed.

Lemma stable_sort_length (l : list A) :
  length (stable_sort before l) = length l.
Proof. apply Permutation_length, stable_sort_Permutation. Qed.

Lemma stable_sort_In (l : list A) (x : A) :
  In x (stable_sort before l) <-> In x l.
Proof.
  split; apply Permutation_in;
    [|symmetry]; apply stable_sort_Permutation.
Qed.

(** Stability: the items of one class, any two of which may stand in
    either order, keep their places relative to one another. *)
Lemma insert_filter (p : A -> bool) (x : A) (l : list A) :
  (forall y, p x = true -> p y = true -> before x y = true) ->
  filter p (insert before x l) = filter p (x :: l).
Proof.
  intro Hclass. induction l as [|y l IH]; [reflexivity|].
  cbn [insert]. destruct (before x y) eqn:Hxy; [reflexivity|].
  cbn [filter] in *. rewrite IH.
  destruct (p x) eqn:Hpx; [|reflexivity].
  destruct (p y) eqn:Hpy; [|reflexivity].
  specialize (Hclass y eq_refl Hpy). congruence.
Qed.

Lemma stable_sort_filter (p : A -> bool) (l : list A) :
  (forall x y, p x = true -> p y = true -> before x y = true) ->
  filter p (stable_sort before l) = filter p l.
Proof.
  intro Hclass. induction l as [|x l IH]; [reflexivity|].
  cbn [stable_sort fold_right].
  rewrite insert_filter by (intro y; apply Hclass).
  cbn [filter]. fold (stable_sort before l). now rewrite IH.
Qed.

Hypothesis before_total : forall x y, before x y = true \/ before y x = true.
Hypothesis before_trans :
  forall x y z, before x y = true -> before y z = true -> before x z = true.

Lemma insert_sorted (x : A) (l : list A) :
  StronglySorted R l -> StronglySorted R (insert before x l).
Proof.
  induction 1 as [|y l Hl IH Hy]; simpl.
  - repeat constructor.
  - destruct (before x y) eqn:Hxy.
    + constructor; [now constructor|]. constructor; [exact Hxy|].
      eapply Forall_impl; [|exact Hy]. intros z Hz.
      now apply before_trans with y.
    + constructor; [exact IH|].
      assert (Hyx : R y x) by (destruct (before_total x y); congruence).
      eapply Permutation_Forall;
        [symmetry; apply insert_Permutation|]. now constructor.
Qed.

Lemma stable_sort_sorted (l : list A) :
  StronglySorted R (stable_sort before l).
Proof.
  induction l as [|x l IH]; simpl; [constructor|].
  now apply insert_sorted.
Qed.

End SortFacts.

Lemma In_firstn {A : Type} (n : nat) (l : list A) (x : A) :
  In x (firstn n l) -> In x l.
Proof.
  intro H. rewrite <- (firstn_skipn n l). apply in_or_app. now left.
Qed.

Lemma firstn_sorted {A : Type} (R : A -> A -> Prop) (n : nat) (l : list A) :
  StronglySorted R l -> StronglySorted R (firstn n l).
Proof.
  intro H. revert n. induction H as [|x l Hl IH Hx]; intro n.
  - rewrite firstn_nil. constructor.
  - destruct n; simpl; constructor; [apply IH|].
    apply Forall_forall. intros y Hy. apply In_firstn in Hy.
    revert y Hy. now apply Forall_forall.
Qed.

(** What a slice from the start keeps of a class is the front of what the
    whole list holds of it. *)
Lemma filter_firstn_prefix {A : Type} (p : A -> bool) (n : nat)
    (l : list A) :
  exists rest, filter p l = filter p (firstn n l) ++ rest.
Proof.
  exists (filter p (skipn n l)).
  now rewrite <- filter_app, firstn_skipn.
Qed.

Lemma slice_to_nonneg {A : Type} (n : Z) (l : list A) :
  (0 <= n)%Z -> slice_to n l = firstn (Z.to_nat n) l.
Proof.
  intro H. unfold slice_to.
  destruct (0 <=? n)%Z eqn:E; [reflexivity|]. apply Z.leb_gt in E. lia.
Qed.

(** ** Similar complaints (C4) *)

Section SimilarComplaints.

Context {FP : PyFloat}.

Lemma Qgtb_lt (x y : Q) : Qgtb x y = true <-> (y < x)%Q.
Proof.
  unfold Qgtb. rewrite negb_true_iff, <- not_true_iff_false, Qle_bool_iff.
  split; [apply Qnot_le_lt|apply Qlt_not_le].
Qed.

Lemma slice_to_nil {A : Type} (n : Z) : slice_to n (@nil A) = [].
Proof. unfold slice_to. destruct (0 <=? n)%Z; apply firstn_nil. Qed.

Lemma ranked_eq (self : SimpleComplaintHandler) (text : str) (top_n : Z) :
  ranked self text top_n
  = slice_to top_n
      (sort_by_similarity (similarities_of text (corpus_rows self))).
Proof.
  unfold ranked, corpus_rows. destruct (no_data _); [|reflexivity].
  symmetry. apply slice_to_nil.
Qed.

Lemma In_similarities_of (text : str) (rows : list row) (item : scored) :
  In item (similarities_of text rows) <->
  exists r, In r rows /\ (1 # 10 < similarity text r)%Q
            /\ item = score_row text r.
Proof.
  unfold similarities_of. rewrite in_map_iff. split.
  - intros (r & <- & Hr). apply filter_In in Hr. destruct Hr as [Hr Hq].
    exists r. rewrite <- Qgtb_lt. auto.
  - intros (r & Hr & Hq & ->). exists r. split; [reflexivity|].
    apply filter_In. rewrite Qgtb_lt. auto.
Qed.

Lemma by_similarity_total (x y : scored) :
  Qle_bool (item_similarity y) (item_similarity x) = true
  \/ Qle_bool (item_similarity x) (item_similarity y) = true.
Proof.
  rewrite !Qle_bool_iff.
  destruct (Qlt_le_dec (item_similarity x) (item_similarity y));
    [right; now apply Qlt_le_weak|now left].
Qed.

Lemma by_similarity_trans (x y z : scored) :
  Qle_bool (item_similarity y) (item_similarity x) = true ->
  Qle_bool (item_similarity z) (item_similarity y) = true ->
  Qle_bool (item_similarity z) (item_similarity x) = true.
Proof.
  rewrite !Qle_bool_iff. intros H1 H2. now apply Qle_trans with (2 := H1).
Qed.

Lemma StronglySorted_weaken {A : Type} (R R' : A -> A -> Prop)
    (l : list A) :
  (forall x y, R x y -> R' x y) ->
  StronglySorted R l -> StronglySorted R' l.
Proof.
  intros HR. induction 1 as [|x l Hl IH Hx]; constructor; [exact IH|].
  eapply Forall_impl; [|exact Hx]. intros y. apply HR.
Qed.

Lemma sort_by_similarity_sorted (items : list scored) :
  StronglySorted
    (fun x y => (item_similarity y <= item_similarity x)%Q)
    (sort_by_similarity items).
Proof.
  eapply StronglySorted_weaken;
    [|apply stable_sort_sorted;
       [apply by_similarity_total|apply by_similarity_trans]].
  intros x y H. now apply Qle_bool_iff.
Qed.

(** Items of equal score keep the order of the corpus. *)
Lemma sort_by_similarity_stable (q : Q) (items : list scored) :
  filter (has_score q) (sort_by_similarity items)
  = filter (has_score q) items.
Proof.
  apply stable_sort_filter. unfold has_score. intros x y Hx Hy.
  apply Qeq_bool_iff in Hx, Hy. apply Qle_bool_iff.
  rewrite Hx, Hy. apply Qle_refl.
Qed.

(** C4.  [top_n] is a count of records, so it is not negative (the one
    caller passes the default, 5).  [find_similar_complaints]
    returns the data of the ranked items; they are at most [top_n]; each
    is a record of the corpus whose score is above 0.1; the scores do not
    increase along the list; the items of any one score are the first of
    that score in the corpus, in the order of the corpus; and when no
    record scores above 0.1 (an empty corpus is one such case) the list
    is empty. *)
Theorem find_similar_complaints_ranked (self : SimpleComplaintHandler)
    (complaint_text : str) (top_n : Z) :
  (0 <= top_n)%Z ->
  let items := ranked self complaint_text top_n in
  let rows := corpus_rows self in
  find_similar_complaints self complaint_text top_n = map item_data items
  /\ (Z.of_nat (length (find_similar_complaints self complaint_text top_n))
      <= top_n)%Z
  /\ (forall item, In item items ->
        (1 # 10 < item_similarity item)%Q
        /\ exists r, In r rows /\ item = score_row complaint_text r)
  /\ StronglySorted
       (fun x y => (item_similarity y <= item_similarity x)%Q) items
  /\ (forall q, exists rest,
        filter (has_score q) (similarities_of complaint_text rows)
        = filter (has_score q) items ++ rest)
  /\ ((forall r, In r rows -> ~ (1 # 10 < similarity complaint_text r)%Q) ->
      find_similar_complaints self complaint_text top_n = []).
Proof.
  intros Hn items rows.
  assert (Hitems : items
            = firstn (Z.to_nat top_n)
                (sort_by_similarity (similarities_of complaint_text rows))).
  { unfold items. rewrite ranked_eq. now apply slice_to_nonneg. }
  assert (Hin : forall item, In item items ->
            In item (similarities_of complaint_text rows)).
  { intros item H. rewrite Hitems in H. apply In_firstn in H.
    unfold sort_by_similarity in H. now apply stable_sort_In in H. }
  split; [reflexivity|]. split; [|split; [|split; [|split]]].
  - unfold find_similar_complaints. fold items.
    rewrite length_map, Hitems, length_firstn. lia.
  - intros item H. apply Hin, In_similarities_of in H.
    destruct H as (r & Hr & Hq & ->). split; [exact Hq|]. now exists r.
  - rewrite Hitems. apply firstn_sorted, sort_by_similarity_sorted.
  - intro q. rewrite Hitems.
    rewrite <- (sort_by_similarity_stable q (similarities_of _ rows)).
    apply filter_firstn_prefix.
  - intro Hnone. unfold find_similar_complaints. fold items.
    destruct items as [|item items']; [reflexivity|].
    assert (H : In item (item :: items')) by now left.
    apply Hin, In_similarities_of in H.
    destruct H as (r & Hr & Hq & _). now elim (Hnone r Hr).
Qed.

End SimilarComplaints.

(** A run on the sample corpus, with the default count. *)
Lemma find_similar_complaints_ranked_witness :
  (0 <= 5)%Z
  /\ map issue_of
       (find_similar_complaints Sample.handler
          (txt "call drops near my home") 5)
     = [txt "Call drops near the area";
        txt "Frequent call drops at night"]
  /\ (Z.of_nat (length (find_similar_complaints Sample.handler
                          (txt "call drops near my home") 5)) <= 5)%Z.
Proof.
  split; [lia|]. split; [vm_compute; reflexivity|].
  apply (@find_similar_complaints_ranked _ Sample.handler
           (txt "call drops near my home") 5). lia.
Defined.

(** ** Trimming and lower-casing *)

Lemma lstrip_blank_app (w s : str) : blank w -> lstrip (w ++ s) = lstrip s.
Proof.
  induction 1 as [|c w Hc _ IH]; [reflexivity|]. simpl. now rewrite Hc.
Qed.

Lemma lstrip_app_not_blank (u w : str) :
  lstrip u <> [] -> lstrip (u ++ w) = lstrip u ++ w.
Proof.
  induction u as [|c u IH]; simpl; [congruence|].
  destruct (Char.is_space c); [exact IH|reflexivity].
Qed.

Lemma lstrip_all_blank (u : str) : lstrip u = [] -> blank u.
Proof.
  induction u as [|c u IH]; simpl; [intros _; constructor|].
  destruct (Char.is_space c) eqn:Hc; [|discriminate].
  intro H. constructor; [exact Hc|exact (IH H)].
Qed.

Lemma blank_rev (w : str) : blank w -> blank (rev w).
Proof. apply Forall_rev. Qed.

Lemma lstrip_blank (w : str) : blank w -> lstrip w = [].
Proof.
  intro H. rewrite <- (app_nil_r w). now rewrite lstrip_blank_app.
Qed.

Lemma rstrip_app_blank (s w : str) : blank w -> rstrip (s ++ w) = rstrip s.
Proof.
  intro H. unfold rstrip. rewrite rev_app_distr.
  now rewrite lstrip_blank_app by now apply blank_rev.
Qed.

(** White space around a text does not survive [strip]. *)
Lemma strip_margins (w1 u w2 : str) :
  blank w1 -> blank w2 -> strip (w1 ++ u ++ w2) = strip u.
Proof.
  intros H1 H2. unfold strip. rewrite lstrip_blank_app by assumption.
  destruct (lstrip u) as [|c v] eqn:Hu.
  - rewrite lstrip_blank; [reflexivity|].
    apply Forall_app. split; [now apply lstrip_all_blank|assumption].
  - rewrite lstrip_app_not_blank by congruence. rewrite Hu.
    now apply rstrip_app_blank.
Qed.

Lemma lower_app (a b : str) : lower (a ++ b) = lower a ++ lower b.
Proof. apply map_app. Qed.

Lemma lower_blank (w : str) : blank w -> blank (lower w).
Proof.
  unfold blank, lower. rewrite Forall_map. apply Forall_impl.
  intros c. now rewrite lower_keeps_space.
Qed.

Lemma lstrip_lower (s : str) : lstrip (lower s) = lower (lstrip s).
Proof.
  induction s as [|c s IH]; [reflexivity|]. simpl.
  rewrite lower_keeps_space. now destruct (Char.is_space c).
Qed.

Lemma lower_rev (s : str) : lower (rev s) = rev (lower s).
Proof. apply map_rev. Qed.

Lemma rstrip_lower (s : str) : rstrip (lower s) = lower (rstrip s).
Proof.
  unfold rstrip. now rewrite <- lower_rev, lstrip_lower, lower_rev.
Qed.

(** Trimming and lower-casing commute. *)
Lemma strip_lower (s : str) : strip (lower s) = lower (strip s).
Proof. unfold strip. now rewrite lstrip_lower, rstrip_lower. Qed.

Lemma same_text_strip_lower (s s' : str) :
  same_text s s' -> strip (lower s) = strip (lower s').
Proof.
  intros (w1 & u & w2 & w1' & u' & w2' & H1 & H2 & H1' & H2' & -> & -> & Hu).
  rewrite !lower_app, !strip_margins by now apply lower_blank.
  now rewrite Hu.
Qed.

(** ** Dictionaries *)

Section Dictionaries.

Variable V : Type.

Lemma dict_get_None (d : dict V) (key : str) :
  dict_get d key = None <-> ~ In key (map fst d).
Proof.
  induction d as [|[k v] d IH]; simpl; [tauto|].
  destruct (str_eqb k key) eqn:E.
  - apply str_eqb_eq in E. split; [discriminate|]. intros H. elim H. auto.
  - apply str_eqb_neq in E. rewrite IH. tauto.
Qed.

Lemma dict_get_Some (d : dict V) (key : str) (v : V) :
  NoDup (map fst d) -> dict_get d key = Some v <-> In (key, v) d.
Proof.
  induction d as [|[k w] d IH]; simpl; intro Hnd.
  - split; [discriminate|tauto].
  - inversion Hnd as [|? ? Hk Hnd']; subst.
    destruct (str_eqb k key) eqn:E.
    + apply str_eqb_eq in E. subst k. split.
      * intros [= ->]. now left.
      * intros [[= ->]|Hin]; [reflexivity|].
        elim Hk. now apply (in_map fst) in Hin.
    + apply str_eqb_neq in E. rewrite (IH Hnd'). split; [auto|].
      intros [[= -> ->]|Hin]; [congruence|exact Hin].
Qed.

(** A lookup does not see the order of insertion. *)
Lemma dict_get_Permutation (d d' : dict V) (key : str) :
  NoDup (map fst d) -> Permutation d d' ->
  dict_get d key = dict_get d' key.
Proof.
  intros Hnd Hp.
  assert (Hnd' : NoDup (map fst d'))
    by (eapply Permutation_NoDup; [apply Permutation_map, Hp|exact Hnd]).
  destruct (dict_get d key) as [v|] eqn:E.
  - symmetry. apply dict_get_Some; [exact Hnd'|].
    eapply Permutation_in; [exact Hp|]. now apply dict_get_Some.
  - symmetry. apply dict_get_None. apply dict_get_None in E.
    intro H. apply E. eapply Permutation_in; [|exact H].
    symmetry. now apply Permutation_map.
Qed.

End Dictionaries.

(** ** Invariance of the signature (C3) *)

Section SignatureInvariance.

Context {FP : PyFloat}.

Lemma same_value_get (c c' : dict pyval) (key : str) :
  same_entries c c' -> same_value (get_value c key) (get_value c' key).
Proof.
  unfold get_value.
  induction 1 as [|[k v] [k' v'] c c' [Hk Hv] _ IH]; simpl in *.
  - constructor.
  - subst k'. destruct (str_eqb k key); [exact Hv|exact IH].
Qed.

Lemma condition_value_same (key : str) (v v' : pyval) :
  same_value v v' -> condition_value key v = condition_value key v'.
Proof.
  destruct 1 as [s s' Hs|v]; [|reflexivity].
  apply same_text_strip_lower in Hs. unfold condition_value.
  cbn [str_of_value as_number].
  rewrite <- !strip_lower, Hs.
  now destruct (mem key [txt "longitude"; txt "latitude"]).
Qed.

Lemma condition_values_ext (keys : list str) (c c' : dict pyval) :
  (forall key, condition_value key (get_value c key)
               = condition_value key (get_value c' key)) ->
  condition_values keys c = condition_values keys c'.
Proof.
  intro H. induction keys as [|key keys IH]; [reflexivity|].
  simpl. now rewrite H, IH.
Qed.

Lemma signature_input_same (text text' : str)
    (conditions conditions' : option (dict pyval)) :
  same_text text text' -> well_formed conditions ->
  same_conditions conditions conditions' ->
  signature_input text conditions = signature_input text' conditions'.
Proof.
  intros Ht Hwf Hc. unfold signature_input.
  rewrite (same_text_strip_lower Ht). f_equal. f_equal.
  destruct Hc as [|c c1 c' Hp He]; [reflexivity|].
  assert (Hvals : condition_values all_conditions c
                  = condition_values all_conditions c').
  { apply condition_values_ext. intro key.
    rewrite <- (condition_value_same key (same_value_get key He)).
    unfold get_value. now rewrite (dict_get_Permutation key Hwf Hp). }
  assert (Hlen : length c = length c').
  { rewrite (Permutation_length Hp). apply (Forall2_length He). }
  destruct c, c'; try discriminate; [reflexivity|]. now rewrite Hvals.
Qed.

(** C3.  The digest does not depend on the order in which the conditions
    were inserted, nor on the letter case of, or the white space around,
    the complaint text and the text-valued conditions. *)
Theorem signature_invariant (text text' : str)
    (conditions conditions' : option (dict pyval)) :
  same_text text text' -> well_formed conditions ->
  same_conditions conditions conditions' ->
  create_complaint_signature text conditions
  = create_complaint_signature text' conditions'.
Proof.
  intros. unfold create_complaint_signature.
  now rewrite (signature_input_same (text' := text')
                 (conditions' := conditions')).
Qed.

End SignatureInvariance.

Lemma same_text_intro (w1 u w2 w1' u' w2' : str) :
  forallb Char.is_space (w1 ++ w2 ++ w1' ++ w2') = true ->
  lower u = lower u' ->
  same_text (w1 ++ u ++ w2) (w1' ++ u' ++ w2').
Proof.
  intros Hb Hu. rewrite !forallb_app in Hb.
  repeat (apply andb_prop in Hb; destruct Hb as [? Hb]).
  exists w1, u, w2, w1', u', w2'.
  repeat split; try assumption; apply Forall_forall;
    now apply forallb_forall.
Qed.

(** A run of C3: the same complaint written in two ways. *)
Lemma signature_invariant_witness :
  same_text (txt "  No Signal at home ") (txt "no signal AT HOME")
  /\ well_formed (Some Sample.conditions_a)
  /\ same_conditions (Some Sample.conditions_a) (Some Sample.conditions_b)
  /\ create_complaint_signature (txt "  No Signal at home ")
       (Some Sample.conditions_a)
     = create_complaint_signature (txt "no signal AT HOME")
         (Some Sample.conditions_b).
Proof.
  assert (Ht : same_text (txt "  No Signal at home ")
                 (txt "no signal AT HOME")).
  { apply (same_text_intro (txt "  ") (txt "No Signal at home") (txt " ")
             [] (txt "no signal AT HOME") []); reflexivity. }
  assert (Hwf : well_formed (Some Sample.conditions_a)).
  { simpl. repeat constructor; simpl; intuition discriminate. }
  assert (Hc : same_conditions (Some Sample.conditions_a)
                 (Some Sample.conditions_b)).
  { apply same_conditions_some with Sample.conditions_a_reordered.
    - unfold Sample.conditions_a, Sample.conditions_a_reordered.
      eapply perm_trans; [apply perm_swap|]. apply perm_skip, perm_swap.
    - repeat constructor; simpl.
      + apply (same_text_intro [] (txt "Kandy") [] [] (txt "KANDY") []);
          reflexivity.
      + apply (same_text_intro (txt " ") (txt "Weak") (txt " ")
                 [] (txt "weak") []); reflexivity. }
  split; [exact Ht|]. split; [exact Hwf|]. split; [exact Hc|].
  exact (signature_invariant Ht Hwf Hc).
Defined.

(** ** The order of texts *)

Lemma code_inj (x y : ascii) : code x = code y -> x = y.
Proof.
  unfold code. intro H.
  rewrite <- (ascii_N_embedding x), <- (ascii_N_embedding y).
  now rewrite H.
Qed.

Ltac by_code_order x y :=
  destruct (N.ltb_spec (code x) (code y));
  destruct (N.ltb_spec (code y) (code x)); try lia; try discriminate.

Lemma str_leb_refl (a : str) : str_leb a a = true.
Proof.
  induction a as [|x a IH]; [reflexivity|]. simpl.
  now rewrite N.ltb_irrefl.
Qed.

Lemma str_leb_total (a b : str) : str_leb a b = true \/ str_leb b a = true.
Proof.
  revert b. induction a as [|x a IH]; intros [|y b]; simpl; auto.
  by_code_order x y; auto.
Qed.

Lemma str_leb_antisym (a b : str) :
  str_leb a b = true -> str_leb b a = true -> a = b.
Proof.
  revert b. induction a as [|x a IH]; intros [|y b]; simpl;
    try discriminate; [reflexivity|].
  by_code_order x y. intros Hab Hba.
  assert (x = y) by (apply code_inj; lia). subst y.
  f_equal. now apply IH.
Qed.

Lemma str_leb_trans (a b c : str) :
  str_leb a b = true -> str_leb b c = true -> str_leb a c = true.
Proof.
  revert b c. induction a as [|x a IH]; intros [|y b] [|z c]; simpl;
    try discriminate; try reflexivity.
  by_code_order x y; by_code_order y z; by_code_order x z;
    try reflexivity.
  apply IH.
Qed.

(** A sorted arrangement of a list of texts is unique. *)
Lemma sorted_unique (l1 l2 : list str) :
  StronglySorted (fun a b => str_leb a b = true) l1 ->
  StronglySorted (fun a b => str_leb a b = true) l2 ->
  Permutation l1 l2 -> l1 = l2.
Proof.
  intro H1. revert l2.
  induction H1 as [|x l1 Hs1 IH Hx]; intros l2 H2 Hp.
  - now apply Permutation_nil in Hp.
  - destruct H2 as [|y l2 Hs2 Hy].
    + symmetry in Hp. now apply Permutation_nil in Hp.
    + assert (Hxy : x = y).
      { assert (Hin1 : In x (y :: l2))
          by (eapply Permutation_in; [exact Hp|now left]).
        assert (Hin2 : In y (x :: l1))
          by (eapply Permutation_in; [symmetry; exact Hp|now left]).
        destruct Hin1 as [->|Hin1]; [reflexivity|].
        destruct Hin2 as [->|Hin2]; [reflexivity|].
        apply str_leb_antisym.
        - exact (proj1 (Forall_forall _ _) Hx y Hin2).
        - exact (proj1 (Forall_forall _ _) Hy x Hin1). }
      subst y. f_equal. apply IH; [exact Hs2|].
      now apply Permutation_cons_inv in Hp.
Qed.

Lemma sorted_sorted (l : list str) :
  StronglySorted (fun a b => str_leb a b = true) (sorted l).
Proof. apply stable_sort_sorted; [apply str_leb_total|apply str_leb_trans]. Qed.

Lemma sorted_Permutation (l : list str) : Permutation (sorted l) l.
Proof. apply stable_sort_Permutation. Qed.

(** [sorted] of a list is the sorted arrangement of any permutation of
    it. *)
Lemma sorted_of_Permutation (l l' : list str) :
  Permutation l l' ->
  StronglySorted (fun a b => str_leb a b = true) l' -> sorted l = l'.
Proof.
  intros Hp Hs. apply sorted_unique; [apply sorted_sorted|exact Hs|].
  now rewrite sorted_Permutation.
Qed.

(** ** The shape of the hashed text *)

Section HashedText.

Context {FP : PyFloat}.

Lemma signature_input_shape (text : str)
    (conditions : option (dict pyval)) :
  signature_input text conditions
  = normalized_text text ++ [bar]
    ++ join [bar] (sorted (canonical_conditions conditions)).
Proof. destruct conditions as [[|e c]|]; reflexivity. Qed.

Lemma condition_values_flat_map (keys : list str) (c : dict pyval) :
  condition_values keys c = flat_map (pair_of c) keys.
Proof.
  induction keys as [|key keys IH]; [reflexivity|]. simpl. unfold pair_of.
  now destruct (condition_value key (get_value c key)); rewrite IH.
Qed.

Lemma condition_values_app (ks1 ks2 : list str) (c : dict pyval) :
  condition_values (ks1 ++ ks2) c
  = condition_values ks1 c ++ condition_values ks2 c.
Proof. rewrite !condition_values_flat_map. apply flat_map_app. Qed.

Lemma condition_values_Permutation (ks ks' : list str) (c : dict pyval) :
  Permutation ks ks' ->
  Permutation (condition_values ks c) (condition_values ks' c).
Proof.
  intro H. rewrite !condition_values_flat_map.
  now apply Permutation_flat_map.
Qed.

(** A pair begins with its key and the colon. *)
Lemma condition_value_prefix (key : str) (v : pyval) (entry : str) :
  condition_value key v = Some entry ->
  exists rest, entry = key ++ colon :: rest.
Proof.
  unfold condition_value. destruct v; [discriminate| |];
    (destruct (mem _ sentinels); [discriminate|]);
    destruct (if mem key _ then _ else _);
    try destruct (float_gtb _ _); intros [= <-]; eauto.
Qed.

Lemma strictly_before_app (a b x y : str) :
  strictly_before a b = true -> str_leb (a ++ x) (b ++ y) = true.
Proof.
  revert b. induction a as [|c a IH]; intros [|d b]; simpl;
    try discriminate.
  by_code_order c d; first [reflexivity|apply IH].
Qed.

Lemma In_condition_values (keys : list str) (c : dict pyval)
    (entry : str) :
  In entry (condition_values keys c) ->
  exists key rest, In key keys /\ entry = key ++ colon :: rest.
Proof.
  rewrite condition_values_flat_map, in_flat_map.
  intros (key & Hkey & Hin). unfold pair_of in Hin.
  destruct (condition_value key (get_value c key)) as [e|] eqn:E;
    [|contradiction].
  destruct Hin as [<-|[]]. apply condition_value_prefix in E.
  destruct E as [rest ->]. eauto.
Qed.

(** Read in an order in which every key is strictly before the later
    ones, the pairs come out sorted. *)
Lemma condition_values_sorted (keys : list str) (c : dict pyval) :
  StronglySorted (fun a b => strictly_before a b = true) keys ->
  StronglySorted (fun a b => str_leb a b = true) (condition_values keys c).
Proof.
  induction 1 as [|key keys Hs IH Hkey]; [constructor|].
  change (key :: keys) with ([key] ++ keys).
  rewrite condition_values_app.
  destruct (condition_values [key] c) as [|e [|? ?]] eqn:E.
  - exact IH.
  - simpl. constructor; [exact IH|].
    assert (He : In e (condition_values [key] c)) by (rewrite E; now left).
    apply In_condition_values in He.
    destruct He as (k & rest & [<-|[]] & ->).
    apply Forall_forall. intros e' He'.
    apply In_condition_values in He'.
    destruct He' as (k' & rest' & Hk' & ->).
    apply strictly_before_app.
    exact (proj1 (Forall_forall _ _) Hkey k' Hk').
  - simpl in E. destruct (condition_value _ _); discriminate.
Qed.

Lemma sorted_conditions_in_order :
  StronglySorted (fun a b => strictly_before a b = true) sorted_conditions.
Proof. unfold sorted_conditions. repeat constructor. Qed.

Lemma sorted_conditions_Permutation :
  Permutation all_conditions sorted_conditions.
Proof.
  apply NoDup_Permutation.
  - repeat constructor; simpl; intuition discriminate.
  - repeat constructor; simpl; intuition discriminate.
  - intro x. simpl. tauto.
Qed.

(** Sorting the pairs is reading them in the sorted order of the keys:
    the keys decide the order, whatever the values are. *)
Lemma sorted_condition_values (c : dict pyval) :
  sorted (condition_values all_conditions c)
  = condition_values sorted_conditions c.
Proof.
  apply sorted_of_Permutation.
  - apply condition_values_Permutation, sorted_conditions_Permutation.
  - apply condition_values_sorted, sorted_conditions_in_order.
Qed.

End HashedText.

(** ** Joining *)

Section Joining.

Variable sep : str.

Lemma join_cons (x : str) (l : list str) :
  join sep (x :: l) = x ++ flat_map (fun b => sep ++ b) l.
Proof.
  revert x. induction l as [|y l IH]; intro x.
  - simpl. now rewrite app_nil_r.
  - change (join sep (x :: y :: l)) with (x ++ sep ++ join sep (y :: l)).
    rewrite IH. simpl. now rewrite <- !app_assoc.
Qed.

Lemma flat_map_sep_shift (a : str) (A : list str) :
  a ++ flat_map (fun b => sep ++ b) A ++ sep
  = flat_map (fun a => a ++ sep) (a :: A).
Proof.
  revert a. induction A as [|a' A IH]; intro a.
  - simpl. now rewrite app_nil_r.
  - cbn [flat_map]. rewrite <- !app_assoc. do 2 f_equal.
    rewrite (IH a'). cbn [flat_map]. now rewrite <- app_assoc.
Qed.

(** A joined list, seen from one of its items. *)
Lemma join_middle (A : list str) (x : str) (B : list str) :
  join sep (A ++ x :: B)
  = flat_map (fun a => a ++ sep) A ++ x ++ flat_map (fun b => sep ++ b) B.
Proof.
  destruct A as [|a A]; [apply join_cons|].
  rewrite <- app_comm_cons, join_cons, flat_map_app.
  rewrite <- flat_map_sep_shift. cbn [flat_map].
  now rewrite <- !app_assoc.
Qed.

Lemma join_length (l : list str) :
  l <> [] ->
  length (join sep l) + length sep
  = length (flat_map (fun a => a ++ sep) l).
Proof.
  destruct l as [|x l] using rev_ind; [congruence|]. intros _.
  rewrite join_middle, flat_map_app. cbn [flat_map].
  rewrite !app_nil_r, !length_app. unfold str. lia.
Qed.

Lemma flat_map_sep_length (l : list str) :
  length (flat_map (fun a => a ++ sep) l)
  = list_sum (map (@length ascii) l) + length sep * length l.
Proof.
  induction l as [|x l IH]; [simpl; lia|].
  simpl. rewrite !length_app, IH. unfold str. lia.
Qed.

(** One item more, not empty, makes the joined text longer. *)
Lemma join_longer (A : list str) (x : str) (B : list str) :
  0 < length x ->
  length (join sep (A ++ B)) < length (join sep (A ++ x :: B)).
Proof.
  intro Hpos.
  assert (H1 : length (join sep (A ++ x :: B)) + length sep
               = list_sum (map (@length ascii) (A ++ x :: B))
                 + length sep * length (A ++ x :: B)).
  { rewrite join_length by now destruct A. apply flat_map_sep_length. }
  rewrite map_app, list_sum_app, length_app in H1. simpl in H1.
  destruct (A ++ B) as [|y l] eqn:E.
  - apply app_eq_nil in E. destruct E as [-> ->]. simpl in *.
    unfold str in *. lia.
  - assert (H2 : length (join sep (y :: l)) + length sep
                 = list_sum (map (@length ascii) (y :: l))
                   + length sep * length (y :: l)).
    { rewrite join_length by discriminate. apply flat_map_sep_length. }
    rewrite <- E, map_app, list_sum_app, length_app in H2.
    rewrite <- E. unfold str in *. lia.
Qed.

End Joining.

(** ** Exact match (C2) *)

Section ExactMatch.

Context {FP : PyFloat}.

Lemma condition_values_agree (keys : list str) (c c' : dict pyval) :
  (forall key, In key keys -> get_value c key = get_value c' key) ->
  condition_values keys c = condition_values keys c'.
Proof.
  intro H. induction keys as [|key keys IH]; [reflexivity|].
  simpl. rewrite (H key) by now left.
  rewrite IH by (intros k Hk; apply H; now right). reflexivity.
Qed.

Lemma pair_of_not_empty (c : dict pyval) (key entry : str) :
  pair_of c key = [entry] -> 0 < length entry.
Proof.
  unfold pair_of.
  destruct (condition_value key (get_value c key)) as [e|] eqn:E;
    [|discriminate].
  intros [= <-]. apply condition_value_prefix in E.
  destruct E as [rest ->]. rewrite length_app. simpl. lia.
Qed.

(** The hashed text tells apart two condition dictionaries that differ in
    the pair of one allow-listed key. *)
Lemma signature_input_sensitive (text : str) (key : str)
    (c c' : dict pyval) :
  In key all_conditions ->
  (forall k, k <> key -> get_value c k = get_value c' k) ->
  condition_value key (get_value c key)
  <> condition_value key (get_value c' key) ->
  signature_input text (Some c) <> signature_input text (Some c').
Proof.
  intros Hkey Hothers Hdiff Heq.
  rewrite !signature_input_shape in Heq.
  apply app_inv_head in Heq. apply app_inv_head in Heq.
  cbn [canonical_conditions] in Heq.
  rewrite !sorted_condition_values in Heq.
  assert (Hin : In key sorted_conditions)
    by (eapply Permutation_in;
          [apply sorted_conditions_Permutation|exact Hkey]).
  assert (Hnd : NoDup sorted_conditions)
    by (repeat constructor; simpl; intuition discriminate).
  apply in_split in Hin. destruct Hin as (ks1 & ks2 & Hks).
  rewrite Hks in Heq, Hnd. apply NoDup_remove_2 in Hnd.
  change (key :: ks2) with ([key] ++ ks2) in Heq.
  rewrite !condition_values_app in Heq.
  assert (H1 : condition_values ks1 c = condition_values ks1 c').
  { apply condition_values_agree. intros k Hk. apply Hothers.
    intros ->. apply Hnd, in_or_app. now left. }
  assert (H2 : condition_values ks2 c = condition_values ks2 c').
  { apply condition_values_agree. intros k Hk. apply Hothers.
    intros ->. apply Hnd, in_or_app. now right. }
  rewrite H1, H2 in Heq.
  rewrite !(condition_values_flat_map [key]) in Heq.
  cbn [flat_map] in Heq. rewrite !app_nil_r in Heq.
  assert (Hpairs : pair_of c key <> pair_of c' key).
  { unfold pair_of. intro H. apply Hdiff.
    destruct (condition_value key (get_value c key)),
      (condition_value key (get_value c' key)); congruence. }
  destruct (pair_of c key) as [|e [|? ?]] eqn:E;
    destruct (pair_of c' key) as [|e' [|? ?]] eqn:E';
    try congruence;
    try (unfold pair_of in E, E';
         destruct (condition_value key (get_value c key)),
           (condition_value key (get_value c' key)); discriminate).
  - pose proof (join_longer [bar] (condition_values ks1 c') e'
                  (condition_values ks2 c') (pair_of_not_empty _ _ E')) as L.
    cbn [app] in Heq. rewrite <- Heq in L. lia.
  - pose proof (join_longer [bar] (condition_values ks1 c') e
                  (condition_values ks2 c') (pair_of_not_empty _ _ E)) as L.
    cbn [app] in Heq. rewrite Heq in L. lia.
  - cbn [app] in Heq. rewrite !join_middle in Heq.
    apply app_inv_head in Heq. apply app_inv_tail in Heq. congruence.
Qed.

Lemma scan_exact_None (signature : str) (rows : list row) :
  scan_exact signature rows = None <->
  forall r, In r rows -> hist_signature_of r <> signature.
Proof.
  induction rows as [|r rows IH]; simpl.
  - split; [intros _ r []|reflexivity].
  - destruct (str_eqb signature (hist_signature_of r)) eqn:E.
    + apply str_eqb_eq in E. split; [discriminate|].
      intro H. now elim (H r (or_introl eq_refl)).
    + apply str_eqb_neq in E. rewrite IH. split.
      * intros H r' [<-|Hr']; [congruence|now apply H].
      * intros H r' Hr'. apply H. now right.
Qed.

(** When some record has the signature, the scan returns the solution of
    the first such record. *)
Lemma scan_exact_first (signature : str) (rows : list row) (r : row) :
  In r rows -> hist_signature_of r = signature ->
  exists pre r0 post,
    rows = pre ++ r0 :: post
    /\ (forall r', In r' pre -> hist_signature_of r' <> signature)
    /\ hist_signature_of r0 = signature
    /\ scan_exact signature rows = Some (solution_of r0).
Proof.
  induction rows as [|r1 rows IH]; [intros []|]. intros Hin Hsig. simpl.
  destruct (str_eqb signature (hist_signature_of r1)) eqn:E.
  - apply str_eqb_eq in E. exists [], r1, rows.
    repeat split; [intros r' []|congruence].
  - apply str_eqb_neq in E.
    destruct Hin as [->|Hin]; [congruence|].
    destruct (IH Hin Hsig) as (pre & r0 & post & -> & Hpre & H0 & Hscan).
    exists (r1 :: pre), r0, post. repeat split; try assumption.
    intros r' [<-|Hr']; [congruence|now apply Hpre].
Qed.

Lemma find_exact_match_scan (self : SimpleComplaintHandler) (text : str)
    (conditions : option (dict pyval)) :
  find_exact_match self text conditions
  = scan_exact (create_complaint_signature text conditions)
      (corpus_rows self).
Proof.
  unfold find_exact_match, corpus_rows. now destruct (no_data _).
Qed.

End ExactMatch.

(** The search on the code, where the two sides hash the same text.
    (1) When the text part of the hashed text ([normalized_text], the
    order of the code) and the canonical pairs of the incoming complaint
    are those re-derived from a record of the corpus,
    [find_exact_match] returns the formatted
    solution of the first record, in corpus order, whose digest is the
    incoming digest.  (2) Changing one allow-listed condition so that its
    canonical pair changes (the value after the sentinel filter, trimming,
    lower-casing and coordinate rounding) changes the hashed text: it is no
    longer the hashed text of a record it matched, nor its digest unless
    MD5 collides.  (3) When no record has the incoming digest the answer
    is [None]. *)
Theorem find_exact_match_first_match (FP : PyFloat) :
  (forall (self : SimpleComplaintHandler) text conditions r,
      In r (corpus_rows self) ->
      normalized_text text = normalized_text (hist_issue_desc_of r) ->
      canonical_conditions conditions
      = canonical_conditions (Some (hist_conditions_of r)) ->
      exists pre r0 post,
        corpus_rows self = pre ++ r0 :: post
        /\ (forall r', In r' pre ->
              hist_signature_of r'
              <> create_complaint_signature text conditions)
        /\ hist_signature_of r0
           = create_complaint_signature text conditions
        /\ find_exact_match self text conditions = Some (solution_of r0))
  /\ (forall text key (c c' : dict pyval) r,
      In key all_conditions ->
      (forall k, k <> key -> get_value c k = get_value c' k) ->
      condition_value key (get_value c key)
      <> condition_value key (get_value c' key) ->
      signature_input text (Some c) = hist_signature_input r ->
      signature_input text (Some c') <> hist_signature_input r
      /\ (no_collision (signature_input text (Some c'))
            (hist_signature_input r) ->
          create_complaint_signature text (Some c')
          <> hist_signature_of r))
  /\ (forall (self : SimpleComplaintHandler) text conditions,
      (forall r, In r (corpus_rows self) ->
         hist_signature_of r
         <> create_complaint_signature text conditions) ->
      find_exact_match self text conditions = None).
Proof.
  split; [|split].
  - intros self text conditions r Hr Htext Hconds.
    rewrite find_exact_match_scan.
    apply scan_exact_first with r; [exact Hr|].
    unfold hist_signature_of, create_complaint_signature.
    rewrite !signature_input_shape. now rewrite Htext, Hconds.
  - intros text key c c' r Hkey Hothers Hdiff Hmatch.
    assert (Hne : signature_input text (Some c') <> hist_signature_input r).
    { rewrite <- Hmatch. intro H. symmetry in H. revert H.
      now apply signature_input_sensitive with key. }
    split; [exact Hne|].
    intros Hmd5 H. apply Hne, Hmd5. exact H.
  - intros self text conditions Hnone. rewrite find_exact_match_scan.
    now apply scan_exact_None.
Qed.

(** A change of letter case, or of the blanks around a value, is no
    change of its canonical pair: writing the signal strength of a
    matching complaint in capitals, with a blank after it, keeps the
    match, as C3 has it. *)
Lemma case_change_keeps_the_match :
  str_eqb (txt "weak") (txt "WEAK ") = false
  /\ find_exact_match Sample.handler Sample.without_site_code
       (Some Sample.weak_signal)
     = Some (solution_of Sample.first_record)
  /\ find_exact_match Sample.handler Sample.without_site_code
       (Some Sample.weak_signal_in_capitals)
     = Some (solution_of Sample.first_record).
Proof.
  split; [reflexivity|]. split; vm_compute; reflexivity.
Qed.

(** A run of the first part on the sample corpus. *)
Lemma find_exact_match_first_match_witness :
  In Sample.first_record (corpus_rows Sample.handler)
  /\ normalized_text Sample.without_site_code
     = normalized_text (hist_issue_desc_of Sample.first_record)
  /\ canonical_conditions (Some Sample.weak_signal)
     = canonical_conditions (Some (hist_conditions_of Sample.first_record))
  /\ exists pre r0 post,
       corpus_rows Sample.handler = pre ++ r0 :: post
       /\ (forall r', In r' pre ->
             hist_signature_of r'
             <> create_complaint_signature Sample.without_site_code
                  (Some Sample.weak_signal))
       /\ hist_signature_of r0
          = create_complaint_signature Sample.without_site_code
              (Some Sample.weak_signal)
       /\ find_exact_match Sample.handler Sample.without_site_code
            (Some Sample.weak_signal) = Some (solution_of r0).
Proof.
  assert (H1 : In Sample.first_record (corpus_rows Sample.handler))
    by (left; reflexivity).
  assert (H2 : normalized_text Sample.without_site_code
               = normalized_text (hist_issue_desc_of Sample.first_record))
    by (vm_compute; reflexivity).
  assert (H3 : canonical_conditions (Some Sample.weak_signal)
               = canonical_conditions
                   (Some (hist_conditions_of Sample.first_record)))
    by (vm_compute; reflexivity).
  split; [exact H1|]. split; [exact H2|]. split; [exact H3|].
  exact (proj1 (find_exact_match_first_match Decimal.decimal)
           Sample.handler Sample.without_site_code
           (Some Sample.weak_signal) Sample.first_record H1 H2 H3).
Defined.

(** C2, on the code.  A complaint that repeats the first record of the
    sample corpus word for word, with its signal strength, has the
    normalized text and the allow-listed conditions re-derived from that
    record, and [find_exact_match] returns [None] where the claim has it
    return the record's solution.  The incoming text is lower-cased
    before it is normalized, so the site code stays in the hashed text;
    the description of the record is normalized first.  This is the
    defect of C6 and C7. *)
Theorem identical_complaint_finds_no_exact_match :
  issue_of Sample.first_record = Sample.with_site_code
  /\ spec_normalized_text Sample.with_site_code
     = spec_normalized_text (issue_of Sample.first_record)
  /\ canonical_conditions (Some Sample2.signal_weak)
     = canonical_conditions (Some (hist_conditions_of Sample.first_record))
  /\ find_exact_match Sample.handler Sample.with_site_code
       (Some Sample2.signal_weak)
     = None
  /\ signature_input Sample.with_site_code (Some Sample2.signal_weak)
     = txt "call drops near kdy123|signal_strength:weak"
  /\ hist_signature_input Sample.first_record
     = txt "call drops near the area|signal_strength:weak".
Proof. repeat split; vm_compute; reflexivity. Qed.

(** ** A location name against the corpus (C10) *)

Section LocationName.

Context {FP : PyFloat}.

Lemma fields_not_nil (s : str) : fields s <> [].
Proof.
  induction s as [|c s IH]; simpl; [discriminate|].
  destruct (Char.is_char bar c); [discriminate|].
  now destruct (fields s).
Qed.

(** The first field of a text that begins with a bar-free text begins
    with that text. *)
Lemma fields_prefix (L Y : str) :
  bar_free L -> exists y0 ys, fields (L ++ Y) = (L ++ y0) :: ys.
Proof.
  induction 1 as [|c L Hc _ IH]; simpl.
  - destruct (fields Y) as [|y0 ys] eqn:E; [now elim (fields_not_nil Y)|].
    now exists y0, ys.
  - rewrite Hc. destruct IH as (y0 & ys & ->). now exists y0, ys.
Qed.

Lemma fields_bar_free_app (a b : str) :
  bar_free a -> fields (a ++ bar :: b) = a :: fields b.
Proof.
  induction 1 as [|c a Hc _ IH]; [reflexivity|].
  simpl. now rewrite Hc, IH.
Qed.

Lemma fields_bar_free (a : str) : bar_free a -> fields a = [a].
Proof.
  induction 1 as [|c a Hc _ IH]; [reflexivity|]. simpl. now rewrite Hc, IH.
Qed.

Lemma fields_join (l : list str) :
  Forall bar_free l -> l <> [] -> fields (join [bar] l) = l.
Proof.
  induction 1 as [|x l Hx Hl IH]; [congruence|]. intros _.
  destruct l as [|y l].
  - simpl. now apply fields_bar_free.
  - change (join [bar] (x :: y :: l)) with (x ++ bar :: join [bar] (y :: l)).
    rewrite fields_bar_free_app by assumption. f_equal.
    now apply IH.
Qed.

(** After a bar that is followed by a bar-free text [L], some field past
    the first begins with [L]. *)
Lemma field_after_bar (X L Y : str) :
  bar_free L ->
  exists rest, In (L ++ rest) (tl (fields (X ++ bar :: L ++ Y))).
Proof.
  intro HL. induction X as [|c X IH].
  - simpl. destruct (fields_prefix Y HL) as (y0 & ys & ->).
    exists y0. now left.
  - destruct IH as (rest & Hin). exists rest. simpl.
    destruct (Char.is_char bar c).
    + simpl. destruct (fields (X ++ bar :: L ++ Y)); [destruct Hin|].
      now right.
    + destruct (fields (X ++ bar :: L ++ Y)); [destruct Hin|]. exact Hin.
Qed.

Lemma flat_map_bar_end (A : list str) :
  flat_map (fun a => a ++ [bar]) A = []
  \/ exists F, flat_map (fun a => a ++ [bar]) A = F ++ [bar].
Proof.
  destruct A as [|a A] using rev_ind; [now left|]. right.
  rewrite flat_map_app. simpl. rewrite app_nil_r.
  exists (flat_map (fun a => a ++ [bar]) A ++ a).
  now rewrite <- app_assoc.
Qed.

(** The hashed text of conditions with a pair [entry] holds the bar
    followed by that pair. *)
Lemma signature_input_holds_pair (text : str) (c : dict pyval)
    (entry : str) :
  In entry (condition_values all_conditions c) ->
  exists X Y, signature_input text (Some c) = X ++ bar :: entry ++ Y.
Proof.
  intro Hin. rewrite signature_input_shape. cbn [canonical_conditions].
  apply (Permutation_in _ (Permutation_sym (sorted_Permutation _))) in Hin.
  apply in_split in Hin. destruct Hin as (A & B & ->).
  rewrite join_middle.
  destruct (flat_map_bar_end A) as [->|(F & ->)].
  - exists (normalized_text text), (flat_map (fun b => [bar] ++ b) B).
    reflexivity.
  - exists (normalized_text text ++ [bar] ++ F),
      (flat_map (fun b => [bar] ++ b) B).
    now rewrite <- !app_assoc.
Qed.

Lemma In_condition_values_key (keys : list str) (c : dict pyval)
    (entry : str) :
  In entry (condition_values keys c) ->
  exists key, In key keys
              /\ condition_value key (get_value c key) = Some entry.
Proof.
  rewrite condition_values_flat_map, in_flat_map.
  intros (key & Hkey & Hin). unfold pair_of in Hin.
  destruct (condition_value key (get_value c key)) as [e|] eqn:E;
    [|contradiction].
  destruct Hin as [<-|[]]. now exists key.
Qed.

Lemma dict_get_set_other {V : Type} (d : dict V) (k k' : str) (v : V) :
  k <> k' -> dict_get (dict_set d k v) k' = dict_get d k'.
Proof.
  intro Hne. induction d as [|[k0 w] d IH]; simpl.
  - now rewrite (proj2 (str_eqb_neq k k')).
  - destruct (str_eqb k0 k) eqn:E; simpl.
    + apply str_eqb_eq in E. subst k0.
      now rewrite (proj2 (str_eqb_neq k k')).
    + now rewrite IH.
Qed.

Lemma hist_text_conditions_other (cols : list (str * str)) (r : row)
    (d : dict pyval) (k : str) :
  ~ In k (map snd cols) ->
  dict_get (hist_text_conditions cols r d) k = dict_get d k.
Proof.
  revert d. induction cols as [|[col key] cols IH]; intros d Hk;
    [reflexivity|].
  simpl in *. rewrite IH by tauto.
  destruct (dict_get r col) as [val|]; [|reflexivity].
  destruct (notna val && truthy (strip (str_of_cell val)));
    [|reflexivity].
  apply dict_get_set_other. tauto.
Qed.

Lemma hist_coord_conditions_other (cols : list (str * str)) (r : row)
    (d : dict pyval) (k : str) :
  ~ In k (map snd cols) ->
  dict_get (hist_coord_conditions cols r d) k = dict_get d k.
Proof.
  revert d. induction cols as [|[col key] cols IH]; intros d Hk;
    [reflexivity|].
  simpl in *. rewrite IH by tauto.
  destruct (dict_get r col) as [val|]; [|reflexivity].
  destruct (notna val); [|reflexivity].
  destruct (float_of_cell val); [|reflexivity].
  destruct (float_gtb _ _); [|reflexivity].
  apply dict_get_set_other. tauto.
Qed.

(** The conditions re-derived from a record never hold a location. *)
Lemma hist_conditions_without_location (r : row) :
  get_value (hist_conditions_of r) (txt "location") = VNone.
Proof.
  unfold get_value, hist_conditions_of.
  rewrite hist_coord_conditions_other, hist_text_conditions_other;
    [reflexivity| |]; simpl; intuition discriminate.
Qed.

End LocationName.

Section LocationName2.

Context {FP : PyFloat}.

Lemma bar_freeb_spec (s : str) : bar_freeb s = true -> bar_free s.
Proof.
  unfold bar_freeb, bar_free. rewrite forallb_forall, Forall_forall.
  intros H c Hc. apply H in Hc. now apply negb_true_iff.
Qed.

Lemma record_bar_freeb_spec (r : row) :
  record_bar_freeb r = true -> record_bar_free r.
Proof.
  unfold record_bar_freeb, record_bar_free. intro H.
  apply andb_prop in H. destruct H as [H1 H2].
  split; [now apply bar_freeb_spec|].
  apply Forall_forall. intros e He. apply bar_freeb_spec.
  revert e He. now apply forallb_forall.
Qed.

Lemma location_prefix_bar_free : bar_free (txt "location" ++ [colon]).
Proof. now apply bar_freeb_spec. Qed.

(** No field past the first of the text hashed for a record begins with
    the key [location] and the colon. *)
Lemma hist_fields_without_location (r : row) (rest : str) :
  record_bar_free r ->
  ~ In ((txt "location" ++ [colon]) ++ rest)
      (tl (fields (hist_signature_input r))).
Proof.
  intros [Htext Hpairs] Hin. unfold hist_signature_input in Hin.
  rewrite signature_input_shape in Hin.
  change (?a ++ [bar] ++ ?b) with (a ++ bar :: b) in Hin.
  rewrite fields_bar_free_app in Hin by exact Htext. cbn [tl] in Hin.
  set (pairs := canonical_conditions (Some (hist_conditions_of r))) in *.
  assert (Hsorted : Forall bar_free (sorted pairs)).
  { eapply Permutation_Forall; [|exact Hpairs].
    symmetry. apply sorted_Permutation. }
  destruct (sorted pairs) as [|p ps] eqn:E.
  - simpl in Hin. destruct Hin as [H|[]]. discriminate.
  - rewrite fields_join in Hin by (assumption || discriminate).
    rewrite <- E in Hin.
    apply (Permutation_in _ (sorted_Permutation _)) in Hin.
    apply In_condition_values_key in Hin.
    destruct Hin as (key & Hkey & Hval).
    pose proof (condition_value_prefix _ _ Hval) as (rest' & Hform).
    simpl in Hkey.
    repeat (destruct Hkey as [<-|Hkey];
            [try (simpl in Hform; discriminate)|]);
      [|contradiction].
    rewrite hist_conditions_without_location in Hval. discriminate.
Qed.

(** With a location pair among the incoming conditions, the hashed text
    is not that of a record without stray bars. *)
Lemma location_pair_differs (text : str) (c : dict pyval) (entry : str)
    (r : row) :
  condition_value (txt "location") (get_value c (txt "location"))
  = Some entry ->
  record_bar_free r ->
  signature_input text (Some c) <> hist_signature_input r.
Proof.
  intros Hval Hr Heq.
  assert (Hin : In entry (condition_values all_conditions c)).
  { rewrite condition_values_flat_map. apply in_flat_map.
    exists (txt "location"). split; [simpl; tauto|].
    unfold pair_of. rewrite Hval. now left. }
  destruct (condition_value_prefix _ _ Hval) as (rest & ->).
  destruct (signature_input_holds_pair text c _ Hin) as (X & Y & HXY).
  change (txt "location" ++ colon :: rest)
    with ((txt "location" ++ [colon]) ++ rest) in HXY.
  rewrite <- app_assoc in HXY.
  destruct (field_after_bar X (rest ++ Y) location_prefix_bar_free)
    as (rest' & Hfield).
  rewrite <- HXY, Heq in Hfield.
  exact (hist_fields_without_location _ Hr Hfield).
Qed.

End LocationName2.

(** C10, for records whose text and values hold no bar.  When the
    incoming conditions carry a location name that is not a sentinel,
    the hashed text of the complaint differs from the hashed text of
    every such record: it holds the pair of the key [location] after a
    bar, and the text re-derived from a record has no such field.  So
    [find_exact_match] returns [None], unless MD5 collides on two
    different texts. *)
Theorem location_name_defeats_exact_match (FP : PyFloat)
    (self : SimpleComplaintHandler) (text : str) (c : dict pyval)
    (name : str) :
  get_value c (txt "location") = VStr name ->
  mem (lower (strip name)) sentinels = false ->
  (forall r, In r (corpus_rows self) -> record_bar_free r) ->
  (forall r, In r (corpus_rows self) ->
     signature_input text (Some c) <> hist_signature_input r)
  /\ ((forall r, In r (corpus_rows self) ->
         no_collision (signature_input text (Some c))
           (hist_signature_input r)) ->
      find_exact_match self text (Some c) = None).
Proof.
  intros Hname Hsentinel Hrows.
  assert (Hdiff : forall r, In r (corpus_rows self) ->
            signature_input text (Some c) <> hist_signature_input r).
  { intros r Hr.
    apply location_pair_differs
      with (txt "location" ++ [colon] ++ strip (lower name));
      [|now apply Hrows].
    rewrite Hname. unfold condition_value. cbn [str_of_value].
    now rewrite Hsentinel. }
  split; [exact Hdiff|]. intro Hmd5.
  rewrite find_exact_match_scan. apply scan_exact_None.
  intros r Hr H. apply (Hdiff r Hr). apply (Hmd5 r Hr). now symmetry.
Qed.

(** C10 as stated fails when a record holds a bar: the issue description
    ["No signal|location:kandy"] with signal strength ["Weak"] is hashed
    as the complaint ["No signal"] from Kandy with a weak signal is, and
    the complaint is answered with the record's solution. *)
Lemma location_name_with_exact_match :
  get_value Sample.conditions_with_location (txt "location")
  = VStr (txt "Kandy")
  /\ mem (lower (strip (txt "Kandy"))) sentinels = false
  /\ signature_input (txt "No signal") (Some Sample.conditions_with_location)
     = txt "no signal|location:kandy|signal_strength:weak"
  /\ hist_signature_input Sample.record_with_bar
     = txt "no signal|location:kandy|signal_strength:weak"
  /\ find_exact_match Sample.handler_with_bar (txt "No signal")
       (Some Sample.conditions_with_location)
     = Some (solution_of Sample.record_with_bar).
Proof.
  split; [reflexivity|]. split; [reflexivity|].
  split; [vm_compute; reflexivity|]. split; vm_compute; reflexivity.
Qed.

Lemma sample_rows :
  corpus_rows Sample.handler
  = [Sample.first_record; Sample.second_record; Sample.third_record].
Proof. reflexivity. Qed.

(** A run of C10 on the sample corpus, whose records hold no bar. *)
Lemma location_name_defeats_exact_match_witness :
  get_value Sample.conditions_with_location (txt "location")
  = VStr (txt "Kandy")
  /\ mem (lower (strip (txt "Kandy"))) sentinels = false
  /\ (forall r, In r (corpus_rows Sample.handler) -> record_bar_free r)
  /\ (forall r, In r (corpus_rows Sample.handler) ->
        no_collision
          (signature_input (txt "No signal")
             (Some Sample.conditions_with_location))
          (hist_signature_input r))
  /\ find_exact_match Sample.handler (txt "No signal")
       (Some Sample.conditions_with_location) = None.
Proof.
  assert (H1 : get_value Sample.conditions_with_location (txt "location")
               = VStr (txt "Kandy")) by reflexivity.
  assert (H2 : mem (lower (strip (txt "Kandy"))) sentinels = false)
    by reflexivity.
  assert (H3 : forall r, In r (corpus_rows Sample.handler) ->
                 record_bar_free r).
  { rewrite sample_rows. intros r [<-|[<-|[<-|[]]]];
      apply record_bar_freeb_spec; vm_compute; reflexivity. }
  assert (H4 : forall r, In r (corpus_rows Sample.handler) ->
                 no_collision
                   (signature_input (txt "No signal")
                      (Some Sample.conditions_with_location))
                   (hist_signature_input r)).
  { rewrite sample_rows. intros r [<-|[<-|[<-|[]]]] H;
      vm_compute in H; discriminate. }
  split; [exact H1|]. split; [exact H2|]. split; [exact H3|].
  split; [exact H4|].
  exact (proj2 (location_name_defeats_exact_match Sample.handler
                  (txt "No signal") Sample.conditions_with_location
                  H1 H2 H3) H4).
Defined.

(** ** Substitution over runs and separators *)

Unset Implicit Arguments.

Section Substitution.

Variable r : Re.regex.
Variable repl : str.

Lemma last_char_app (prev : option ascii) (a b : str) :
  last_char prev (a ++ b) = last_char (last_char prev a) b.
Proof. apply fold_left_app. Qed.

Lemma last_char_cons (prev : option ascii) (c : ascii) (w : str) :
  last_char prev (c :: w) = last_char (Some c) w.
Proof. reflexivity. Qed.

(** Passing over the rest of a match. *)
Lemma sub_from_skip (prev : option ascii) (m s : str) :
  Re.sub_from r repl prev (length m) (m ++ s)
  = Re.sub_from r repl (last_char prev m) 0 s.
Proof.
  revert prev. induction m as [|c m IH]; intro prev; [reflexivity|].
  simpl. apply IH.
Qed.

(** At a match. *)
Lemma sub_from_match (prev : option ascii) (m s : str) :
  m <> [] -> Re.match_here r prev (m ++ s) = Some (length m) ->
  Re.sub_from r repl prev 0 (m ++ s)
  = repl ++ Re.sub_from r repl (last_char prev m) 0 s.
Proof.
  destruct m as [|c m]; [congruence|]. intros _ H.
  cbn [app Re.sub_from]. cbn [app] in H. rewrite H. cbn [length].
  now rewrite sub_from_skip.
Qed.

(** Where there is no match. *)
Lemma sub_from_copy (prev : option ascii) (c : ascii) (s : str) :
  Re.match_here r prev (c :: s) = None ->
  Re.sub_from r repl prev 0 (c :: s)
  = c :: Re.sub_from r repl (Some c) 0 s.
Proof. intro H. simpl. now rewrite H. Qed.

End Substitution.

(** ** Patterns anchored at the start of a run *)

Lemma word_after_app (w s : str) :
  w <> [] -> all_word w = true -> Re.word_after (w ++ s) = true.
Proof.
  destruct w as [|c w]; [congruence|]. intros _ H. simpl in *.
  now apply andb_prop in H.
Qed.

Section Anchored.

Variable r : Re.regex.
Variable repl : str.
Hypothesis r_anchored : anchored r.

Lemma anchored_nil (prev : option ascii) : Re.match_here r prev [] = None.
Proof.
  destruct r_anchored as (cls & r' & -> & Hcls). simpl.
  now destruct (Re.at_boundary prev []).
Qed.

Lemma anchored_sep (prev : option ascii) (c : ascii) (s : str) :
  Char.is_word c = false -> Re.match_here r prev (c :: s) = None.
Proof.
  destruct r_anchored as (cls & r' & -> & Hcls). intro Hc. simpl.
  destruct (Re.at_boundary prev (c :: s)); [|reflexivity].
  destruct (cls c) eqn:E; [|reflexivity].
  apply Hcls in E. congruence.
Qed.

Lemma anchored_inside (prev : option ascii) (c : ascii) (s : str) :
  Re.word_before prev = true -> Char.is_word c = true ->
  Re.match_here r prev (c :: s) = None.
Proof.
  destruct r_anchored as (cls & r' & -> & Hcls). intros Hp Hc. simpl.
  unfold Re.at_boundary. simpl. now rewrite Hp, Hc.
Qed.

Lemma word_before_last (prev : option ascii) (w : str) :
  w <> [] -> all_word w = true ->
  Re.word_before (last_char prev w) = true.
Proof.
  revert prev. induction w as [|c w IH]; intros prev Hne Hw;
    [congruence|].
  simpl in Hw. apply andb_prop in Hw. destruct Hw as [Hc Hw].
  rewrite last_char_cons. destruct w as [|d w]; [exact Hc|].
  apply IH; [discriminate|exact Hw].
Qed.

(** Inside a run nothing matches: the run is copied. *)
Lemma sub_from_inside (prev : option ascii) (w s : str) :
  Re.word_before prev = true -> all_word w = true ->
  Re.sub_from r repl prev 0 (w ++ s)
  = w ++ Re.sub_from r repl (last_char prev w) 0 s.
Proof.
  revert prev. induction w as [|c w IH]; intros prev Hp Hw;
    [reflexivity|].
  simpl in Hw. apply andb_prop in Hw. destruct Hw as [Hc Hw].
  cbn [app]. rewrite sub_from_copy by now apply anchored_inside.
  rewrite last_char_cons. f_equal. now apply IH.
Qed.

(** A run at whose start nothing matches is copied. *)
Lemma sub_from_run (prev : option ascii) (w s : str) :
  w <> [] -> all_word w = true ->
  Re.match_here r prev (w ++ s) = None ->
  Re.sub_from r repl prev 0 (w ++ s)
  = w ++ Re.sub_from r repl (last_char prev w) 0 s.
Proof.
  destruct w as [|c w]; [congruence|]. intros _ Hw Hm.
  simpl in Hw. apply andb_prop in Hw. destruct Hw as [Hc Hw].
  cbn [app] in Hm. cbn [app]. rewrite sub_from_copy by exact Hm.
  rewrite last_char_cons. f_equal. now apply sub_from_inside.
Qed.

(** What follows a separator begins with that separator. *)
Lemma sub_from_word_after (prev : option ascii) (s : str) :
  Re.word_after s = false ->
  Re.word_after (Re.sub_from r repl prev 0 s) = false.
Proof.
  destruct s as [|c s]; [reflexivity|]. intro Hc.
  change (Char.is_word c = false) in Hc.
  rewrite sub_from_copy by now apply anchored_sep. exact Hc.
Qed.

End Anchored.

(** ** Runs of word characters *)

Lemma take_drop_word (s : str) :
  s = take_word s ++ drop_word s
  /\ all_word (take_word s) = true
  /\ Re.word_after (drop_word s) = false.
Proof.
  induction s as [|c s (IH1 & IH2 & IH3)]; [now repeat split|].
  simpl. destruct (Char.is_word c) eqn:Hc; simpl.
  - rewrite Hc. repeat split; [now f_equal|exact IH2|exact IH3].
  - now repeat split.
Qed.

(** A text is empty, or begins with a separator, or begins with a maximal
    run of word characters. *)
Lemma str_cases (s : str) :
  s = []
  \/ (exists c s', s = c :: s' /\ Char.is_word c = false)
  \/ (exists w s', s = w ++ s' /\ w <> [] /\ all_word w = true
                   /\ Re.word_after s' = false).
Proof.
  destruct s as [|c s]; [now left|]. right.
  destruct (Char.is_word c) eqn:Hc; [right|left; now exists c, s].
  destruct (take_drop_word (c :: s)) as (H1 & H2 & H3).
  exists (take_word (c :: s)), (drop_word (c :: s)).
  repeat split; try assumption. simpl. now rewrite Hc.
Qed.

(** The maximal run at the start of a text is determined by the text. *)
Lemma run_unique (w s w' s' : str) :
  all_word w = true -> Re.word_after s = false ->
  all_word w' = true -> Re.word_after s' = false ->
  w ++ s = w' ++ s' -> w = w' /\ s = s'.
Proof.
  revert w'. induction w as [|c w IH]; intros [|c' w'] Hw Hs Hw' Hs' E;
    simpl in *.
  - now split.
  - subst s. simpl in Hs. apply andb_prop in Hw'. destruct Hw'. congruence.
  - subst s'. simpl in Hs'. apply andb_prop in Hw. destruct Hw. congruence.
  - injection E as -> E. apply andb_prop in Hw, Hw'.
    destruct Hw as [_ Hw], Hw' as [_ Hw'].
    destruct (IH w' Hw Hs Hw' Hs' E) as [-> ->]. now split.
Qed.

Section Runs.

Variable good : str -> bool.

Lemma runs_ok_run_inv (w s : str) :
  runs_ok good (w ++ s) -> w <> [] -> all_word w = true ->
  Re.word_after s = false -> good w = true /\ runs_ok good s.
Proof.
  intros H Hne Hw Hs. inversion H as [E|c s0 Hc H0 E|w0 s0 Hne0 Hw0 Hs0 Hg H0 E].
  - symmetry in E. apply app_eq_nil in E. now destruct E.
  - destruct w as [|d w]; [congruence|]. simpl in *.
    injection E as -> _. apply andb_prop in Hw. destruct Hw. congruence.
  - destruct (run_unique _ _ _ _ Hw0 Hs0 Hw Hs E) as [-> ->]. now split.
Qed.

Lemma runs_ok_sep_inv (c : ascii) (s : str) :
  runs_ok good (c :: s) -> Char.is_word c = false -> runs_ok good s.
Proof.
  intros H Hc. inversion H as [|c0 s0 Hc0 H0 E|w0 s0 Hne0 Hw0 Hs0 Hg H0 E].
  - exact H0.
  - destruct w0 as [|d w0]; [congruence|]. simpl in *.
    injection E as -> _. apply andb_prop in Hw0. destruct Hw0. congruence.
Qed.

Lemma runs_ok_drop_seps (m s : str) :
  no_word m = true -> runs_ok good (m ++ s) -> runs_ok good s.
Proof.
  induction m as [|c m IH]; [auto|]. simpl. intros Hm H.
  apply andb_prop in Hm. destruct Hm as [Hc Hm].
  apply negb_true_iff in Hc. apply IH; [exact Hm|].
  now apply runs_ok_sep_inv with c.
Qed.

End Runs.

Lemma runs_ok_weaken (g g' : str -> bool) (s : str) :
  (forall w, g w = true -> g' w = true) -> runs_ok g s -> runs_ok g' s.
Proof.
  intro Hg. induction 1; constructor; auto.
Qed.

(** Every text reads as separators and runs. *)
Lemma runs_ok_any (s : str) : runs_ok (fun _ => true) s.
Proof.
  remember (length s) as n eqn:Hn. revert s Hn.
  induction n as [n IH] using lt_wf_ind. intros s ->.
  destruct (str_cases s) as [->|[(c & s' & -> & Hc)|(w & s' & -> & Hne & Hw & Hs)]].
  - constructor.
  - constructor; [exact Hc|]. apply (IH (length s')); simpl; [lia|reflexivity].
  - constructor; try assumption; [reflexivity|].
    apply (IH (length s')); [|reflexivity].
    rewrite length_app. destruct w; [congruence|simpl; lia].
Qed.

(** ** Matching a whole run *)

Lemma word_class_sep (cls : ascii -> bool) (rest : str) :
  word_class cls -> Re.word_after rest = false ->
  match rest with c :: _ => cls c | [] => false end = false.
Proof.
  intros Hcls Hrest. destruct rest as [|c rest]; [reflexivity|].
  destruct (cls c) eqn:E; [|reflexivity]. apply Hcls in E.
  simpl in Hrest. congruence.
Qed.

Section GreedyRun.

Variable cls : ascii -> bool.
Variable k : option ascii -> str -> option nat.
Variable test : str -> bool.
Hypothesis cls_word : word_class cls.
Hypothesis k_run :
  forall prev x rest,
    Re.word_before prev = true -> all_word x = true ->
    Re.word_after rest = false ->
    k prev (x ++ rest) = if test x then Some (length x) else None.

Lemma greedy_run (prev : option ascii) (x rest : str) :
  Re.word_before prev = true -> all_word x = true ->
  Re.word_after rest = false ->
  Re.greedy cls k prev (x ++ rest)
  = if star_test cls test x then Some (length x) else None.
Proof.
  revert prev. induction x as [|c x IH]; intros prev Hp Hx Hrest.
  - pose proof (k_run prev [] rest Hp eq_refl Hrest) as Hk.
    pose proof (word_class_sep _ rest cls_word Hrest) as Hc.
    cbn [app star_test length] in *. rewrite orb_false_r.
    destruct rest as [|c rest]; [exact Hk|].
    cbn [Re.greedy]. now rewrite Hc.
  - pose proof (k_run prev (c :: x) rest Hp Hx Hrest) as Hk.
    simpl in Hx. apply andb_prop in Hx. destruct Hx as [Hc Hx].
    cbn [app Re.greedy star_test]. cbn [app] in Hk.
    destruct (cls c); [|now rewrite andb_false_l, orb_false_r].
    rewrite (IH (Some c) Hc Hx Hrest), andb_true_l.
    destruct (star_test cls test x); [now rewrite orb_true_r|].
    now rewrite orb_false_r.
Qed.

End GreedyRun.

Lemma match_run (r : Re.regex) :
  run_pattern r ->
  forall prev x rest,
    Re.word_before prev = true \/ consuming r = true ->
    all_word x = true -> Re.word_after rest = false ->
    Re.match_here r prev (x ++ rest)
    = if run_test r x then Some (length x) else None.
Proof.
  induction r as [|a r IH]; [intros []|].
  intros Hr prev x rest Hstart Hx Hrest.
  destruct a as [cls|cls|cls| |].
  - (* One *)
    destruct Hr as [Hcls Hr]. cbn [Re.match_here run_test].
    destruct x as [|c x].
    + pose proof (word_class_sep _ rest Hcls Hrest) as Hc. simpl.
      destruct rest as [|c rest]; [reflexivity|]. now rewrite Hc.
    + simpl in Hx. apply andb_prop in Hx. destruct Hx as [Hc Hx].
      cbn [app]. destruct (cls c); [|reflexivity].
      rewrite (IH Hr (Some c) x rest (or_introl Hc) Hx Hrest).
      now destruct (run_test r x).
  - (* Star *)
    destruct Hr as [Hcls Hr]. cbn [Re.match_here run_test].
    destruct Hstart as [Hp|Hp]; [|discriminate].
    apply greedy_run; try assumption.
    intros p y rest' Hp' Hy Hrest'. now apply IH; [|left| |].
  - (* Plus *)
    destruct Hr as [Hcls Hr]. cbn [Re.match_here run_test].
    destruct x as [|c x].
    + pose proof (word_class_sep _ rest Hcls Hrest) as Hc. simpl.
      destruct rest as [|c rest]; [reflexivity|]. now rewrite Hc.
    + simpl in Hx. apply andb_prop in Hx. destruct Hx as [Hc Hx].
      cbn [app]. destruct (cls c); [|reflexivity].
      rewrite (greedy_run cls (Re.match_here r) (run_test r) Hcls) by
        (try assumption;
         intros p y rest' Hp' Hy Hrest'; now apply IH; [|left| |]).
      now destruct (star_test cls (run_test r) x).
  - (* WordB *)
    destruct r as [|b r]; [|destruct Hr].
    destruct Hstart as [Hp|Hp]; [|discriminate].
    cbn [Re.match_here run_test]. unfold Re.at_boundary. rewrite Hp.
    destruct x as [|c x].
    + simpl. now rewrite Hrest.
    + simpl in Hx. apply andb_prop in Hx. destruct Hx as [Hc Hx].
      simpl. now rewrite Hc.
  - destruct Hr.
Qed.

(** ** Patterns that match whole runs *)

Lemma whole_run_of_body (body : Re.regex) :
  run_pattern body -> consuming body = true ->
  whole_run (Re.WordB :: body) (run_test body).
Proof.
  intros Hbody Hcons prev w s Hp Hne Hw Hs.
  cbn [Re.match_here]. unfold Re.at_boundary.
  rewrite Hp, (word_after_app _ _ Hne Hw). cbn [xorb].
  now apply match_run; [|right| |].
Qed.

Lemma prev_not_word (prev : option ascii) (w s : str) :
  (Re.word_before prev = true -> Re.word_after (w ++ s) = false) ->
  w <> [] -> all_word w = true -> Re.word_before prev = false.
Proof.
  intros H Hne Hw. destruct (Re.word_before prev); [|reflexivity].
  rewrite (word_after_app _ _ Hne Hw) in H. now apply H.
Qed.

Section WholeRun.

Variable r : Re.regex.
Variable repl : str.
Variable test : str -> bool.
Variable good : str -> bool.

Let good' (w : str) : bool := good w && negb (test w).

Hypothesis r_anchored : anchored r.
Hypothesis r_whole : whole_run r test.
Hypothesis repl_ok :
  forall X, runs_ok good' X -> Re.word_after X = false ->
            runs_ok good' (repl ++ X).

(** The substitution replaces the runs that pass [test] and copies the
    rest of the text. *)
Lemma sub_whole_run (s : str) :
  runs_ok good s ->
  forall prev,
    (Re.word_before prev = true -> Re.word_after s = false) ->
    runs_ok good' (Re.sub_from r repl prev 0 s).
Proof.
  induction 1 as [|c s Hc Hs IH|w s Hne Hw Hafter Hg Hs IH];
    intros prev Hprev.
  - constructor.
  - rewrite sub_from_copy by now apply anchored_sep.
    constructor; [exact Hc|]. apply IH. simpl. rewrite Hc. discriminate.
  - pose proof (prev_not_word _ _ _ Hprev Hne Hw) as Hp.
    pose proof (r_whole prev w s Hp Hne Hw Hafter) as Hm.
    assert (HX : runs_ok good'
                   (Re.sub_from r repl (last_char prev w) 0 s))
      by (apply IH; auto).
    assert (HXa : Re.word_after
                    (Re.sub_from r repl (last_char prev w) 0 s) = false)
      by now apply sub_from_word_after.
    destruct (test w) eqn:Ht.
    + rewrite sub_from_match by assumption. now apply repl_ok.
    + rewrite sub_from_run by assumption.
      constructor; try assumption. unfold good'. now rewrite Hg, Ht.
Qed.

End WholeRun.

Section Identity.

Variable r : Re.regex.
Variable repl : str.
Variable good : str -> bool.

Hypothesis r_anchored : anchored r.
Hypothesis r_none :
  forall prev w s,
    Re.word_before prev = false -> w <> [] -> all_word w = true ->
    Re.word_after s = false -> good w = true ->
    Re.match_here r prev (w ++ s) = None.

(** Where no run can match, the substitution changes nothing. *)
Lemma sub_from_id (s : str) :
  runs_ok good s ->
  forall prev,
    (Re.word_before prev = true -> Re.word_after s = false) ->
    Re.sub_from r repl prev 0 s = s.
Proof.
  induction 1 as [|c s Hc Hs IH|w s Hne Hw Hafter Hg Hs IH];
    intros prev Hprev.
  - reflexivity.
  - rewrite sub_from_copy by now apply anchored_sep.
    f_equal. apply IH. simpl. rewrite Hc. discriminate.
  - pose proof (prev_not_word _ _ _ Hprev Hne Hw) as Hp.
    rewrite sub_from_run by (try assumption; now apply r_none).
    f_equal. apply IH. auto.
Qed.

End Identity.

(** ** A run of digits followed by a separator *)

Section RunThen.

Variable cls : ascii -> bool.
Variable kr : Re.regex.
Hypothesis cls_word : word_class cls.
Hypothesis kr_sep :
  forall p c s, Char.is_word c = true -> Re.match_here kr p (c :: s) = None.

Lemma greedy_end_only (prev : option ascii) (x rest : str) :
  all_word x = true -> Re.word_after rest = false ->
  Re.greedy cls (Re.match_here kr) prev (x ++ rest)
  = if forallb cls x
    then option_map (Nat.add (length x))
           (Re.match_here kr (last_char prev x) rest)
    else None.
Proof.
  revert prev. induction x as [|c x IH]; intros prev Hx Hrest.
  - pose proof (word_class_sep _ rest cls_word Hrest) as Hc.
    cbn [app forallb length last_char fold_left].
    assert (E : forall o : option nat, option_map (Nat.add 0) o = o)
      by now intros [n|].
    rewrite E. destruct rest as [|c rest]; [reflexivity|].
    cbn [Re.greedy]. now rewrite Hc.
  - simpl in Hx. apply andb_prop in Hx. destruct Hx as [Hc Hx].
    cbn [app Re.greedy forallb]. rewrite (kr_sep prev c _ Hc).
    destruct (cls c); [|reflexivity]. rewrite (IH (Some c) Hx Hrest).
    rewrite last_char_cons. cbn [andb length].
    destruct (forallb cls x); [|reflexivity].
    now destruct (Re.match_here kr (last_char (Some c) x) rest).
Qed.

Lemma match_run_then (prev : option ascii) (w s : str) :
  Re.word_before prev = false -> w <> [] -> all_word w = true ->
  Re.word_after s = false ->
  Re.match_here (Re.WordB :: Re.Plus cls :: kr) prev (w ++ s)
  = if forallb cls w
    then option_map (Nat.add (length w))
           (Re.match_here kr (last_char prev w) s)
    else None.
Proof.
  intros Hp Hne Hw Hs. cbn [Re.match_here]. unfold Re.at_boundary.
  rewrite Hp, (word_after_app _ _ Hne Hw). cbn [xorb].
  destruct w as [|c w]; [congruence|].
  simpl in Hw. apply andb_prop in Hw. destruct Hw as [Hc Hw].
  cbn [app forallb]. destruct (cls c); [|reflexivity].
  rewrite greedy_end_only by assumption. rewrite last_char_cons.
  cbn [andb length]. destruct (forallb cls w); [|reflexivity].
  now destruct (Re.match_here kr (last_char (Some c) w) s).
Qed.

End RunThen.
(** ** The five patterns for location tokens *)

Lemma upper_is_word : word_class Char.is_upper_az.
Proof. intro c. by_cases_on_char c. Qed.

Lemma digit_is_word : word_class Char.is_digit.
Proof. intro c. by_cases_on_char c. Qed.

Lemma letter_is_word (x : ascii) :
  Char.is_word x = true -> word_class (Char.is_char x).
Proof. intros Hx c Hc. apply is_char_eq in Hc. now subst. Qed.

Lemma not_letter_fails (x : ascii) (r : Re.regex) :
  Char.is_word x = false ->
  forall p c s,
    Char.is_word c = true ->
    Re.match_here (Re.One (Char.is_char x) :: r) p (c :: s) = None.
Proof.
  intros Hx p c s Hc. simpl.
  destruct (Char.is_char x c) eqn:E; [|reflexivity].
  apply is_char_eq in E. subst. congruence.
Qed.

Lemma site_code_anchored : anchored re_site_code.
Proof. eexists _, _. split; [reflexivity|apply upper_is_word]. Qed.

Lemma decimal_anchored : anchored re_decimal.
Proof. eexists _, _. split; [reflexivity|apply digit_is_word]. Qed.

Lemma integer_anchored : anchored re_integer.
Proof. eexists _, _. split; [reflexivity|apply digit_is_word]. Qed.

Lemma dbm_anchored : anchored re_dbm.
Proof. eexists _, _. split; [reflexivity|apply digit_is_word]. Qed.

Lemma percent_anchored : anchored re_percent.
Proof. eexists _, _. split; [reflexivity|apply digit_is_word]. Qed.

Lemma site_code_whole : whole_run re_site_code site_code.
Proof.
  apply (whole_run_of_body site_code_body); [|reflexivity].
  simpl. auto using upper_is_word, digit_is_word.
Qed.

Lemma integer_whole : whole_run re_integer digits_only.
Proof.
  apply (whole_run_of_body integer_body); [|reflexivity].
  simpl. auto using digit_is_word.
Qed.

Lemma dbm_whole : whole_run re_dbm signal_level.
Proof.
  apply (whole_run_of_body dbm_body); [|reflexivity].
  simpl. repeat split; try apply digit_is_word;
    now apply letter_is_word.
Qed.

(** A non-empty run of digits is a number. *)
Lemma all_digits_digits_only (w : str) :
  w <> [] -> forallb Char.is_digit w = true -> digits_only w = true.
Proof.
  destruct w as [|c w]; [congruence|]. intros _ H.
  simpl in H. apply andb_prop in H. destruct H as [Hc Hw].
  unfold digits_only. simpl. rewrite Hc. simpl.
  induction w as [|d w IH]; [reflexivity|].
  simpl in Hw. apply andb_prop in Hw. destruct Hw as [Hd Hw].
  simpl. rewrite Hd. simpl. now apply IH.
Qed.

Lemma not_digits_only (w : str) :
  w <> [] -> digits_only w = false -> forallb Char.is_digit w = false.
Proof.
  intros Hne H. destruct (forallb Char.is_digit w) eqn:E; [|reflexivity].
  rewrite (all_digits_digits_only w Hne E) in H. discriminate.
Qed.

(** At a run that is not a number, [\b\d+\.\d+\b] and [\b\d+%\b] find
    nothing. *)
Lemma decimal_none (prev : option ascii) (w s : str) :
  Re.word_before prev = false -> w <> [] -> all_word w = true ->
  Re.word_after s = false -> digits_only w = false ->
  Re.match_here re_decimal prev (w ++ s) = None.
Proof.
  intros Hp Hne Hw Hs Hd. unfold re_decimal.
  rewrite match_run_then; try assumption.
  - now rewrite (not_digits_only w Hne Hd).
  - apply digit_is_word.
  - now apply not_letter_fails.
Qed.

Lemma percent_none (prev : option ascii) (w s : str) :
  Re.word_before prev = false -> w <> [] -> all_word w = true ->
  Re.word_after s = false -> digits_only w = false ->
  Re.match_here re_percent prev (w ++ s) = None.
Proof.
  intros Hp Hne Hw Hs Hd. unfold re_percent.
  rewrite match_run_then; try assumption.
  - now rewrite (not_digits_only w Hne Hd).
  - apply digit_is_word.
  - now apply not_letter_fails.
Qed.

Lemma plain_parts (w : str) :
  plain w = true ->
  site_code w = false /\ digits_only w = false /\ signal_level w = false.
Proof.
  unfold plain. intro H.
  apply andb_prop in H. destruct H as [H H3].
  apply andb_prop in H. destruct H as [H1 H2].
  now rewrite !negb_true_iff in *.
Qed.

(** On a text whose runs are plain, the five substitutions change
    nothing. *)
Lemma plain_text_fixed (s : str) :
  runs_ok plain s ->
  Re.sub re_site_code (txt "the area") s = s
  /\ Re.sub re_decimal [] s = s
  /\ Re.sub re_integer [] s = s
  /\ Re.sub re_dbm (txt "current signal level") s = s
  /\ Re.sub re_percent [] s = s.
Proof.
  intro H. unfold Re.sub.
  repeat split;
    (eapply sub_from_id; [| |exact H|discriminate]);
    try (intros prev w s' Hp Hne Hw Hs Hg;
         apply plain_parts in Hg; destruct Hg as (H1 & H2 & H3)).
  - apply site_code_anchored.
  - rewrite site_code_whole by assumption. now rewrite H1.
  - apply decimal_anchored.
  - now apply decimal_none.
  - apply integer_anchored.
  - rewrite integer_whole by assumption. now rewrite H2.
  - apply dbm_anchored.
  - rewrite dbm_whole by assumption. now rewrite H3.
  - apply percent_anchored.
  - now apply percent_none.
Qed.

(** ** The first pass over an arbitrary text *)

Lemma match_here_One (cls : ascii -> bool) (r : Re.regex)
    (p : option ascii) (c : ascii) (s : str) :
  Re.match_here (Re.One cls :: r) p (c :: s)
  = if cls c then option_map S (Re.match_here r (Some c) s) else None.
Proof. reflexivity. Qed.

(** What [\b\d+\.\d+\b] matches at the start of a run: the run, a dot
    and the whole of the next run. *)
Lemma decimal_match (prev : option ascii) (w s : str) (n : nat) :
  Re.word_before prev = false -> w <> [] -> all_word w = true ->
  Re.word_after s = false ->
  Re.match_here re_decimal prev (w ++ s) = Some n ->
  exists x rest,
    s = dot :: x ++ rest /\ x <> [] /\ all_word x = true
    /\ Re.word_after rest = false /\ n = length (w ++ dot :: x).
Proof.
  intros Hp Hne Hw Hs. unfold re_decimal.
  rewrite match_run_then; try assumption;
    [|apply digit_is_word|now apply not_letter_fails].
  destruct (forallb Char.is_digit w); [|discriminate].
  destruct (Re.match_here _ (last_char prev w) s) as [m|] eqn:E;
    [|discriminate].
  intros [= <-]. destruct s as [|c s2]; [discriminate|].
  rewrite match_here_One in E.
  destruct (Char.is_char dot c) eqn:Hc; [|discriminate].
  apply is_char_eq in Hc. subst c.
  destruct (take_drop_word s2) as (H1 & H2 & H3).
  change [Re.Plus Char.is_digit; Re.WordB] with integer_body in E.
  rewrite H1 in E.
  rewrite (match_run integer_body) in E;
    [|simpl; auto using digit_is_word|now right|assumption|assumption].
  destruct (run_test integer_body (take_word s2)) eqn:Ht;
    [|discriminate].
  injection E as <-.
  exists (take_word s2), (drop_word s2).
  repeat split; try assumption.
  - now f_equal.
  - intro H0. rewrite H0 in Ht. discriminate.
  - rewrite length_app. simpl. lia.
Qed.

(** Removing the decimal numbers leaves the other runs as they are. *)
Lemma sub_decimal_runs (good : str -> bool) (s : str) :
  runs_ok good s ->
  forall prev,
    (Re.word_before prev = true -> Re.word_after s = false) ->
    runs_ok good (Re.sub_from re_decimal [] prev 0 s).
Proof.
  remember (length s) as n eqn:Hn. revert s Hn.
  induction n as [n IH] using lt_wf_ind. intros s -> Hs prev Hprev.
  destruct (str_cases s)
    as [->|[(c & s' & -> & Hc)|(w & s' & -> & Hne & Hw & Hafter)]].
  - constructor.
  - rewrite sub_from_copy by (apply anchored_sep;
      [apply decimal_anchored|exact Hc]).
    constructor; [exact Hc|].
    apply (IH (length s')); [simpl; lia|reflexivity| |].
    + now apply runs_ok_sep_inv with c.
    + simpl. rewrite Hc. discriminate.
  - pose proof (prev_not_word _ _ _ Hprev Hne Hw) as Hp.
    destruct (runs_ok_run_inv _ _ _ Hs Hne Hw Hafter) as [Hg Hs'].
    assert (Hlen : length s' < length (w ++ s')).
    { rewrite length_app. destruct w; [congruence|simpl; lia]. }
    destruct (Re.match_here re_decimal prev (w ++ s')) as [k|] eqn:E.
    + destruct (decimal_match _ _ _ _ Hp Hne Hw Hafter E)
        as (x & rest & -> & Hx & Hxw & Hrest & ->).
      change (w ++ dot :: x ++ rest) with (w ++ (dot :: x) ++ rest).
      rewrite app_assoc.
      rewrite sub_from_match; [|now destruct w|].
      * cbn [app]. apply (IH (length rest)); [|reflexivity| |auto].
        -- rewrite !length_app. simpl. rewrite length_app. lia.
        -- apply runs_ok_sep_inv in Hs'; [|reflexivity].
           now apply runs_ok_run_inv in Hs'.
      * rewrite <- app_assoc. exact E.
    + rewrite sub_from_run;
        [|apply decimal_anchored|assumption|assumption|exact E].
      constructor; try assumption.
      * apply sub_from_word_after; [apply decimal_anchored|exact Hafter].
      * apply (IH (length s')); auto.
Qed.

Lemma the_area_ok (good : str -> bool) (X : str) :
  good (txt "the") = true -> good (txt "area") = true ->
  runs_ok good X -> Re.word_after X = false ->
  runs_ok good (txt "the area" ++ X).
Proof.
  intros H1 H2 HX Ha.
  change (txt "the area" ++ X)
    with (txt "the" ++ " "%char :: txt "area" ++ X).
  constructor; [discriminate|reflexivity|reflexivity|exact H1|].
  constructor; [reflexivity|].
  constructor; [discriminate|reflexivity|exact Ha|exact H2|exact HX].
Qed.

Lemma signal_level_ok (good : str -> bool) (X : str) :
  good (txt "current") = true -> good (txt "signal") = true ->
  good (txt "level") = true ->
  runs_ok good X -> Re.word_after X = false ->
  runs_ok good (txt "current signal level" ++ X).
Proof.
  intros H1 H2 H3 HX Ha.
  change (txt "current signal level" ++ X)
    with (txt "current" ++ " "%char
          :: txt "signal" ++ " "%char :: txt "level" ++ X).
  constructor; [discriminate|reflexivity|reflexivity|exact H1|].
  constructor; [reflexivity|].
  constructor; [discriminate|reflexivity|reflexivity|exact H2|].
  constructor; [reflexivity|].
  constructor; [discriminate|reflexivity|exact Ha|exact H3|exact HX].
Qed.

(** After the five substitutions every run is plain. *)
Lemma location_tokens_removed (text : str) :
  runs_ok plain
    (Re.sub re_percent []
       (Re.sub re_dbm (txt "current signal level")
          (Re.sub re_integer []
             (Re.sub re_decimal []
                (Re.sub re_site_code (txt "the area") text))))).
Proof.
  pose (g1 := fun w => true && negb (site_code w)).
  pose (g3 := fun w => g1 w && negb (digits_only w)).
  pose (g4 := fun w => g3 w && negb (signal_level w)).
  assert (H1 : runs_ok g1 (Re.sub re_site_code (txt "the area") text)).
  { apply (sub_whole_run re_site_code (txt "the area") site_code
             (fun _ => true));
      [apply site_code_anchored|apply site_code_whole| |
       apply runs_ok_any|discriminate].
    intros X HX Ha. now apply the_area_ok. }
  assert (H2 : runs_ok g1
                 (Re.sub re_decimal []
                    (Re.sub re_site_code (txt "the area") text))).
  { apply sub_decimal_runs; [exact H1|discriminate]. }
  assert (H3 : runs_ok g3
                 (Re.sub re_integer []
                    (Re.sub re_decimal []
                       (Re.sub re_site_code (txt "the area") text)))).
  { apply (sub_whole_run re_integer [] digits_only g1);
      [apply integer_anchored|apply integer_whole| |exact H2|discriminate].
    intros X HX _. exact HX. }
  assert (H4 : runs_ok g4
                 (Re.sub re_dbm (txt "current signal level")
                    (Re.sub re_integer []
                       (Re.sub re_decimal []
                          (Re.sub re_site_code (txt "the area") text))))).
  { apply (sub_whole_run re_dbm (txt "current signal level")
             signal_level g3);
      [apply dbm_anchored|apply dbm_whole| |exact H3|discriminate].
    intros X HX Ha. now apply signal_level_ok. }
  assert (Hplain : forall w, g4 w = true -> plain w = true).
  { intros w. unfold g4, g3, g1, plain. now rewrite andb_true_l. }
  assert (H5 : Re.sub re_percent []
                 (Re.sub re_dbm (txt "current signal level")
                    (Re.sub re_integer []
                       (Re.sub re_decimal []
                          (Re.sub re_site_code (txt "the area") text))))
               = Re.sub re_dbm (txt "current signal level")
                   (Re.sub re_integer []
                      (Re.sub re_decimal []
                         (Re.sub re_site_code (txt "the area") text)))).
  { apply (sub_from_id re_percent [] g4);
      [apply percent_anchored| |exact H4|discriminate].
    intros prev w s Hp Hne Hw Hs Hg. apply Hplain, plain_parts in Hg.
    now apply percent_none. }
  rewrite H5. now apply runs_ok_weaken with g4.
Qed.

(** ** Patterns over separators *)

Lemma sub_from_copy0 (r : Re.regex) (repl : str) (prev : option ascii)
    (c : ascii) (s : str) :
  Re.match_here r prev (c :: s) = Some 0 ->
  Re.sub_from r repl prev 0 (c :: s)
  = c :: Re.sub_from r repl (Some c) 0 s.
Proof. intro H. simpl. now rewrite H. Qed.

Section SepGreedy.

Variable cls : ascii -> bool.
Variable k : option ascii -> str -> option nat.
Hypothesis cls_sep : sep_class cls.
Hypothesis k_span :
  forall p s n, k p s = Some n ->
                n <= length s /\ no_word (firstn n s) = true.

Lemma greedy_span (p : option ascii) (s : str) (n : nat) :
  Re.greedy cls k p s = Some n ->
  n <= length s /\ no_word (firstn n s) = true.
Proof.
  revert p n. induction s as [|c s IH]; intros p n H.
  - now apply k_span in H.
  - cbn [Re.greedy] in H. destruct (cls c) eqn:Hc; [|now apply k_span in H].
    destruct (Re.greedy cls k (Some c) s) as [m|] eqn:E;
      [|now apply k_span in H].
    injection H as <-. destruct (IH _ _ E) as [Hle Hm].
    split; [simpl; lia|]. simpl. rewrite Hm, (cls_sep c Hc). reflexivity.
Qed.

End SepGreedy.

(** A match of a pattern over separators holds separators only. *)
Lemma sep_match_span (r : Re.regex) :
  sep_pattern r ->
  forall p s n,
    Re.match_here r p s = Some n ->
    n <= length s /\ no_word (firstn n s) = true.
Proof.
  induction r as [|a r IH]; intros Hr p s n H.
  - injection H as <-. split; [lia|reflexivity].
  - destruct a as [cls|cls|cls| |]; try destruct Hr as [Hcls Hr].
    + destruct s as [|c s]; [discriminate|]. rewrite match_here_One in H.
      destruct (cls c) eqn:Hc; [|discriminate].
      destruct (Re.match_here r (Some c) s) as [m|] eqn:E; [|discriminate].
      injection H as <-. destruct (IH Hr _ _ _ E) as [Hle Hm].
      split; [simpl; lia|]. simpl. rewrite Hm, (Hcls c Hc). reflexivity.
    + cbn [Re.match_here] in H.
      apply (greedy_span cls (Re.match_here r) Hcls (IH Hr)) in H.
      exact H.
    + destruct s as [|c s]; [discriminate|]. cbn [Re.match_here] in H.
      destruct (cls c) eqn:Hc; [|discriminate].
      destruct (Re.greedy cls (Re.match_here r) (Some c) s) as [m|] eqn:E;
        [|discriminate].
      injection H as <-.
      apply (greedy_span cls (Re.match_here r) Hcls (IH Hr)) in E.
      destruct E as [Hle Hm].
      split; [simpl; lia|]. simpl. rewrite Hm, (Hcls c Hc). reflexivity.
    + destruct Hr.
    + destruct Hr.
Qed.

Section SepPattern.

Variable r : Re.regex.
Variable c0 : ascii.
Hypothesis r_sep : sep_pattern r.
Hypothesis r_consuming : consuming r = true.
Hypothesis c0_sep : Char.is_word c0 = false.

Lemma sep_match_word (prev : option ascii) (c : ascii) (s : str) :
  Char.is_word c = true -> Re.match_here r prev (c :: s) = None.
Proof.
  intro Hc. destruct r as [|[cls|cls|cls| |] r']; try discriminate;
    destruct r_sep as [Hcls _]; cbn [Re.match_here];
    (destruct (cls c) eqn:E; [|reflexivity]);
    apply Hcls in E; congruence.
Qed.

Lemma sub_sep_copy_run (prev : option ascii) (w s : str) :
  all_word w = true ->
  Re.sub_from r [c0] prev 0 (w ++ s)
  = w ++ Re.sub_from r [c0] (last_char prev w) 0 s.
Proof.
  revert prev. induction w as [|c w IH]; intros prev Hw; [reflexivity|].
  simpl in Hw. apply andb_prop in Hw. destruct Hw as [Hc Hw].
  cbn [app]. rewrite sub_from_copy by now apply sep_match_word.
  rewrite last_char_cons. f_equal. now apply IH.
Qed.

(** A substitution over separators leaves the runs as they are. *)
Lemma sub_sep_runs (good : str -> bool) (s : str) :
  runs_ok good s ->
  forall prev,
    runs_ok good (Re.sub_from r [c0] prev 0 s)
    /\ (Re.word_after s = false ->
        Re.word_after (Re.sub_from r [c0] prev 0 s) = false).
Proof.
  remember (length s) as n eqn:Hn. revert s Hn.
  induction n as [n IH] using lt_wf_ind. intros s -> Hs prev.
  destruct (str_cases s)
    as [->|[(c & s' & -> & Hc)|(w & s' & -> & Hne & Hw & Hafter)]].
  - split; [constructor|reflexivity].
  - assert (Hs' : runs_ok good s') by now apply runs_ok_sep_inv with c.
    assert (Hcopy : runs_ok good (c :: Re.sub_from r [c0] (Some c) 0 s')
                    /\ (Re.word_after (c :: s') = false ->
                        Re.word_after
                          (c :: Re.sub_from r [c0] (Some c) 0 s') = false)).
    { split; [|auto]. constructor; [exact Hc|].
      apply (IH (length s')); [simpl; lia|reflexivity|exact Hs']. }
    destruct (Re.match_here r prev (c :: s')) as [[|k]|] eqn:E.
    + now rewrite sub_from_copy0.
    + destruct (sep_match_span r r_sep _ _ _ E) as [Hle Hm].
      rewrite <- (firstn_skipn (S k) (c :: s')) in E |- *.
      rewrite <- (firstn_skipn (S k) (c :: s')) in Hs.
      set (m := firstn (S k) (c :: s')) in *.
      set (rest := skipn (S k) (c :: s')) in *.
      assert (Hlen : length m = S k) by (apply firstn_length_le; exact Hle).
      rewrite sub_from_match;
        [|intro H0; rewrite H0 in Hlen; discriminate|now rewrite Hlen].
      assert (Hrest : runs_ok good rest)
        by now apply runs_ok_drop_seps with m.
      assert (Hshort : length rest < length (c :: s')).
      { unfold rest. rewrite length_skipn. simpl. lia. }
      split; [|intros _; simpl; exact c0_sep].
      constructor; [exact c0_sep|].
      now apply (IH (length rest)).
    + now rewrite sub_from_copy.
  - destruct (runs_ok_run_inv _ _ _ Hs Hne Hw Hafter) as [Hg Hs'].
    assert (Hlen : length s' < length (w ++ s')).
    { rewrite length_app. destruct w; [congruence|simpl; lia]. }
    rewrite sub_sep_copy_run by exact Hw.
    destruct (IH (length s') Hlen s' eq_refl Hs' (last_char prev w))
      as [H1 H2].
    split.
    + constructor; auto.
    + rewrite !(word_after_app _ _ Hne Hw). discriminate.
Qed.

End SepPattern.

(** ** Trimming *)

Lemma space_not_word (c : ascii) :
  Char.is_space c = true -> Char.is_word c = false.
Proof. by_cases_on_char c. Qed.

Lemma runs_ok_drop_last (good : str -> bool) (s : str) (c : ascii) :
  Char.is_word c = false -> runs_ok good (s ++ [c]) -> runs_ok good s.
Proof.
  intro Hc. remember (length s) as n eqn:Hn. revert s Hn.
  induction n as [n IH] using lt_wf_ind. intros s -> Hs.
  destruct (str_cases s)
    as [->|[(d & s' & -> & Hd)|(w & s' & -> & Hne & Hw & Hafter)]].
  - constructor.
  - cbn [app] in Hs. apply runs_ok_sep_inv in Hs; [|exact Hd].
    constructor; [exact Hd|].
    now apply (IH (length s')); [simpl; lia| |].
  - rewrite <- app_assoc in Hs.
    assert (Hafter' : Re.word_after (s' ++ [c]) = false)
      by (destruct s'; [exact Hc|exact Hafter]).
    apply runs_ok_run_inv in Hs; try assumption. destruct Hs as [Hg Hs].
    constructor; try assumption.
    apply (IH (length s')); [|reflexivity|exact Hs].
    rewrite length_app. destruct w; [congruence|simpl; lia].
Qed.

Lemma lstrip_suffix (s : str) :
  exists t, s = t ++ lstrip s /\ forallb Char.is_space t = true.
Proof.
  induction s as [|c s (t & Ht & Hb)]; [now exists []|].
  simpl. destruct (Char.is_space c) eqn:Hc.
  - exists (c :: t). simpl. rewrite Hc, Hb. split; [now f_equal|reflexivity].
  - now exists [].
Qed.

Lemma rstrip_prefix (s : str) :
  exists t, s = rstrip s ++ t /\ forallb Char.is_space t = true.
Proof.
  unfold rstrip. destruct (lstrip_suffix (rev s)) as (t & Ht & Hb).
  exists (rev t). split.
  - rewrite <- rev_app_distr, <- Ht. now rewrite rev_involutive.
  - apply forallb_forall. intros x Hx. apply in_rev in Hx.
    exact (proj1 (forallb_forall _ _) Hb x Hx).
Qed.

Lemma runs_ok_lstrip (good : str -> bool) (s : str) :
  runs_ok good s -> runs_ok good (lstrip s).
Proof.
  induction s as [|c s IH]; [auto|]. simpl. intro H.
  destruct (Char.is_space c) eqn:Hc; [|exact H].
  apply IH. apply runs_ok_sep_inv with c; [exact H|].
  now apply space_not_word.
Qed.

Lemma runs_ok_drop_blank (good : str -> bool) (a t : str) :
  forallb Char.is_space t = true -> runs_ok good (a ++ t) ->
  runs_ok good a.
Proof.
  induction t as [|c t IH] using rev_ind; [now rewrite app_nil_r|].
  rewrite forallb_app. intro H. apply andb_prop in H.
  destruct H as [Ht Hc]. simpl in Hc. rewrite andb_true_r in Hc.
  rewrite app_assoc. intro H. apply IH; [exact Ht|].
  apply runs_ok_drop_last with c; [now apply space_not_word|exact H].
Qed.

Lemma runs_ok_strip (good : str -> bool) (s : str) :
  runs_ok good s -> runs_ok good (strip s).
Proof.
  intro H. unfold strip. apply runs_ok_lstrip in H.
  destruct (rstrip_prefix (lstrip s)) as (t & Ht & Hb).
  rewrite Ht in H. now apply runs_ok_drop_blank with t.
Qed.

(** ** White space and commas *)

Lemma no_adjacent_suffix (p q : ascii -> bool) (a b : str) :
  no_adjacent p q (a ++ b) = true -> no_adjacent p q b = true.
Proof.
  induction a as [|c a IH]; [auto|]. cbn [app no_adjacent]. intro H.
  apply andb_prop in H. now apply IH.
Qed.

Lemma no_adjacent_prefix (p q : ascii -> bool) (a b : str) :
  no_adjacent p q (a ++ b) = true -> no_adjacent p q a = true.
Proof.
  induction a as [|c a IH]; [auto|]. cbn [app no_adjacent]. intro H.
  apply andb_prop in H. destruct H as [H1 H2]. rewrite (IH H2), andb_true_r.
  destruct a as [|d a]; [|exact H1]. simpl. now rewrite andb_false_r.
Qed.

Lemma single_spaced_suffix (a b : str) :
  single_spaced (a ++ b) = true -> single_spaced b = true.
Proof.
  induction a as [|c a IH]; [auto|]. cbn [app single_spaced]. intro H.
  apply andb_prop in H. now apply IH.
Qed.

Lemma single_spaced_prefix (a b : str) :
  single_spaced (a ++ b) = true -> single_spaced a = true.
Proof.
  induction a as [|c a IH]; [auto|]. cbn [app single_spaced]. intro H.
  apply andb_prop in H. destruct H as [H1 H2]. rewrite (IH H2), andb_true_r.
  destruct a as [|d a]; [|exact H1]. simpl.
  apply orb_prop in H1. destruct H1 as [->|H1]; [reflexivity|].
  apply andb_prop in H1. destruct H1 as [-> _]. now rewrite orb_true_r.
Qed.

Lemma single_spaced_strip (s : str) :
  single_spaced s = true -> single_spaced (strip s) = true.
Proof.
  intro H. unfold strip.
  destruct (lstrip_suffix s) as (t & Ht & _).
  destruct (rstrip_prefix (lstrip s)) as (t' & Ht' & _).
  rewrite Ht in H. apply single_spaced_suffix in H.
  rewrite Ht' in H. now apply single_spaced_prefix in H.
Qed.

Lemma no_adjacent_strip (p q : ascii -> bool) (s : str) :
  no_adjacent p q s = true -> no_adjacent p q (strip s) = true.
Proof.
  intro H. unfold strip.
  destruct (lstrip_suffix s) as (t & Ht & _).
  destruct (rstrip_prefix (lstrip s)) as (t' & Ht' & _).
  rewrite Ht in H. apply no_adjacent_suffix in H.
  rewrite Ht' in H. now apply no_adjacent_prefix in H.
Qed.

Lemma sub_head_not_space (r : Re.regex) (c0 : ascii)
    (prev : option ascii) (s : str) :
  Char.is_space c0 = false -> starts Char.is_space s = false ->
  starts Char.is_space (Re.sub_from r [c0] prev 0 s) = false.
Proof.
  intros H0 Hs. destruct s as [|c s]; [reflexivity|].
  cbn [Re.sub_from]. destruct (Re.match_here r prev (c :: s)) as [[|n]|];
    simpl; assumption.
Qed.

(** A substitution that writes one character, not a white-space one,
    over separators keeps a text single-spaced. *)
Lemma sub_sep_single_spaced (r : Re.regex) (c0 : ascii) :
  sep_pattern r -> Char.is_space c0 = false ->
  forall s, single_spaced s = true ->
  forall prev, single_spaced (Re.sub_from r [c0] prev 0 s) = true.
Proof.
  intros Hr H0 s. remember (length s) as n eqn:Hn. revert s Hn.
  induction n as [n IH] using lt_wf_ind. intros s -> Hs prev.
  destruct s as [|c s]; [reflexivity|].
  assert (Hcopy : single_spaced (c :: Re.sub_from r [c0] (Some c) 0 s)
                  = true).
  { cbn [single_spaced] in Hs |- *. apply andb_prop in Hs.
    destruct Hs as [H1 H2].
    rewrite (IH (length s)) by (simpl; auto). rewrite andb_true_r.
    apply orb_prop in H1. destruct H1 as [->|H1]; [reflexivity|].
    apply andb_prop in H1. destruct H1 as [-> H1]. cbn [andb].
    apply negb_true_iff in H1.
    rewrite (sub_head_not_space r c0 (Some c) s H0 H1).
    now rewrite orb_true_r. }
  destruct (Re.match_here r prev (c :: s)) as [[|k]|] eqn:E.
  - now rewrite sub_from_copy0.
  - destruct (sep_match_span r Hr _ _ _ E) as [Hle _].
    rewrite <- (firstn_skipn (S k) (c :: s)) in E, Hs |- *.
    set (m := firstn (S k) (c :: s)) in *.
    set (rest := skipn (S k) (c :: s)) in *.
    assert (Hlen : length m = S k) by (apply firstn_length_le; exact Hle).
    rewrite sub_from_match;
      [|intro Hm; rewrite Hm in Hlen; discriminate|now rewrite Hlen].
    cbn [app single_spaced]. rewrite H0. cbn [negb orb andb].
    apply (IH (length rest)); [|reflexivity|].
    + unfold rest. rewrite length_skipn. simpl. lia.
    + now apply single_spaced_suffix with m.
  - now rewrite sub_from_copy.
Qed.

Lemma greedy_spaces (cls : ascii -> bool) (p : option ascii) (s : str) :
  exists n,
    Re.greedy cls (Re.match_here []) p s = Some n
    /\ n <= length s /\ starts cls (skipn n s) = false.
Proof.
  revert p. induction s as [|c s IH]; intro p.
  - exists 0. repeat split; auto.
  - cbn [Re.greedy]. destruct (cls c) eqn:Hc.
    + destruct (IH (Some c)) as (n & -> & Hle & Hn).
      exists (S n). repeat split; [simpl; lia|exact Hn].
    + exists 0. repeat split; [lia|exact Hc].
Qed.

Lemma spaces_match (p : option ascii) (c : ascii) (s : str) :
  Re.match_here re_spaces p (c :: s)
  = if Char.is_space c
    then option_map S
           (Re.greedy Char.is_space (Re.match_here []) (Some c) s)
    else None.
Proof. reflexivity. Qed.

(** After [\s+] is replaced by a space the text is single-spaced. *)
Lemma sub_spaces_single_spaced (s : str) :
  forall prev,
    single_spaced (Re.sub_from re_spaces (txt " ") prev 0 s) = true
    /\ (starts Char.is_space s = false ->
        starts Char.is_space (Re.sub_from re_spaces (txt " ") prev 0 s)
        = false).
Proof.
  remember (length s) as n eqn:Hn. revert s Hn.
  induction n as [n IH] using lt_wf_ind. intros s -> prev.
  destruct s as [|c s]; [split; reflexivity|].
  destruct (Char.is_space c) eqn:Hc.
  - destruct (greedy_spaces Char.is_space (Some c) s) as (k & Hk & Hle & Hrest).
    assert (E : Re.match_here re_spaces prev (c :: s) = Some (S k)).
    { rewrite spaces_match. now rewrite Hc, Hk. }
    rewrite <- (firstn_skipn (S k) (c :: s)) in E |- *.
    set (m := firstn (S k) (c :: s)) in *.
    set (rest := skipn (S k) (c :: s)) in *.
    assert (Hlen : length m = S k)
      by (apply firstn_length_le; simpl; lia).
    rewrite sub_from_match;
      [|intro Hm; rewrite Hm in Hlen; discriminate|now rewrite Hlen].
    assert (Hshort : length rest < length (c :: s)).
    { unfold rest. rewrite length_skipn. simpl. lia. }
    destruct (IH (length rest) Hshort rest eq_refl (last_char prev m))
      as [H1 H2].
    split.
    + change (single_spaced
                (" "%char :: Re.sub_from re_spaces (txt " ")
                               (last_char prev m) 0 rest) = true).
      cbn [single_spaced]. rewrite H1, (H2 Hrest). reflexivity.
    + unfold m. cbn [firstn app starts]. congruence.
  - assert (E : Re.match_here re_spaces prev (c :: s) = None).
    { rewrite spaces_match. now rewrite Hc. }
    rewrite sub_from_copy by exact E.
    destruct (IH (length s) (Nat.lt_succ_diag_r _) s eq_refl (Some c))
      as [H1 _].
    split; [|intros _; exact Hc].
    cbn [single_spaced]. now rewrite Hc, H1.
Qed.

Lemma space_comma_match (p : option ascii) (c : ascii) (s : str) :
  Re.match_here re_space_comma p (c :: s)
  = if Char.is_space c && starts (Char.is_char comma) s
    then Some 2 else None.
Proof.
  unfold re_space_comma. rewrite match_here_One.
  destruct (Char.is_space c); [|reflexivity].
  destruct s as [|d s]; [reflexivity|]. rewrite match_here_One.
  cbn [andb starts]. now destruct (Char.is_char comma d).
Qed.

Lemma comma_not_space : Char.is_space comma = false.
Proof. reflexivity. Qed.

Lemma comma_not_word : Char.is_word comma = false.
Proof. reflexivity. Qed.

(** After [\s,] is replaced by a comma in a single-spaced text, no
    comma follows white space. *)
Lemma sub_space_comma_clean (s : str) :
  single_spaced s = true ->
  forall prev,
    no_space_comma (Re.sub_from re_space_comma (txt ",") prev 0 s) = true.
Proof.
  remember (length s) as n eqn:Hn. revert s Hn.
  induction n as [n IH] using lt_wf_ind. intros s -> Hs prev.
  destruct s as [|c s]; [reflexivity|].
  pose proof (space_comma_match prev c s) as E.
  destruct (Char.is_space c && starts (Char.is_char comma) s) eqn:Hm.
  - apply andb_prop in Hm. destruct Hm as [Hc Hd].
    destruct s as [|d s]; [discriminate|].
    change (c :: d :: s) with ([c; d] ++ s) in E |- *.
    rewrite sub_from_match by (try discriminate; exact E).
    change (no_space_comma
              (comma :: Re.sub_from re_space_comma (txt ",")
                          (last_char prev [c; d]) 0 s) = true).
    unfold no_space_comma. cbn [no_adjacent]. rewrite comma_not_space.
    cbn [andb negb]. apply (IH (length s)); [simpl; lia|reflexivity|].
    now apply single_spaced_suffix with [c; d].
  - rewrite sub_from_copy by exact E.
    unfold no_space_comma. cbn [no_adjacent]. fold no_space_comma.
    cbn [single_spaced] in Hs. apply andb_prop in Hs. destruct Hs as [H1 H2].
    rewrite (IH (length s)) by (simpl; auto). rewrite andb_true_r.
    destruct (Char.is_space c) eqn:Hc; [|reflexivity].
    cbn [andb negb orb] in H1, Hm |- *.
    apply andb_prop in H1. destruct H1 as [_ H1]. apply negb_true_iff in H1.
    destruct s as [|d s]; [reflexivity|]. cbn [starts] in H1, Hm.
    rewrite sub_from_copy
      by (rewrite space_comma_match; now rewrite H1).
    cbn [starts]. now rewrite Hm.
Qed.

(** ** The second pass over white space and commas *)

Lemma sub_spaces_id (s : str) :
  single_spaced s = true ->
  forall prev, Re.sub_from re_spaces (txt " ") prev 0 s = s.
Proof.
  induction s as [|c s IH]; intros Hs prev; [reflexivity|].
  cbn [single_spaced] in Hs. apply andb_prop in Hs. destruct Hs as [H1 H2].
  destruct (Char.is_space c) eqn:Hc.
  - cbn [negb orb] in H1. apply andb_prop in H1. destruct H1 as [Hsp H1].
    apply negb_true_iff in H1. apply is_char_eq in Hsp. subst c.
    assert (E : Re.match_here re_spaces prev (" "%char :: s) = Some 1).
    { rewrite spaces_match. rewrite Hc.
      destruct s as [|d s]; [reflexivity|]. cbn [starts] in H1.
      cbn [Re.greedy]. now rewrite H1. }
    change (" "%char :: s) with ([" "%char] ++ s) in E |- *.
    rewrite sub_from_match by (try discriminate; exact E).
    change (" "%char :: Re.sub_from re_spaces (txt " ")
                          (last_char prev [" "%char]) 0 s = " "%char :: s).
    f_equal. now apply IH.
  - rewrite sub_from_copy.
    + f_equal. now apply IH.
    + rewrite spaces_match. now rewrite Hc.
Qed.

Lemma sub_space_comma_id (s : str) :
  no_space_comma s = true ->
  forall prev, Re.sub_from re_space_comma (txt ",") prev 0 s = s.
Proof.
  induction s as [|c s IH]; intros Hs prev; [reflexivity|].
  unfold no_space_comma in Hs. cbn [no_adjacent] in Hs.
  apply andb_prop in Hs. destruct Hs as [H1 H2].
  apply negb_true_iff in H1.
  rewrite sub_from_copy by (rewrite space_comma_match; now rewrite H1).
  f_equal. now apply IH.
Qed.

Lemma comma_comma_match (p : option ascii) (c : ascii) (s : str) :
  Re.match_here re_comma_comma p (c :: s)
  = if Char.is_char comma c
    then option_map S
           (Re.greedy Char.is_space
              (Re.match_here [Re.One (Char.is_char comma)]) (Some c) s)
    else None.
Proof. reflexivity. Qed.

Lemma comma_here (p : option ascii) (s : str) :
  starts (Char.is_char comma) s = false ->
  Re.match_here [Re.One (Char.is_char comma)] p s = None.
Proof.
  destruct s as [|c s]; [reflexivity|]. cbn [starts]. intro H.
  rewrite match_here_One. now rewrite H.
Qed.

Lemma comma_comma_none (p : option ascii) (c : ascii) (s : str) :
  single_spaced (c :: s) = true -> no_space_comma (c :: s) = true ->
  no_comma_comma (c :: s) = true ->
  Re.match_here re_comma_comma p (c :: s) = None.
Proof.
  intros Hs Hsc Hcc. rewrite comma_comma_match.
  destruct (Char.is_char comma c) eqn:Hc; [|reflexivity].
  unfold no_comma_comma in Hcc. cbn [no_adjacent] in Hcc. rewrite Hc in Hcc.
  apply andb_prop in Hcc. destruct Hcc as [Hcc _].
  cbn [andb] in Hcc. apply negb_true_iff in Hcc.
  set (K := Re.match_here [Re.One (Char.is_char comma)]).
  assert (HK : forall q, K q s = None) by (intro q; now apply comma_here).
  destruct s as [|d s]; [cbn [Re.greedy]; now rewrite HK|].
  cbn [single_spaced] in Hs. apply andb_prop in Hs. destruct Hs as [_ Hs].
  apply andb_prop in Hs. destruct Hs as [Hd _].
  unfold no_space_comma in Hsc. cbn [no_adjacent] in Hsc.
  apply andb_prop in Hsc. destruct Hsc as [_ Hsc].
  apply andb_prop in Hsc. destruct Hsc as [Hdc _].
  cbn [Re.greedy]. destruct (Char.is_space d) eqn:Hsp; [|now rewrite HK].
  cbn [negb orb andb] in Hd, Hdc. apply andb_prop in Hd.
  destruct Hd as [_ Hd]. apply negb_true_iff in Hd, Hdc.
  assert (HK' : forall q, K q s = None) by (intro q; now apply comma_here).
  destruct s as [|e s].
  - cbn [Re.greedy]. now rewrite HK', HK.
  - cbn [starts] in Hd. cbn [Re.greedy]. rewrite Hd. now rewrite HK', HK.
Qed.

Lemma sub_comma_comma_id (s : str) :
  single_spaced s = true -> no_space_comma s = true ->
  no_comma_comma s = true ->
  forall prev, Re.sub_from re_comma_comma (txt ",") prev 0 s = s.
Proof.
  induction s as [|c s IH]; intros Hs Hsc Hcc prev; [reflexivity|].
  rewrite sub_from_copy by now apply comma_comma_none.
  f_equal. apply IH.
  - now apply single_spaced_suffix with [c].
  - now apply no_adjacent_suffix with [c].
  - now apply no_adjacent_suffix with [c].
Qed.

(** ** Normalizing twice (C9) *)

Lemma blank_forallb (t : str) :
  forallb Char.is_space t = true -> blank t.
Proof.
  intro H. apply Forall_forall. intros c Hc.
  exact (proj1 (forallb_forall _ _) H c Hc).
Qed.

Lemma strip_idempotent (s : str) : strip (strip s) = strip s.
Proof.
  destruct (lstrip_suffix s) as (t & Ht & Hb).
  destruct (rstrip_prefix (lstrip s)) as (t' & Ht' & Hb').
  fold (strip s) in Ht'.
  rewrite Ht' in Ht. rewrite Ht at 2.
  symmetry. apply strip_margins; now apply blank_forallb.
Qed.

Lemma spaces_sep : sep_pattern re_spaces.
Proof. split; [exact space_not_word|exact I]. Qed.

Lemma comma_sep : sep_class (Char.is_char comma).
Proof. intros c Hc. apply is_char_eq in Hc. now subst c. Qed.

Lemma comma_comma_sep : sep_pattern re_comma_comma.
Proof.
  repeat split; try exact comma_sep. exact space_not_word.
Qed.

Lemma space_comma_sep : sep_pattern re_space_comma.
Proof.
  repeat split; try exact comma_sep. exact space_not_word.
Qed.

Lemma remove_specific_locations_body (text : str) :
  remove_specific_locations text
  = if negb (truthy text) || negb (truthy (strip text)) then text
    else
      strip
        (Re.sub re_space_comma (txt ",")
           (Re.sub re_comma_comma (txt ",")
              (Re.sub re_spaces (txt " ")
                 (Re.sub re_percent []
                    (Re.sub re_dbm (txt "current signal level")
                       (Re.sub re_integer []
                          (Re.sub re_decimal []
                             (Re.sub re_site_code (txt "the area")
                                text)))))))).
Proof. reflexivity. Qed.

(** What one pass leaves: no location token, single spaces, no comma
    after white space, nothing to trim. *)
Lemma remove_specific_locations_shape (text : str) :
  let u := remove_specific_locations text in
  negb (truthy text) || negb (truthy (strip text)) = false ->
  runs_ok plain u /\ single_spaced u = true /\ no_space_comma u = true
  /\ strip u = u.
Proof.
  intros u Hc. subst u. rewrite remove_specific_locations_body, Hc.
  pose proof (location_tokens_removed text) as H5.
  set (v := Re.sub re_percent [] _) in *.
  assert (H6 : runs_ok plain (Re.sub re_spaces (txt " ") v)).
  { apply (sub_sep_runs re_spaces " "%char); try reflexivity;
      [exact spaces_sep|exact H5]. }
  assert (H7 : runs_ok plain
                 (Re.sub re_comma_comma (txt ",")
                    (Re.sub re_spaces (txt " ") v))).
  { apply (sub_sep_runs re_comma_comma comma); try reflexivity;
      [exact comma_comma_sep|exact H6]. }
  assert (H8 : runs_ok plain
                 (Re.sub re_space_comma (txt ",")
                    (Re.sub re_comma_comma (txt ",")
                       (Re.sub re_spaces (txt " ") v)))).
  { apply (sub_sep_runs re_space_comma comma); try reflexivity;
      [exact space_comma_sep|exact H7]. }
  assert (S6 : single_spaced (Re.sub re_spaces (txt " ") v) = true)
    by apply sub_spaces_single_spaced.
  assert (S7 : single_spaced
                 (Re.sub re_comma_comma (txt ",")
                    (Re.sub re_spaces (txt " ") v)) = true).
  { apply (sub_sep_single_spaced re_comma_comma comma);
      [exact comma_comma_sep|reflexivity|exact S6]. }
  assert (S8 : single_spaced
                 (Re.sub re_space_comma (txt ",")
                    (Re.sub re_comma_comma (txt ",")
                       (Re.sub re_spaces (txt " ") v))) = true).
  { apply (sub_sep_single_spaced re_space_comma comma);
      [exact space_comma_sep|reflexivity|exact S7]. }
  assert (C8 : no_space_comma
                 (Re.sub re_space_comma (txt ",")
                    (Re.sub re_comma_comma (txt ",")
                       (Re.sub re_spaces (txt " ") v))) = true)
    by now apply sub_space_comma_clean.
  repeat split.
  - now apply runs_ok_strip.
  - now apply single_spaced_strip.
  - now apply no_adjacent_strip.
  - apply strip_idempotent.
Qed.

(** A text of that shape without two adjacent commas is left as it
    is. *)
Lemma remove_specific_locations_fixed (u : str) :
  runs_ok plain u -> single_spaced u = true -> no_space_comma u = true ->
  no_comma_comma u = true -> strip u = u ->
  remove_specific_locations u = u.
Proof.
  intros Hr Hs Hsc Hcc Hstrip. rewrite remove_specific_locations_body.
  destruct (negb (truthy u) || negb (truthy (strip u))); [reflexivity|].
  destruct (plain_text_fixed u Hr) as (E1 & E2 & E3 & E4 & E5).
  rewrite E1, E2, E3, E4, E5.
  unfold Re.sub.
  rewrite (sub_spaces_id u Hs), (sub_comma_comma_id u Hs Hsc Hcc),
    (sub_space_comma_id u Hsc).
  exact Hstrip.
Qed.

(** C9, as the code has it: empty and white-space-only input is
    returned unchanged, and normalizing a second time changes nothing
    whenever the text normalized once holds no two adjacent commas. *)
Theorem remove_specific_locations_idempotent_without_double_comma :
  (forall t : str, blank t -> remove_specific_locations t = t)
  /\ (forall t : str,
        no_comma_comma (remove_specific_locations t) = true ->
        remove_specific_locations (remove_specific_locations t)
        = remove_specific_locations t).
Proof.
  split.
  - intros t Hb. rewrite remove_specific_locations_body.
    unfold strip. rewrite (lstrip_blank Hb). cbn [rev lstrip rstrip truthy].
    now rewrite orb_true_r.
  - intros t Hcc.
    destruct (negb (truthy t) || negb (truthy (strip t))) eqn:Hc.
    + assert (E : remove_specific_locations t = t)
        by (rewrite remove_specific_locations_body; now rewrite Hc).
      now rewrite !E.
    + destruct (remove_specific_locations_shape t Hc)
        as (Hr & Hs & Hsc & Hstrip).
      now apply remove_specific_locations_fixed.
Qed.

(** C9 as stated fails: three commas become two, and two become one. *)
Lemma remove_specific_locations_not_idempotent :
  remove_specific_locations (txt ",,,") = txt ",,"
  /\ remove_specific_locations (remove_specific_locations (txt ",,,"))
     = txt ",".
Proof. split; reflexivity. Qed.

Lemma remove_specific_locations_idempotent_witness :
  no_comma_comma
    (remove_specific_locations (txt "Call drops near KDY123, 45 dBm"))
  = true
  /\ remove_specific_locations
       (remove_specific_locations (txt "Call drops near KDY123, 45 dBm"))
     = remove_specific_locations (txt "Call drops near KDY123, 45 dBm").
Proof.
  split; [reflexivity|].
  apply (proj2 remove_specific_locations_idempotent_without_double_comma).
  reflexivity.
Defined.

(** * Further properties *)

(** ** What normalization leaves *)

Lemma blank_of_strip_nil (t : str) : strip t = [] -> blank t.
Proof.
  intro H. destruct (lstrip_suffix t) as (a & Ha & Hab).
  destruct (rstrip_prefix (lstrip t)) as (b & Hb & Hbb).
  fold (strip t) in Hb. rewrite H in Hb. cbn [app] in Hb.
  rewrite Ha, Hb. apply Forall_app. split; now apply blank_forallb.
Qed.

Lemma blank_of_early_return (t : str) :
  negb (truthy t) || negb (truthy (strip t)) = true -> blank t.
Proof.
  intro H. apply blank_of_strip_nil.
  destruct t as [|c t]; [reflexivity|]. cbn [truthy negb orb] in H.
  destruct (strip (c :: t)); [reflexivity|discriminate].
Qed.

Lemma runs_ok_blank (good : str -> bool) (t : str) :
  blank t -> runs_ok good t.
Proof.
  induction 1 as [|c t Hc _ IH]; constructor;
    [now apply space_not_word|exact IH].
Qed.

(** Every run of word characters of a normalized text is plain. *)
Lemma remove_specific_locations_plain (text : str) :
  runs_ok plain (remove_specific_locations text).
Proof.
  destruct (negb (truthy text) || negb (truthy (strip text))) eqn:Hc.
  - rewrite remove_specific_locations_body, Hc.
    now apply runs_ok_blank, blank_of_early_return.
  - now destruct (remove_specific_locations_shape text Hc).
Qed.

(** A run picked out of a text made of good runs is good. *)
Lemma runs_ok_at (good : str -> bool) (a w b : str) :
  runs_ok good (a ++ w ++ b) -> w <> [] -> all_word w = true ->
  Re.word_before (last_char None a) = false -> Re.word_after b = false ->
  good w = true.
Proof.
  remember (length a) as n eqn:Hn. revert a Hn.
  induction n as [n IH] using lt_wf_ind. intros a -> H Hne Hw Ha Hb.
  destruct (str_cases a)
    as [->|[(c & a' & -> & Hc)|(w0 & a' & -> & Hne0 & Hw0 & Hafter)]].
  - cbn [app] in H. now apply (runs_ok_run_inv good w b H).
  - cbn [app] in H. apply runs_ok_sep_inv in H; [|exact Hc].
    apply (IH (length a')) with a'; auto.
    rewrite last_char_cons in Ha.
    destruct a' as [|d a']; [reflexivity|exact Ha].
  - rewrite <- app_assoc in H.
    assert (Ha' : a' <> []).
    { intros ->. rewrite app_nil_r in Ha.
      destruct (exists_last Hne0) as (u & d & ->).
      rewrite last_char_app in Ha. cbn in Ha.
      unfold all_word in Hw0. rewrite forallb_app in Hw0.
      apply andb_prop in Hw0. destruct Hw0 as [_ Hd]. simpl in Hd.
      rewrite andb_true_r in Hd. congruence. }
    assert (Hafter' : Re.word_after (a' ++ w ++ b) = false)
      by (destruct a'; [congruence|exact Hafter]).
    apply runs_ok_run_inv in H; try assumption. destruct H as [_ H].
    apply (IH (length a')) with a'; auto.
    + rewrite length_app. destruct w0; [congruence|simpl; lia].
    + rewrite last_char_app in Ha.
      destruct a' as [|d a']; [congruence|exact Ha].
Qed.

Lemma token_free_of_runs (s : str) : runs_ok plain s -> token_free s.
Proof.
  intros H a w b E Hne Hw Ha Hb. apply plain_parts.
  apply (runs_ok_at plain a w b); try assumption. now rewrite <- E.
Qed.

(** X1.  No location token survives normalization: in the text
    [remove_specific_locations] returns, no maximal run of word
    characters is a site code ([[A-Z]+\d+[A-Z]*]), a bare number
    ([\d+]) or a signal level ([\d+dBm]). *)
Theorem normalized_text_holds_no_location_token (text a w b : str) :
  remove_specific_locations text = a ++ w ++ b ->
  w <> [] -> all_word w = true ->
  Re.word_before (last_char None a) = false -> Re.word_after b = false ->
  site_code w = false /\ digits_only w = false /\ signal_level w = false.
Proof.
  intros E Hne Hw Ha Hb. apply plain_parts.
  apply (runs_ok_at plain a w b); try assumption.
  rewrite <- E. apply remove_specific_locations_plain.
Qed.

Lemma normalized_text_holds_no_location_token_witness :
  remove_specific_locations (txt "Call drops near KDY123, 45 dBm")
  = txt "Call drops near " ++ txt "the" ++ txt " area, dBm"
  /\ site_code (txt "the") = false /\ digits_only (txt "the") = false
  /\ signal_level (txt "the") = false.
Proof.
  split; [reflexivity|].
  apply (normalized_text_holds_no_location_token
           (txt "Call drops near KDY123, 45 dBm")
           (txt "Call drops near ") (txt "the") (txt " area, dBm"));
    try reflexivity.
  discriminate.
Defined.

(** X2.  A text that is not blank comes out tidy: every white-space
    character is a single space standing alone, no comma follows white
    space, and nothing is left to trim at either end. *)
Theorem normalized_text_is_tidy (text : str) :
  truthy (strip text) = true ->
  single_spaced (remove_specific_locations text) = true
  /\ no_space_comma (remove_specific_locations text) = true
  /\ strip (remove_specific_locations text) = remove_specific_locations text.
Proof.
  intro H.
  assert (Hc : negb (truthy text) || negb (truthy (strip text)) = false).
  { rewrite H. destruct text; [discriminate|reflexivity]. }
  destruct (remove_specific_locations_shape text Hc) as (_ & H1 & H2 & H3).
  auto.
Qed.

Lemma normalized_text_is_tidy_witness :
  truthy (strip (txt "  No   signal ,  since 3 days ")) = true
  /\ single_spaced
       (remove_specific_locations (txt "  No   signal ,  since 3 days "))
     = true
  /\ no_space_comma
       (remove_specific_locations (txt "  No   signal ,  since 3 days "))
     = true
  /\ strip (remove_specific_locations (txt "  No   signal ,  since 3 days "))
     = remove_specific_locations (txt "  No   signal ,  since 3 days ").
Proof.
  split; [reflexivity|].
  apply (normalized_text_is_tidy (txt "  No   signal ,  since 3 days ")).
  reflexivity.
Defined.

(** ** Site codes in lower-cased text *)

Lemma runs_ok_forallb (P : ascii -> bool) (s : str) :
  forallb P s = true -> runs_ok (forallb P) s.
Proof.
  remember (length s) as n eqn:Hn. revert s Hn.
  induction n as [n IH] using lt_wf_ind. intros s -> H.
  destruct (str_cases s)
    as [->|[(c & s' & -> & Hc)|(w & s' & -> & Hne & Hw & Hs)]].
  - constructor.
  - constructor; [exact Hc|]. simpl in H. apply andb_prop in H.
    apply (IH (length s')); [simpl; lia|reflexivity|tauto].
  - rewrite forallb_app in H. apply andb_prop in H. destruct H as [H1 H2].
    constructor; try assumption.
    apply (IH (length s')); [|reflexivity|exact H2].
    rewrite length_app. destruct w; [congruence|simpl; lia].
Qed.

Lemma lower_not_upper (c : ascii) :
  negb (Char.is_upper_az (Char.lower c)) = true.
Proof. by_cases_on_char c. Qed.

Lemma lower_no_upper (t : str) :
  forallb (fun c => negb (Char.is_upper_az c)) (lower t) = true.
Proof.
  unfold lower. apply forallb_forall. intros c Hc.
  apply in_map_iff in Hc. destruct Hc as (d & <- & _).
  apply lower_not_upper.
Qed.

Lemma site_code_needs_upper (w : str) :
  forallb (fun c => negb (Char.is_upper_az c)) w = true ->
  site_code w = false.
Proof.
  destruct w as [|c w]; [reflexivity|]. simpl. intro H.
  apply andb_prop in H. destruct H as [H _].
  apply negb_true_iff in H. unfold site_code, site_code_body.
  cbn [run_test]. now rewrite H.
Qed.

(** X3.  After lower-casing, the site-code pattern finds nothing: the
    substitution of [\b[A-Z]+\d+[A-Z]*\b] leaves every lower-cased text
    as it is, whatever the replacement. *)
Theorem site_code_pattern_misses_lower_case (repl t : str) :
  Re.sub re_site_code repl (lower t) = lower t.
Proof.
  unfold Re.sub.
  apply (sub_from_id re_site_code repl
           (forallb (fun c => negb (Char.is_upper_az c)))).
  - apply site_code_anchored.
  - intros prev w s Hp Hne Hw Hs Hg.
    rewrite site_code_whole by assumption.
    now rewrite (site_code_needs_upper w Hg).
  - apply runs_ok_forallb, lower_no_upper.
  - discriminate.
Qed.

(** ** Similar complaints: scores and returned records *)

Lemma remove_specific_locations_blank (t : str) :
  blank t -> remove_specific_locations t = t.
Proof.
  intro Hb. rewrite remove_specific_locations_body.
  unfold strip. rewrite (lstrip_blank Hb). cbn [rev lstrip rstrip truthy].
  now rewrite orb_true_r.
Qed.

Lemma intersection_le_union (a b : list str) :
  length (intersection a b) <= length (union a b).
Proof.
  unfold intersection, union. rewrite length_app.
  pose proof (filter_length_le (fun w => mem w b) a). lia.
Qed.

Lemma jaccard_range (a b : list str) : (0 <= jaccard a b <= 1)%Q.
Proof.
  unfold jaccard. pose proof (intersection_le_union a b) as H.
  destruct (0 <? length (union a b))%nat eqn:E.
  - apply Nat.ltb_lt in E.
    assert (Hu : Z.pos (Pos.of_nat (length (union a b)))
                 = Z.of_nat (length (union a b))).
    { rewrite <- positive_nat_Z. now rewrite Nat2Pos.id by lia. }
    unfold Qle. cbn [Qnum Qden]. rewrite Hu. split; lia.
  - split; unfold Qle; simpl; lia.
Qed.

Lemma jaccard_nil (b : list str) : (jaccard [] b == 0)%Q.
Proof.
  unfold jaccard. cbn [intersection filter length].
  destruct (0 <? _)%nat; reflexivity.
Qed.

Lemma In_slice_to {A : Type} (n : Z) (l : list A) (x : A) :
  In x (slice_to n l) -> In x l.
Proof. unfold slice_to. destruct (0 <=? n)%Z; apply In_firstn. Qed.

Lemma dict_get_set_same {V : Type} (d : dict V) (k : str) (v : V) :
  dict_get (dict_set d k v) k = Some v.
Proof.
  induction d as [|[k0 w] d IH]; simpl.
  - now rewrite str_eqb_refl.
  - destruct (str_eqb k0 k) eqn:E; simpl; now rewrite E.
Qed.

Lemma dict_set_keys {V : Type} (d : dict V) (k : str) (v : V) :
  dict_get d k <> None -> map fst (dict_set d k v) = map fst d.
Proof.
  induction d as [|[k0 w] d IH]; simpl; [congruence|].
  destruct (str_eqb k0 k) eqn:E; simpl; [reflexivity|].
  intro H. now rewrite IH.
Qed.

Section ReturnedRecords.

Context {FP : PyFloat}.

(** The text a cell is replaced by when its column is cleaned. *)
Lemma clean_column_get (col col' : str) (r : row) :
  dict_get (clean_column col r) col'
  = if str_eqb col col'
    then option_map
           (fun c => CStr (remove_specific_locations (str_of_cell c)))
           (dict_get r col)
    else dict_get r col'.
Proof.
  unfold clean_column. destruct (str_eqb col col') eqn:E.
  - apply str_eqb_eq in E. subst col'.
    destruct (dict_get r col) eqn:G; [|now rewrite G].
    now rewrite dict_get_set_same.
  - assert (Hne : col <> col').
    { intros ->. now rewrite str_eqb_refl in E. }
    destruct (dict_get r col); [|reflexivity].
    now apply dict_get_set_other.
Qed.

Lemma clean_column_keys (col : str) (r : row) :
  map fst (clean_column col r) = map fst r.
Proof.
  unfold clean_column. destruct (dict_get r col) eqn:G; [|reflexivity].
  apply dict_set_keys. congruence.
Qed.

Lemma In_find_similar_complaints (self : SimpleComplaintHandler)
    (text : str) (top_n : Z) (r' : row) :
  In r' (find_similar_complaints self text top_n) ->
  exists r, In r (corpus_rows self)
            /\ (1 # 10 < similarity text r)%Q
            /\ r' = item_data (score_row text r).
Proof.
  unfold find_similar_complaints. rewrite ranked_eq, in_map_iff.
  intros (item & <- & Hin). apply In_slice_to in Hin.
  unfold sort_by_similarity in Hin. apply stable_sort_In in Hin.
  apply In_similarities_of in Hin. destruct Hin as (r & Hr & Hq & ->).
  now exists r.
Qed.

(** X4.  The score of a record against a complaint lies between 0 and
    1. *)
Theorem similarity_between_0_and_1 (complaint_text : str) (r : row) :
  (0 <= similarity complaint_text r <= 1)%Q.
Proof. apply jaccard_range. Qed.

(** X5.  A complaint that holds no word once lower-cased and normalized
    (a blank one, or one of numbers only) has no similar record,
    whatever the corpus. *)
Theorem wordless_complaint_has_no_similar (self : SimpleComplaintHandler)
    (complaint_text : str) (top_n : Z) :
  split (remove_specific_locations (lower complaint_text)) = [] ->
  find_similar_complaints self complaint_text top_n = [].
Proof.
  intro H. unfold find_similar_complaints. rewrite ranked_eq.
  unfold similarities_of. rewrite filter_none.
  - cbn [map]. unfold sort_by_similarity. cbn [stable_sort fold_right].
    now rewrite slice_to_nil.
  - intros r _. apply not_true_iff_false. rewrite Qgtb_lt.
    unfold similarity, complaint_words_of. rewrite H. cbn [set_of nodup].
    rewrite jaccard_nil. discriminate.
Qed.

(** X6.  Every record [find_similar_complaints] returns is a record of
    the corpus with the same columns in the same order, in which the
    cells of [Solution] and [Issue Description] are replaced by their
    normalized text and every other cell is as it was. *)
Theorem find_similar_complaints_returns_cleaned_copies
    (self : SimpleComplaintHandler) (complaint_text : str) (top_n : Z) :
  Forall
    (fun r' =>
       exists r,
         In r (corpus_rows self)
         /\ map fst r' = map fst r
         /\ forall col,
              dict_get r' col
              = if str_eqb (txt "Issue Description") col
                   || str_eqb (txt "Solution") col
                then option_map
                       (fun c =>
                          CStr (remove_specific_locations (str_of_cell c)))
                       (dict_get r col)
                else dict_get r col)
    (find_similar_complaints self complaint_text top_n).
Proof.
  apply Forall_forall. intros r' Hin.
  apply In_find_similar_complaints in Hin.
  destruct Hin as (r & Hr & _ & ->). exists r. split; [exact Hr|].
  cbn [score_row item_data]. split.
  - now rewrite !clean_column_keys.
  - intro col. rewrite !clean_column_get.
    destruct (str_eqb (txt "Issue Description") col) eqn:E1.
    + apply str_eqb_eq in E1. subst col. reflexivity.
    + cbn [orb]. destruct (str_eqb (txt "Solution") col) eqn:E2;
        [|reflexivity].
      apply str_eqb_eq in E2. now subst col.
Qed.

(** X7.  No location token reaches the caller: in every record
    [find_similar_complaints] returns, the cells of [Issue Description]
    and [Solution] are texts all of whose runs of word characters are
    free of location tokens: none is a site code, a bare number or a
    signal level. *)
Theorem find_similar_complaints_hides_location_tokens
    (self : SimpleComplaintHandler) (complaint_text : str) (top_n : Z) :
  Forall
    (fun r' =>
       forall col c,
         col = txt "Issue Description" \/ col = txt "Solution" ->
         dict_get r' col = Some c ->
         exists s, c = CStr s /\ token_free s)
    (find_similar_complaints self complaint_text top_n).
Proof.
  apply Forall_forall. intros r' Hin col c Hcol Hget.
  apply In_find_similar_complaints in Hin.
  destruct Hin as (r & _ & _ & ->). cbn [score_row item_data] in Hget.
  rewrite !clean_column_get in Hget.
  destruct Hcol as [-> | ->]; cbn in Hget;
    match type of Hget with
    | option_map _ ?o = _ => destruct o as [c0|]; [|discriminate]
    end;
    injection Hget as <-; eexists; split; try reflexivity;
    apply token_free_of_runs, remove_specific_locations_plain.
Qed.

End ReturnedRecords.

Lemma wordless_complaint_has_no_similar_witness :
  split (remove_specific_locations (lower (txt " 077 123.4 "))) = []
  /\ find_similar_complaints Sample.handler (txt " 077 123.4 ") 5 = [].
Proof.
  split; [reflexivity|].
  apply (@wordless_complaint_has_no_similar Decimal.decimal).
  reflexivity.
Defined.

(** ** What the signature and the strategy read *)

Section ReadKeys.

Context {FP : PyFloat}.

Lemma condition_values_agree_on (keys : list str) (c c' : dict pyval) :
  (forall key, In key keys -> get_value c key = get_value c' key) ->
  condition_values keys c = condition_values keys c'.
Proof.
  induction keys as [|key keys IH]; intro H; [reflexivity|].
  cbn [condition_values]. rewrite (H key) by now left.
  rewrite IH; [reflexivity|]. intros k Hk. apply H. now right.
Qed.

Lemma condition_values_nil (keys : list str) :
  condition_values keys [] = [].
Proof. induction keys as [|key keys IH]; [reflexivity|exact IH]. Qed.

Lemma condition_str_agree (c c' : dict pyval) :
  (forall key, In key all_conditions -> get_value c key = get_value c' key) ->
  match c with
  | [] => []
  | _ => join [bar] (sorted (condition_values all_conditions c))
  end
  = match c' with
    | [] => []
    | _ => join [bar] (sorted (condition_values all_conditions c'))
    end.
Proof.
  intro H. pose proof (condition_values_agree_on all_conditions c c' H) as E.
  destruct c as [|e c], c' as [|e' c']; try reflexivity.
  - rewrite <- E, condition_values_nil. reflexivity.
  - rewrite E, condition_values_nil. reflexivity.
  - now rewrite E.
Qed.

Lemma signature_input_agree (text : str) (c c' : dict pyval) :
  (forall key, In key all_conditions -> get_value c key = get_value c' key) ->
  signature_input text (Some c) = signature_input text (Some c').
Proof.
  intro H. unfold signature_input. f_equal. f_equal.
  now apply condition_str_agree.
Qed.

Lemma signature_digest_agree (text : str) (c c' : dict pyval) :
  (forall key, In key all_conditions -> get_value c key = get_value c' key) ->
  create_complaint_signature text (Some c)
  = create_complaint_signature text (Some c').
Proof.
  intro H. unfold create_complaint_signature.
  now rewrite (signature_input_agree text c c' H).
Qed.

(** X8.  The signature reads the conditions through the nine
    allow-listed keys only: two condition dictionaries that answer these
    nine keys alike give the same digest, whatever else they hold. *)
Theorem signature_reads_allow_listed_keys_only (complaint_text : str)
    (c c' : dict pyval) :
  (forall key, In key all_conditions -> get_value c key = get_value c' key) ->
  create_complaint_signature complaint_text (Some c)
  = create_complaint_signature complaint_text (Some c').
Proof.
  intro H. unfold create_complaint_signature. f_equal.
  now apply signature_input_agree.
Qed.

Lemma get_value_set_other (d : dict pyval) (k k' : str) (v : pyval) :
  k <> k' -> get_value (dict_set d k v) k' = get_value d k'.
Proof. intro H. unfold get_value. now rewrite dict_get_set_other. Qed.

Lemma msisdn_not_allow_listed (key : str) :
  In key all_conditions -> txt "msisdn" <> key.
Proof.
  intros H E. subst key. unfold all_conditions in H. simpl in H.
  repeat (destruct H as [H|H]; [discriminate|]). exact H.
Qed.

Variable call_ollama_llm : str -> str.
Variable create_complaint_solution_prompt :
  dict pyval -> list row -> context -> str.
Variable create_pattern_analysis_prompt : str -> list row -> str.
Variable create_new_complaint_prompt : dict pyval -> option context -> str.

(** X9.  The subscriber number plays no part in the choice of strategy:
    writing another [msisdn] into the complaint details leaves the
    label [generate_solution] returns, or the exception it raises, as
    it was. *)
Theorem strategy_ignores_msisdn (self : SimpleComplaintHandler)
    (complaint_details : dict pyval) (m : pyval) :
  strategy_of
    (generate_solution call_ollama_llm create_complaint_solution_prompt
       create_pattern_analysis_prompt create_new_complaint_prompt self
       (dict_set complaint_details (txt "msisdn") m))
  = strategy_of
      (generate_solution call_ollama_llm create_complaint_solution_prompt
         create_pattern_analysis_prompt create_new_complaint_prompt self
         complaint_details).
Proof.
  set (d' := dict_set complaint_details (txt "msisdn") m).
  assert (Hget : forall key, txt "msisdn" <> key ->
                             get_value d' key = get_value complaint_details key)
    by (intros key Hk; now apply get_value_set_other).
  assert (Htext : complaint_text_of d' = complaint_text_of complaint_details).
  { unfold complaint_text_of, d'. now rewrite dict_get_set_other. }
  assert (Hexact : find_exact_match self (complaint_text_of d') (Some d')
                   = find_exact_match self
                       (complaint_text_of complaint_details)
                       (Some complaint_details)).
  { rewrite Htext. unfold find_exact_match.
    destruct (no_data (complaint_data self)); [reflexivity|].
    rewrite (signature_digest_agree
               (complaint_text_of complaint_details) d' complaint_details);
      [reflexivity|].
    intros key Hk. apply Hget. now apply msisdn_not_allow_listed. }
  assert (Hloc : get_location_context self d'
                 = get_location_context self complaint_details).
  { unfold get_location_context. now rewrite !Hget by discriminate. }
  unfold generate_solution. cbv zeta. rewrite Hexact, Hloc, Htext.
  unfold bind, strategy_of. clear Hexact Hloc Htext Hget.
  destruct (find_exact_match self _ _) as [[|c s]|]; try reflexivity;
    (destruct (get_location_context self complaint_details)
       as [[ctx|]|e]; [| |reflexivity]);
    (destruct (find_similar_complaints self _ 5) as [|r1 rs];
     [reflexivity|]);
    try reflexivity;
    destruct (3 <=? length (r1 :: rs))%nat; reflexivity.
Qed.

End ReadKeys.

Lemma signature_reads_allow_listed_keys_only_witness :
  (forall key, In key all_conditions ->
     get_value Sample.weak_signal key
     = get_value ((txt "msisdn", VStr (txt "0771234567"))
                    :: Sample.weak_signal) key)
  /\ create_complaint_signature (txt "Call drops") (Some Sample.weak_signal)
     = create_complaint_signature (txt "Call drops")
         (Some ((txt "msisdn", VStr (txt "0771234567"))
                  :: Sample.weak_signal)).
Proof.
  assert (H : forall key, In key all_conditions ->
     get_value Sample.weak_signal key
     = get_value ((txt "msisdn", VStr (txt "0771234567"))
                    :: Sample.weak_signal) key).
  { intros key Hk. unfold all_conditions in Hk. simpl in Hk.
    repeat (destruct Hk as [<-|Hk]; [reflexivity|]). destruct Hk. }
  split; [exact H|].
  exact (@signature_reads_allow_listed_keys_only Decimal.decimal
           (txt "Call drops") _ _ H).
Defined.

(** ** The location resolvers *)

Section Closest.

Context {FP : PyFloat}.

Lemma closest_fold (longitude latitude : pyval) (rows : list row)
    (st : float * option row) (r : row) :
  snd (fold_left (closest_step longitude latitude) rows st) = Some r ->
  snd st = Some r
  \/ (In r rows
      /\ exists distance,
           row_distance longitude latitude r = Some distance
           /\ float_ltb distance (float_lit 1 (-2)) = true).
Proof.
  revert st. induction rows as [|r0 rows IH]; intros st H; [now left|].
  cbn [fold_left] in H. apply IH in H. destruct H as [H|(Hin & Hd)].
  - unfold closest_step in H.
    destruct (row_distance longitude latitude r0) as [d|] eqn:Ed;
      [|now left].
    destruct (float_ltb d (fst st) && float_ltb d (float_lit 1 (-2)))
      eqn:Ec; [|now left].
    cbn [snd] in H. injection H as <-. right. split; [now left|].
    exists d. apply andb_prop in Ec. tauto.
  - right. split; [now right|exact Hd].
Qed.

(** X10.  The coordinate loop of [get_location_context] never settles
    on a far site: the record it keeps is a record of the table whose
    distance to the complaint, in degrees, was computed and is below
    0.01. *)
Theorem closest_location_is_within_reach (longitude latitude : pyval)
    (rows : list row) (r : row) :
  closest_location longitude latitude rows = Some r ->
  In r rows
  /\ exists distance,
       row_distance longitude latitude r = Some distance
       /\ float_ltb distance (float_lit 1 (-2)) = true.
Proof.
  unfold closest_location. intro H. apply closest_fold in H.
  destruct H as [H|H]; [discriminate|exact H].
Qed.

End Closest.

Lemma closest_location_is_within_reach_witness :
  closest_location (VFloat Sample2.eighty) (VFloat Sample2.seven)
    (iterrows Sample2.sites) = Some Sample2.kandy_town
  /\ In Sample2.kandy_town (iterrows Sample2.sites)
  /\ exists distance,
       row_distance (VFloat Sample2.eighty) (VFloat Sample2.seven)
         Sample2.kandy_town = Some distance
       /\ float_ltb distance (float_lit 1 (-2)) = true.
Proof.
  split; [reflexivity|].
  apply (@closest_location_is_within_reach Decimal.decimal).
  reflexivity.
Defined.

Section NearestSite.

Context {FP : PyFloat} {FM : PyMath FP}.

(** What one turn of the lookup does to the state. *)
Lemma lookup_step_effect (lat lon : float) (r : row)
    (m m' : float) (n n' : option site_info) (nb nb' : list site_info) :
  lookup_step lat lon (m, n, nb) r = Ok (m', n', nb') ->
  exists info,
    dict_get r (txt "Site Name") = Some (site_name info)
    /\ (n' = n \/ n' = Some info)
    /\ (nb' = nb
        \/ (nb' = nb ++ [info]
            /\ float_leb (distance_km info) (float_lit 20 (-1)) = true)).
Proof.
  unfold lookup_step, row_item, opt_or_raise.
  destruct (dict_get r (txt "location_corrected.lat")) as [c1|];
    [|discriminate].
  destruct (dict_get r (txt "location_corrected.lon")) as [c2|];
    [|discriminate].
  cbn [bind].
  destruct (number_of_cell c1) as [x1|]; [|discriminate].
  destruct (number_of_cell c2) as [x2|]; [|discriminate].
  cbn [bind].
  destruct (haversine_distance lat lon x1 x2) as [d|]; [|discriminate].
  cbn [bind].
  destruct (dict_get r (txt "Site Name")) as [c3|]; [|discriminate].
  destruct (dict_get r (txt "RSRP Range 1 (>-105dBm) %")) as [c4|];
    [|discriminate].
  destruct (dict_get r (txt "RSRP Range 2 (-105~-110dBm) %")) as [c5|];
    [|discriminate].
  destruct (dict_get r (txt "RSRP Range 3 (-110~-115dBm) %")) as [c6|];
    [|discriminate].
  destruct (dict_get r (txt "RSRP < -115dBm")) as [c7|]; [|discriminate].
  cbn [bind].
  set (info := {| site_name := c3; rsrp_range_1 := c4; rsrp_range_2 := c5;
                  rsrp_range_3 := c6; rsrp_below_115 := c7;
                  distance_km := d |}).
  intro H. exists info. split; [reflexivity|].
  destruct (float_ltb d m), (float_leb d (float_lit 20 (-1))) eqn:E;
    injection H as <- <- <-; split; auto.
Qed.

Lemma lookup_loop_invariant (lat lon : float) (rows seen : list row)
    (st st' : lookup_state) :
  lookup_invariant seen st ->
  lookup_loop lat lon st rows = Ok st' ->
  lookup_invariant (seen ++ rows) st'.
Proof.
  revert seen st. induction rows as [|r rows IH]; intros seen st Hst H.
  - injection H as <-. now rewrite app_nil_r.
  - cbn [lookup_loop] in H.
    destruct (lookup_step lat lon st r) as [st1|] eqn:E; [|discriminate].
    cbn [bind] in H.
    change (seen ++ r :: rows) with (seen ++ [r] ++ rows).
    rewrite app_assoc. apply (IH (seen ++ [r]) st1); [|exact H].
    destruct st as [[m n] nb], st1 as [[m1 n1] nb1].
    apply lookup_step_effect in E.
    destruct E as (info & Hname & Hn & Hnb). destruct Hst as [H1 H2].
    split.
    + intros s Hs. destruct Hn as [-> | ->].
      * destruct (H1 s Hs) as (r0 & Hr0 & Hr0n). exists r0.
        split; [apply in_or_app; now left|exact Hr0n].
      * injection Hs as <-. exists r.
        split; [apply in_or_app; right; now left|exact Hname].
    + destruct Hnb as [-> | [-> Hd]]; [exact H2|].
      apply Forall_app. split; [exact H2|]. now constructor.
Qed.

(** X11.  When the nearest-site lookup finds a site, the nearest site
    carries the name of a row of the table, the list of nearby sites is
    not empty, and every site in it lies within 2.0 km or is the
    nearest site itself. *)
Theorem get_location_data_found (excel_data : DataFrame) (lat lon : float)
    (nearest : site_info) (nearby : list site_info) :
  get_location_data excel_data lat lon = Ok (Found nearest nearby) ->
  (exists r, In r (iterrows excel_data)
             /\ dict_get r (txt "Site Name") = Some (site_name nearest))
  /\ nearby <> []
  /\ Forall
       (fun s =>
          s = nearest
          \/ float_leb (distance_km s) (float_lit 20 (-1)) = true)
       nearby.
Proof.
  unfold get_location_data.
  destruct (lookup_loop lat lon (float_inf, None, []) (iterrows excel_data))
    as [[[m n] nb]|] eqn:E; [|discriminate].
  cbn [bind].
  apply (lookup_loop_invariant lat lon (iterrows excel_data) []) in E;
    [|split; [discriminate|constructor]].
  cbn [app] in E. destruct E as [H1 H2].
  destruct n as [s|]; [|discriminate].
  intro H. injection H as <- <-. split; [now apply H1|].
  destruct nb as [|s0 nb].
  - split; [discriminate|]. constructor; [now left|constructor].
  - split; [discriminate|].
    apply Forall_impl with (2 := H2). intros a Ha. now right.
Qed.

End NearestSite.

Lemma get_location_data_found_witness :
  @get_location_data Decimal.decimal DecimalMath.series
    Sample2.sites Sample2.seven Sample2.eighty
  = Ok (Found Sample2.kandy_town_info [Sample2.kandy_town_info])
  /\ (exists r, In r (iterrows Sample2.sites)
                /\ dict_get r (txt "Site Name")
                   = Some (site_name Sample2.kandy_town_info))
  /\ [Sample2.kandy_town_info] <> []
  /\ Forall
       (fun s =>
          s = Sample2.kandy_town_info
          \/ @float_leb Decimal.decimal DecimalMath.series
               (distance_km s) (float_lit 20 (-1)) = true)
       [Sample2.kandy_town_info].
Proof.
  split; [reflexivity|].
  apply (@get_location_data_found Decimal.decimal DecimalMath.series
           Sample2.sites Sample2.seven Sample2.eighty).
  reflexivity.
Defined.

(** ** The layout of a formatted solution *)

Lemma split_from_first_class (cls : ascii -> bool) (r : Re.regex) (s : str) :
  forallb (fun c => negb (cls c)) s = true ->
  forall prev cur,
    Re.split_from (Re.One cls :: r) prev 0 cur s = [rev cur ++ s].
Proof.
  induction s as [|c s IH]; intros H prev cur.
  - cbn. now rewrite app_nil_r.
  - cbn [forallb] in H. apply andb_prop in H. destruct H as [Hc Hs].
    apply negb_true_iff in Hc. cbn [Re.split_from].
    rewrite match_here_One, Hc. rewrite (IH Hs). cbn [rev].
    now rewrite <- app_assoc.
Qed.

Lemma newline_is_space : Char.is_space newline = true.
Proof. reflexivity. Qed.

Lemma single_spaced_no_newline (s : str) :
  single_spaced s = true ->
  forallb (fun c => negb (Char.is_char newline c)) s = true.
Proof.
  induction s as [|c s IH]; [reflexivity|]. cbn [single_spaced forallb].
  intro H. apply andb_prop in H. destruct H as [H1 H2].
  rewrite (IH H2), andb_true_r.
  destruct (Char.is_char newline c) eqn:E; [|reflexivity].
  apply is_char_eq in E. subst c. discriminate.
Qed.

Lemma one_piece (s : str) :
  single_spaced s = true -> strip s = s ->
  stripped_paragraphs (Re.split re_numbered_item s)
  = (if truthy s then [s] else [])
  /\ stripped_paragraphs (Re.split re_blank_line s)
     = (if truthy s then [s] else []).
Proof.
  intros H Hs. apply single_spaced_no_newline in H.
  unfold Re.split, re_numbered_item, re_blank_line.
  rewrite !(split_from_first_class _ _ s H). cbn [rev app].
  unfold stripped_paragraphs. cbn [filter]. rewrite Hs.
  destruct (truthy s); cbn [map]; [now rewrite Hs|now split].
Qed.

(** X12.  A solution text that is not blank always comes out as a single
    paragraph, numbered 1, followed by the line that names the solution
    type: normalization leaves no line feed, so neither the numbered
    items nor the blank lines the formatter looks for are ever found.
    The paragraph is the text normalized twice, or the advice to contact
    support when normalization leaves nothing. *)
Theorem format_solution_paragraphs_one_paragraph
    (solution_text solution_type : str) :
  truthy (strip solution_text) = true ->
  format_solution_paragraphs solution_text solution_type
  = (if truthy (remove_specific_locations (strip solution_text))
     then
       txt "1. "
       ++ remove_specific_locations
            (remove_specific_locations (strip solution_text))
     else
       txt "1. Please contact technical support for detailed analysis and assistance with this issue.")
    ++ [newline; newline] ++ txt "[Solution type: " ++ solution_type
    ++ txt "]".
Proof.
  intro H. unfold format_solution_paragraphs.
  assert (Hc : negb (truthy solution_text)
               || negb (truthy (strip solution_text)) = false).
  { rewrite H. destruct solution_text; [discriminate|reflexivity]. }
  rewrite Hc. cbv zeta.
  set (cleaned := remove_specific_locations (strip solution_text)).
  assert (Htidy : single_spaced cleaned = true /\ strip cleaned = cleaned).
  { destruct (negb (truthy (strip solution_text))
              || negb (truthy (strip (strip solution_text)))) eqn:E.
    - rewrite strip_idempotent, H in E. discriminate.
    - destruct (remove_specific_locations_shape (strip solution_text) E)
        as (_ & H1 & _ & H2).
      now split. }
  destruct Htidy as [H1 H2].
  destruct (one_piece cleaned H1 H2) as [-> ->].
  destruct (truthy cleaned); reflexivity.
Qed.

Lemma format_solution_paragraphs_one_paragraph_witness :
  truthy (strip (txt "1. Restart the handset.
2. Move away from KDY123.")) = true
  /\ format_solution_paragraphs (txt "1. Restart the handset.
2. Move away from KDY123.") (txt "exact_match")
     = txt "1. . Restart the handset. . Move away from the area."
       ++ [newline; newline] ++ txt "[Solution type: exact_match]".
Proof.
  split; [reflexivity|].
  rewrite (format_solution_paragraphs_one_paragraph
             (txt "1. Restart the handset.
2. Move away from KDY123.") (txt "exact_match") eq_refl).
  reflexivity.
Defined.

(** ** Generated text without headings, and with them *)

Lemma split_headings_skip (k : nat) (cur m s : str) :
  length m = k -> split_headings k cur (m ++ s) = split_headings 0 cur s.
Proof.
  revert k. induction m as [|c m IH]; intros k <-; [reflexivity|].
  cbn [app length]. destruct s as [|d s].
  - rewrite app_nil_r. clear IH. cbn [split_headings].
    induction m as [|e m IH]; [reflexivity|exact IH].
  - cbn [split_headings]. now apply IH.
Qed.

Lemma heading_here_nil : heading_here [] = None.
Proof. reflexivity. Qed.

Lemma split_headings_plain (s : str) :
  has_heading s = false ->
  forall cur, split_headings 0 cur s = [rev cur ++ s].
Proof.
  induction s as [|c s IH]; intros H cur.
  - cbn. now rewrite app_nil_r.
  - cbn [has_heading] in H. cbn [split_headings].
    destruct (heading_here (c :: s)); [discriminate|].
    rewrite (IH H). cbn [rev]. now rewrite <- app_assoc.
Qed.

(** X13.  Generated text in which none of the three headings occurs,
    whatever the case of its letters, is dropped altogether: the
    formatter returns the empty text. *)
Theorem format_llm_solution_without_heading (raw_text : str) :
  truthy (strip raw_text) = true ->
  has_heading (llm_text raw_text) = false ->
  format_llm_solution raw_text = [].
Proof.
  intros H Hh. unfold format_llm_solution.
  assert (Hc : negb (truthy raw_text)
               || negb (truthy (strip raw_text)) = false).
  { rewrite H. destruct raw_text; [discriminate|reflexivity]. }
  rewrite Hc. cbv zeta. now rewrite (split_headings_plain _ Hh).
Qed.

Lemma format_llm_solution_without_heading_witness :
  truthy (strip (txt "Restart the handset and check the APN.")) = true
  /\ has_heading (llm_text (txt "Restart the handset and check the APN."))
     = false
  /\ format_llm_solution (txt "Restart the handset and check the APN.") = [].
Proof.
  split; [reflexivity|]. split; [reflexivity|].
  apply (format_llm_solution_without_heading
           (txt "Restart the handset and check the APN."));
    reflexivity.
Defined.

Lemma In_all_chars (c : ascii) : In c all_chars.
Proof.
  unfold all_chars. rewrite <- (ascii_nat_embedding c).
  apply in_map, in_seq. pose proof (nat_ascii_bounded c). lia.
Qed.

Lemma upper_restores_spec (x c : ascii) :
  upper_restores x = true ->
  (code (Char.lower c) =? code (Char.lower x))%N = true ->
  upper_char c = [x].
Proof.
  unfold upper_restores. intros H Hc.
  pose proof (proj1 (forallb_forall _ _) H c (In_all_chars c)) as Hx.
  cbv beta in Hx. rewrite Hc in Hx. now apply str_eqb_eq in Hx.
Qed.

Lemma headings_restored :
  Forall (fun phrase => forallb upper_restores phrase = true) headings.
Proof. repeat constructor; vm_compute; reflexivity. Qed.

Lemma literal_here_upper (phrase h : str) :
  forallb upper_restores phrase = true ->
  literal_here phrase h = true -> length h = length phrase ->
  upper h = phrase.
Proof.
  revert h. induction phrase as [|x phrase IH]; intros h Hp Hl Hlen.
  - destruct h; [reflexivity|discriminate].
  - destruct h as [|c h]; [discriminate|].
    cbn [forallb] in Hp. apply andb_prop in Hp. destruct Hp as [Hx Hp].
    cbn [literal_here] in Hl. apply andb_prop in Hl. destruct Hl as [Hc Hl].
    injection Hlen as Hlen. unfold upper. cbn [flat_map].
    rewrite (upper_restores_spec x c Hx Hc). cbn [app]. f_equal.
    now apply IH.
Qed.

Lemma upper_char_space (c : ascii) :
  Char.is_space c = true -> upper_char c = [c].
Proof. by_cases_on_char c. Qed.

Lemma literal_here_length (phrase s : str) :
  literal_here phrase s = true -> length phrase <= length s.
Proof.
  revert s. induction phrase as [|x phrase IH]; intros s H; [simpl; lia|].
  destruct s as [|c s]; [discriminate|]. cbn [literal_here] in H.
  apply andb_prop in H. destruct H as [_ H]. apply IH in H. simpl. lia.
Qed.

Lemma literal_here_firstn (phrase s : str) :
  literal_here phrase s = true ->
  literal_here phrase (firstn (length phrase) s) = true.
Proof.
  revert s. induction phrase as [|x phrase IH]; intros s H; [reflexivity|].
  destruct s as [|c s]; [discriminate|]. cbn [literal_here] in H.
  apply andb_prop in H. destruct H as [Hc H].
  cbn [length firstn literal_here]. now rewrite Hc, IH.
Qed.

Lemma heading_here_Some (s : str) (n : nat) :
  heading_here s = Some n ->
  exists phrase,
    In phrase headings /\ literal_here phrase s = true
    /\ n = length phrase.
Proof.
  unfold heading_here. intro H.
  destruct (find _ headings) as [phrase|] eqn:E; [|discriminate].
  injection H as <-. apply find_some in E. now exists phrase.
Qed.

Lemma split_headings_ok (s : str) :
  forall cur, parts_ok (split_headings 0 cur s).
Proof.
  remember (length s) as n eqn:Hn. revert s Hn.
  induction n as [n IH] using lt_wf_ind. intros s -> cur.
  destruct s as [|c s]; [constructor|]. cbn [split_headings].
  destruct (heading_here (c :: s)) as [[|k]|] eqn:E;
    try (apply (IH (length s)); [simpl; lia|reflexivity]).
  apply heading_here_Some in E. destruct E as (phrase & Hin & Hl & Hk).
  pose proof (literal_here_length _ _ Hl) as Hle. rewrite <- Hk in Hle.
  cbn [length] in Hle.
  rewrite <- (firstn_skipn k s) at 2.
  rewrite split_headings_skip by (apply firstn_length_le; lia).
  constructor.
  - exists phrase. split; [exact Hin|]. rewrite Hk. split.
    + now apply literal_here_firstn.
    + apply firstn_length_le. rewrite <- Hk. simpl. lia.
  - apply (IH (length (skipn k s))); [|reflexivity].
    rewrite length_skipn. simpl. lia.
Qed.

Lemma heading_edges (phrase : str) :
  In phrase headings ->
  exists x y middle,
    phrase = x :: middle ++ [y]
    /\ Char.is_space x = false /\ Char.is_space y = false.
Proof.
  intros [<-|[<-|[<-|[]]]].
  - exists "P"%char, "N"%char, (txt "RIMARY SOLUTIO"). now repeat split.
  - exists "A"%char, "N"%char, (txt "LTERNATIVE SOLUTIO"). now repeat split.
  - exists "A"%char, "N"%char, (txt "DDITIONAL RECOMMENDATIO").
    now repeat split.
Qed.

Lemma upper_app (a b : str) : upper (a ++ b) = upper a ++ upper b.
Proof. apply flat_map_app. Qed.

Lemma upper_char_not_nil (c : ascii) : upper_char c <> [].
Proof.
  unfold upper_char.
  destruct (_ || _); [discriminate|]. destruct (_ =? _)%N; discriminate.
Qed.

Lemma strip_heading (h : str) : is_heading h -> strip h = h.
Proof.
  intros (phrase & Hin & Hl & Hlen).
  pose proof (proj1 (Forall_forall _ _) headings_restored phrase Hin) as Hr.
  pose proof (literal_here_upper phrase h Hr Hl Hlen) as Hu.
  destruct (heading_edges phrase Hin) as (x & y & middle & -> & Hx & Hy).
  destruct h as [|c h]; [discriminate|].
  destruct (exists_last (l := c :: h)) as (h0 & d & Eh); [discriminate|].
  assert (Hc : Char.is_space c = false).
  { destruct (Char.is_space c) eqn:E; [|reflexivity].
    unfold upper in Hu. cbn [flat_map] in Hu.
    rewrite (upper_char_space c E) in Hu. injection Hu as -> _. congruence. }
  assert (Hd : Char.is_space d = false).
  { destruct (Char.is_space d) eqn:E; [|reflexivity].
    rewrite Eh, upper_app in Hu. unfold upper at 2 in Hu.
    cbn [flat_map] in Hu. rewrite (upper_char_space d E) in Hu.
    cbn [app] in Hu.
    change (x :: middle ++ [y]) with ((x :: middle) ++ [y]) in Hu.
    apply app_inj_tail in Hu. destruct Hu as [_ ->]. congruence. }
  unfold strip. cbn [lstrip]. rewrite Hc. unfold rstrip.
  rewrite Eh, rev_app_distr. cbn [rev app lstrip]. rewrite Hd.
  cbn [rev]. now rewrite rev_involutive.
Qed.

Lemma upper_heading (h : str) :
  is_heading h -> In (upper (strip h)) headings.
Proof.
  intro H. rewrite (strip_heading h H).
  destruct H as (phrase & Hin & Hl & Hlen).
  pose proof (proj1 (Forall_forall _ _) headings_restored phrase Hin) as Hr.
  now rewrite (literal_here_upper phrase h Hr Hl Hlen).
Qed.

Lemma section_of_heading (n : Z) (header content : str) :
  In header headings ->
  exists title,
    snd (section_of n header content) = [title]
    /\ (n <= fst (section_of n header content) <= n + 1)%Z.
Proof.
  intros [<-|[<-|[<-|[]]]]; unfold section_of;
    cbn -[str_of_int app Z.add]; eexists; (split; [reflexivity|lia]).
Qed.

(** X14.  In a text of code points below U+0100 no heading found is
    passed over: the formatter writes exactly one numbered section for
    each of the headings the split finds.  (Above that range U+0130
    matches [I] under [re.IGNORECASE] and [str.upper] leaves it as it
    is, so that a heading written with it is found and then passed
    over; such texts are outside the model.) *)
Theorem format_sections_one_per_heading (text : str) (current_number : Z) :
  length
    (format_sections current_number (tl (split_headings 0 [] text)))
  = length (headings_of (split_headings 0 [] text)).
Proof.
  pose proof (split_headings_ok text []) as H. revert current_number.
  induction H as [piece|piece h parts Hh Hparts IH]; intro n;
    [reflexivity|].
  cbn [tl headings_of length].
  assert (Hrest : exists piece', parts = piece' :: tl parts)
    by (destruct Hparts; eexists; reflexivity).
  destruct Hrest as (piece' & Hrest). rewrite Hrest at 1.
  cbn [format_sections].
  destruct (section_of_heading n (upper (strip h)) (strip piece')
              (upper_heading h Hh)) as (t1 & E1 & _).
  destruct (section_of n (upper (strip h)) (strip piece')) as [n1 f1].
  cbn [snd] in E1. subst f1. cbn [app length]. f_equal.
  apply (IH n1).
Qed.

(** ** A handler without its tables *)

Section Loading.

Context {FP : PyFloat}.

Variable call_ollama_llm : str -> str.
Variable create_complaint_solution_prompt :
  dict pyval -> list row -> context -> str.
Variable create_pattern_analysis_prompt : str -> list row -> str.
Variable create_new_complaint_prompt : dict pyval -> option context -> str.

Lemma load_model_incomplete (file : model_file) :
  incomplete file = true ->
  load_model file
  = {| complaint_data := Some empty_frame;
       location_data := Some empty_frame |}.
Proof.
  destruct file as [| |[c|] [l|]]; try reflexivity. discriminate.
Qed.

(** X15.  Loading is all or nothing, and a handler without tables
    answers every complaint as a new one: when the model file is
    missing, unreadable or lacks one of the two tables, both tables are
    empty after [load_model], and [generate_solution] returns the text
    generated from the new-complaint prompt, without location context,
    under the label [new_complaint]. *)
Theorem incomplete_model_answers_new_complaint (file : model_file)
    (complaint_details : dict pyval) :
  incomplete file = true ->
  load_model file
  = {| complaint_data := Some empty_frame;
       location_data := Some empty_frame |}
  /\ generate_solution call_ollama_llm create_complaint_solution_prompt
       create_pattern_analysis_prompt create_new_complaint_prompt
       (load_model file) complaint_details
     = Ok (call_ollama_llm
             (create_new_complaint_prompt complaint_details None),
           txt "new_complaint").
Proof.
  intro H. rewrite (load_model_incomplete file H). split; reflexivity.
Qed.

End Loading.

Lemma incomplete_model_answers_new_complaint_witness :
  incomplete (Pickled (Some Sample.corpus) None) = true
  /\ load_model (Pickled (Some Sample.corpus) None)
     = {| complaint_data := Some empty_frame;
          location_data := Some empty_frame |}
  /\ generate_solution (fun prompt => prompt) (fun _ _ _ => [])
       (fun _ _ => []) (fun _ _ => txt "new")
       (load_model (Pickled (Some Sample.corpus) None))
       (complaint_details_of Sample.request)
     = Ok (txt "new", txt "new_complaint").
Proof.
  split; [reflexivity|].
  apply (@incomplete_model_answers_new_complaint Decimal.decimal
           (fun prompt => prompt) (fun _ _ _ => []) (fun _ _ => [])
           (fun _ _ => txt "new") (Pickled (Some Sample.corpus) None)
           (complaint_details_of Sample.request)).
  reflexivity.
Defined.

(** ** Values that count as absent *)

Section AbsentValues.

Context {FP : PyFloat}.

Lemma condition_values_set (keys : list str) (c : dict pyval)
    (key : str) (v v' : pyval) :
  condition_value key v = condition_value key v' ->
  condition_values keys (dict_set c key v)
  = condition_values keys (dict_set c key v').
Proof.
  intro H. apply condition_values_ext. intro k. unfold get_value.
  destruct (str_eq_dec key k) as [<-|Hne].
  - now rewrite !dict_get_set_same.
  - now rewrite !dict_get_set_other.
Qed.

Lemma dict_set_not_nil {V : Type} (d : dict V) (k : str) (v : V) :
  dict_set d k v <> [].
Proof.
  destruct d as [|[k0 w] d]; cbn; [discriminate|].
  destruct (str_eqb k0 k); discriminate.
Qed.

Lemma signature_set (text : str) (c : dict pyval) (key : str)
    (v v' : pyval) :
  condition_value key v = condition_value key v' ->
  create_complaint_signature text (Some (dict_set c key v))
  = create_complaint_signature text (Some (dict_set c key v')).
Proof.
  intro H. unfold create_complaint_signature, signature_input.
  pose proof (dict_set_not_nil c key v) as H1.
  pose proof (dict_set_not_nil c key v') as H2.
  rewrite (condition_values_set all_conditions c key v v' H).
  destruct (dict_set c key v), (dict_set c key v'); congruence.
Qed.

(** X16.  A condition whose text is one of the placeholders (the empty
    text, [n/a], [none], [null], [undefined], in any case and with any
    white space around) counts as absent: the digest is the one obtained
    with [None] for that key. *)
Theorem placeholder_counts_as_absent (complaint_text : str)
    (conditions : dict pyval) (key value : str) :
  mem (lower (strip value)) sentinels = true ->
  create_complaint_signature complaint_text
    (Some (dict_set conditions key (VStr value)))
  = create_complaint_signature complaint_text
      (Some (dict_set conditions key VNone)).
Proof.
  intro H. apply signature_set. unfold condition_value.
  cbn [str_of_value]. now rewrite H.
Qed.

(** X17.  A coordinate within 0.001 of zero counts as absent: the
    digest is the one obtained with [None] for [longitude], and likewise
    for [latitude]. *)
Theorem small_coordinate_counts_as_absent (complaint_text : str)
    (conditions : dict pyval) (key : str) (x : float) :
  key = txt "longitude" \/ key = txt "latitude" ->
  float_gtb (float_abs x) (float_lit 1 (-3)) = false ->
  create_complaint_signature complaint_text
    (Some (dict_set conditions key (VFloat x)))
  = create_complaint_signature complaint_text
      (Some (dict_set conditions key VNone)).
Proof.
  intros Hkey H. apply signature_set. unfold condition_value.
  destruct (mem (lower (strip (str_of_value (VFloat x)))) sentinels);
    [reflexivity|].
  assert (Hm : mem key [txt "longitude"; txt "latitude"] = true)
    by (destruct Hkey as [-> | ->]; reflexivity).
  rewrite Hm. cbn [as_number]. now rewrite H.
Qed.

End AbsentValues.

Lemma placeholder_counts_as_absent_witness :
  mem (lower (strip (txt " N/A "))) sentinels = true
  /\ create_complaint_signature (txt "Call drops")
       (Some (dict_set Sample.weak_signal (txt "site_kpi_alarm")
                (VStr (txt " N/A "))))
     = create_complaint_signature (txt "Call drops")
         (Some (dict_set Sample.weak_signal (txt "site_kpi_alarm") VNone)).
Proof.
  split; [reflexivity|].
  apply (@placeholder_counts_as_absent Decimal.decimal).
  reflexivity.
Defined.

Lemma small_coordinate_counts_as_absent_witness :
  (txt "longitude" = txt "longitude" \/ txt "longitude" = txt "latitude")
  /\ float_gtb (float_abs Sample2.near_zero) (float_lit 1 (-3))
     = false
  /\ create_complaint_signature (txt "Call drops")
       (Some (dict_set Sample.weak_signal (txt "longitude")
                (VFloat Sample2.near_zero)))
     = create_complaint_signature (txt "Call drops")
         (Some (dict_set Sample.weak_signal (txt "longitude") VNone)).
Proof.
  split; [now left|]. split; [reflexivity|].
  apply (@small_coordinate_counts_as_absent Decimal.decimal);
    [now left|reflexivity].
Defined.

(** ** A table of sites that lacks a column *)

Section MissingColumn.

Context {FP : PyFloat} {FM : PyMath FP}.

Lemma dict_get_combine_None {V : Type} (cols : list str) (cells : list V)
    (key : str) :
  ~ In key cols -> dict_get (combine cols cells) key = None.
Proof.
  revert cells. induction cols as [|k cols IH]; intros cells H;
    [reflexivity|].
  destruct cells as [|v cells]; [reflexivity|]. cbn [combine dict_get].
  destruct (str_eqb k key) eqn:E.
  - apply str_eqb_eq in E. subst k. exfalso. apply H. now left.
  - apply IH. intro Hin. apply H. now right.
Qed.

Lemma lookup_step_raises (lat lon : float) (st : lookup_state) (r : row)
    (col : str) :
  In col required_columns -> dict_get r col = None ->
  exists e, lookup_step lat lon st r = Raise e.
Proof.
  intros Hcol Hget. destruct st as [[m n] nb].
  unfold lookup_step, row_item, opt_or_raise.
  destruct (dict_get r (txt "location_corrected.lat")) as [c1|] eqn:E1;
    [|now eexists].
  destruct (dict_get r (txt "location_corrected.lon")) as [c2|] eqn:E2;
    [|now eexists].
  cbn [bind].
  destruct (number_of_cell c1) as [x1|]; [|now eexists].
  destruct (number_of_cell c2) as [x2|]; [|now eexists].
  cbn [bind].
  destruct (haversine_distance lat lon x1 x2) as [d|]; [|now eexists].
  cbn [bind].
  destruct (dict_get r (txt "Site Name")) as [c3|] eqn:E3; [|now eexists].
  destruct (dict_get r (txt "RSRP Range 1 (>-105dBm) %")) as [c4|] eqn:E4;
    [|now eexists].
  destruct (dict_get r (txt "RSRP Range 2 (-105~-110dBm) %"))
    as [c5|] eqn:E5; [|now eexists].
  destruct (dict_get r (txt "RSRP Range 3 (-110~-115dBm) %"))
    as [c6|] eqn:E6; [|now eexists].
  destruct (dict_get r (txt "RSRP < -115dBm")) as [c7|] eqn:E7;
    [|now eexists].
  exfalso. unfold required_columns in Hcol. cbn [In] in Hcol.
  repeat (destruct Hcol as [<-|Hcol]; [congruence|]). exact Hcol.
Qed.

(** X18.  A table of sites that has a row but lacks one of the seven
    columns the lookup reads makes the nearest-site lookup raise,
    wherever the caller stands: no answer is returned, not even
    [not found]. *)
Theorem get_location_data_needs_its_columns (excel_data : DataFrame)
    (lat lon : float) (col : str) :
  In col required_columns -> ~ In col (columns excel_data) ->
  records excel_data <> [] ->
  exists e, get_location_data excel_data lat lon = Raise e.
Proof.
  intros Hcol Hmiss Hrec. unfold get_location_data, iterrows.
  destruct (records excel_data) as [|cells rest]; [congruence|].
  cbn [map lookup_loop].
  destruct (lookup_step_raises lat lon (float_inf, None, [])
              (combine (columns excel_data) cells) col Hcol
              (dict_get_combine_None _ _ _ Hmiss)) as (e & ->).
  now exists e.
Qed.

End MissingColumn.

Lemma get_location_data_needs_its_columns_witness :
  In (txt "Site Name") required_columns
  /\ ~ In (txt "Site Name") (columns Sample2.bare_sites)
  /\ records Sample2.bare_sites <> []
  /\ exists e,
       @get_location_data Decimal.decimal DecimalMath.series
         Sample2.bare_sites Sample2.seven Sample2.eighty
       = Raise e.
Proof.
  assert (H1 : In (txt "Site Name") required_columns)
    by (right; right; now left).
  assert (H2 : ~ In (txt "Site Name") (columns Sample2.bare_sites))
    by (intros [H|[H|[]]]; discriminate).
  assert (H3 : records Sample2.bare_sites <> []) by discriminate.
  repeat split; try assumption.
  exact (@get_location_data_needs_its_columns Decimal.decimal
           DecimalMath.series Sample2.bare_sites
           Sample2.seven Sample2.eighty (txt "Site Name") H1 H2 H3).
Defined.


(** ** The prompts *)

Section PromptFacts.

Context {FP : PyFloat}.

Lemma shown_set_other (d : dict pyval) (k key : str) (v : pyval) :
  k <> key -> shown (dict_set d k v) key = shown d key.
Proof. intro H. unfold shown. now rewrite dict_get_set_other. Qed.

(** X19.  The subscriber number never reaches a prompt: the two prompt
    builders that take the complaint details return the same prompt, or
    raise the same exception, whatever is written under [msisdn]. *)
Theorem prompts_ignore_msisdn (complaint_details : dict pyval) (m : pyval)
    (similar_cases : option (list row)) (location_info : option context) :
  create_complaint_solution_prompt
    (dict_set complaint_details (txt "msisdn") m) similar_cases location_info
  = create_complaint_solution_prompt complaint_details similar_cases
      location_info
  /\ create_new_complaint_prompt
       (dict_set complaint_details (txt "msisdn") m) location_info
     = create_new_complaint_prompt complaint_details location_info.
Proof.
  unfold create_complaint_solution_prompt, create_new_complaint_prompt.
  rewrite !shown_set_other by discriminate.
  rewrite dict_get_set_other by discriminate.
  split; reflexivity.
Qed.

(** A record whose two texts can be handed to [re.sub]. *)
Lemma case_lines_ok (signal_label : str) (cases : list row) :
  Forall
    (fun case =>
       forall col c,
         col = txt "Issue Description" \/ col = txt "Solution" ->
         dict_get case col = Some c -> exists s, c = CStr s)
    cases ->
  forall i, exists lines, case_lines signal_label i cases = Ok lines.
Proof.
  induction 1 as [|case cases Hcase _ IH]; intro i; [now eexists|].
  cbn [case_lines]. unfold case_text.
  destruct (dict_get case (txt "Issue Description")) as [c1|] eqn:E1;
    [destruct (Hcase _ c1 (or_introl eq_refl) E1) as (s1 & ->)|];
    (destruct (dict_get case (txt "Solution")) as [c2|] eqn:E2;
     [destruct (Hcase _ c2 (or_intror eq_refl) E2) as (s2 & ->)|]);
    cbn [bind]; destruct (IH (i + 1)%Z) as (rest & ->); cbn [bind];
    now eexists.
Qed.

Lemma Forall_slice_to {A : Type} (P : A -> Prop) (n : Z) (l : list A) :
  Forall P l -> Forall P (slice_to n l).
Proof.
  intro H. apply Forall_forall. intros x Hx. apply In_slice_to in Hx.
  exact (proj1 (Forall_forall _ _) H x Hx).
Qed.

Lemma similar_complaints_are_texts (self : SimpleComplaintHandler)
    (text : str) (top_n : Z) :
  Forall
    (fun case =>
       forall col c,
         col = txt "Issue Description" \/ col = txt "Solution" ->
         dict_get case col = Some c -> exists s, c = CStr s)
    (find_similar_complaints self text top_n).
Proof.
  apply Forall_forall. intros r' Hin col c Hcol Hget.
  apply In_find_similar_complaints in Hin.
  destruct Hin as (r & _ & _ & ->). cbn [score_row item_data] in Hget.
  rewrite !clean_column_get in Hget.
  destruct Hcol as [-> | ->]; cbn in Hget;
    match type of Hget with
    | option_map _ ?o = _ => destruct o as [c0|]; [|discriminate]
    end;
    injection Hget as <-; now eexists.
Qed.

(** X20.  The prompt builders never fail on what the search returns:
    given the records of [find_similar_complaints], whose two texts were
    normalized on the way, [create_complaint_solution_prompt] and
    [create_pattern_analysis_prompt] return a prompt and do not raise,
    whatever the complaint, the corpus and the location context. *)
Theorem prompts_accept_similar_complaints (self : SimpleComplaintHandler)
    (complaint_text : str) (top_n : Z) (complaint_details : dict pyval)
    (location_info : option context) :
  (exists prompt,
     create_complaint_solution_prompt complaint_details
       (Some (find_similar_complaints self complaint_text top_n))
       location_info
     = Ok prompt)
  /\ (exists prompt,
        create_pattern_analysis_prompt complaint_text
          (find_similar_complaints self complaint_text top_n)
        = Ok prompt).
Proof.
  pose proof (similar_complaints_are_texts self complaint_text top_n) as H.
  split.
  - unfold create_complaint_solution_prompt.
    destruct (find_similar_complaints self complaint_text top_n)
      as [|r rs] eqn:E; [now eexists|].
    destruct (case_lines_ok (txt "   Signal: ") (slice_to 3 (r :: rs))
                (Forall_slice_to _ 3 _ H) 1%Z) as (lines & ->).
    now eexists.
  - unfold create_pattern_analysis_prompt.
    destruct (case_lines_ok (txt "   Conditions: Signal=")
                (slice_to 5 (find_similar_complaints self complaint_text top_n))
                (Forall_slice_to _ 5 _ H) 1%Z) as (lines & ->).
    now eexists.
Qed.

End PromptFacts.
